(** * The grid engine of the 2048 terminal game ([2048.py])

    A shallow embedding of the classes [Square] and [Grid] of [2048.py] and
    the properties of the grid transition engine.

    [Square] objects are mutable and shared: the rows of [Grid.squares], the
    reversed rows built by [right], and the columns built by [_get_columns]
    all hold references to the same [Square] objects, and [_shift] updates
    the grid by assigning to [Square.value] through those references.  The
    embedding therefore has a heap of [Square] objects addressed by object
    identity, and every line handed to [_shift] is a list of references. *)

From stdpp Require Import base list numbers.
From Stdlib Require Ascii String.
From stdpp Require strings pretty.

(** ** The heap of [Square] objects *)

(** The identity of a [Square] object. *)
Definition loc := nat.

(** [value σ l] is the attribute [value] of the square [l]: [None] for an
    empty square, [Some v] for a tile.  [next_id] is the identity the next
    [Square()] call receives. *)
Record heap := Heap { next_id : loc; value : loc → option Z }.

(** [sq.value = v] *)
Definition set_value (σ : heap) (l : loc) (v : option Z) : heap :=
  Heap (next_id σ) (λ l', if Nat.eqb l' l then v else value σ l').

(** ** Exceptions and the state-and-exception monad *)

Inductive exn := GameOverException | GameFinishedException | IndexError.

Inductive outcome (A : Type) :=
  | Return (a : A)
  | Raise (e : exn).
Arguments Return {A} a.
Arguments Raise {A} e.

(** A method runs on a heap and leaves a heap, also when it raises: what it
    assigned before the [raise] stays assigned. *)
Definition M (A : Type) : Type := heap → outcome A * heap.

#[export] Instance M_ret : MRet M := λ A a σ, (Return a, σ).

#[export] Instance M_bind : MBind M := λ A B f m σ,
  match m σ with
  | (Return a, σ') => f a σ'
  | (Raise e, σ') => (Raise e, σ')
  end.

Definition raise {A : Type} (e : exn) : M A := λ σ, (Raise e, σ).

(** [Square(value)] *)
Definition Square (v : option Z) : M loc := λ σ,
  (Return (next_id σ),
   Heap (S (next_id σ)) (λ l', if Nat.eqb l' (next_id σ) then v else value σ l')).

(** ** class Grid *)

Record Grid := { _width : nat; _height : nat; squares : list (list loc) }.

Definition GOAL : Z := 2048.

(** *** [_init_squares] *)

(** The inner loop [for y in range(self._height)], appending a new square to
    the last row. *)
Fixpoint init_row (height : nat) (row : list loc) : M (list loc) :=
  match height with
  | 0 => mret row
  | S h => sq ← Square None; init_row h (row ++ [sq])
  end.

(** The outer loop [for x in range(self._width)]. *)
Fixpoint init_rows (width height : nat) (sqs : list (list loc))
  : M (list (list loc)) :=
  match width with
  | 0 => mret sqs
  | S w => row ← init_row height []; init_rows w height (sqs ++ [row])
  end.

Definition _init_squares (width height : nat) : M (list (list loc)) :=
  init_rows width height [].

(** *** [_get_empty_squares] and [_new_square] *)

Definition _get_empty_squares (self : Grid) (σ : heap) : list loc :=
  filter (λ y, value σ y = None) (concat (squares self)).

(** [random.choice(empty_squares)] returns [empty_squares[k]] for some [k] in
    [range(len(empty_squares))]; the draw is the parameter [choice], reduced
    modulo the length. *)
Definition _new_square (self : Grid) (choice : nat) : M unit := λ σ,
  match _get_empty_squares self σ with
  | [] => (Raise GameOverException, σ)
  | e :: es =>
      let random_square := nth (choice mod length (e :: es)) (e :: es) e in
      (Return tt, set_value σ random_square (Some 2%Z))
  end.

(** *** [__init__] *)

Definition Grid_init (width height : nat) (choice1 choice2 : nat) : M Grid :=
  sqs ← _init_squares width height;
  let self := {| _width := width; _height := height; squares := sqs |} in
  _ ← _new_square self choice1;
  _ ← _new_square self choice2;
  mret self.

(** *** [_shift] *)

(** The local variables of [_shift].  [last_filled_spot] is a reference to a
    [Square]; [first_empty_spot] is an index into [squares]. *)
Record locals := Locals {
  first_empty_spot : option nat;
  last_filled_spot : option loc;
  merged : bool;
  finished : bool;
  made_move : bool
}.

Definition locals0 : locals := Locals None None false false false.

(** [last_filled_spot and last_filled_spot.value == spot.value], for a
    [spot] of value [x]: the square to merge into and its value. *)
Definition merge_target (σ : heap) (v : locals) (x : Z) : option (loc * Z) :=
  match last_filled_spot v with
  | Some last =>
      match value σ last with
      | Some y => if (y =? x)%Z then Some (last, y) else None
      | None => None
      end
  | None => None
  end.

(** [if first_empty_spot is None: first_empty_spot = i] *)
Definition record_first_empty (i : nat) (v : locals) : locals :=
  match first_empty_spot v with
  | None => Locals (Some i) (last_filled_spot v) (merged v) (finished v)
                   (made_move v)
  | Some _ => v
  end.

(** One iteration of [for i, spot in enumerate(squares)]. *)
Definition shift_body (sqs : list loc) (i : nat) (spot : loc) (v : locals)
  : M locals := λ σ,
  match value σ spot with
  | None =>
      (* Keep a record for the first empty spot *)
      (Return (record_first_empty i v), σ)
  | Some x =>
      match merge_target σ v x with
      | Some (last, y) =>
          if merged v then (* Only allow merging once per move *)
            (Return v, σ)
          else
            (* Merge the two spots: last_filled_spot.value += spot.value *)
            let σ1 := set_value σ last (Some (y + x)%Z) in
            let finished' :=
              match value σ1 last with
              | Some s => if (s =? GOAL)%Z then true else finished v
              | None => finished v
              end in
            let σ2 := set_value σ1 spot None in
            (Return (record_first_empty i
                       (Locals (first_empty_spot v) (last_filled_spot v)
                               true finished' true)), σ2)
      | None =>
          match first_empty_spot v with
          | Some k =>
              (* No merge available, but there is an empty spot *)
              match sqs !! k with
              | Some target =>
                  let σ1 := set_value σ target (value σ spot) in
                  let σ2 := set_value σ1 spot None in
                  (Return (Locals (Some (k + 1)) (Some target) (merged v)
                                  (finished v) true), σ2)
              | None => (Raise IndexError, σ)
              end
          | None =>
              (* Keep a record of the last spot available for merging *)
              (Return (Locals None (Some spot) (merged v) (finished v)
                              (made_move v)), σ)
          end
      end
  end.

(** The loop of [_shift], at index [i] with the squares [rest] still to be
    visited. *)
Fixpoint shift_loop (sqs : list loc) (i : nat) (rest : list loc) (v : locals)
  : M locals :=
  match rest with
  | [] => mret v
  | spot :: rest' => v' ← shift_body sqs i spot v; shift_loop sqs (S i) rest' v'
  end.

(** The local variables when the loop of [_shift] ends. *)
Definition shift_locals (sqs : list loc) : M locals :=
  shift_loop sqs 0 sqs locals0.

Definition _shift (sqs : list loc) : M (bool * bool) :=
  v ← shift_locals sqs; mret (made_move v, finished v).

(** *** [_get_columns] *)

(** [columns[i].append(spot)] *)
Definition append_column (columns : list (list loc)) (i : nat) (spot : loc)
  : M (list (list loc)) :=
  match columns !! i with
  | Some c => mret (<[i := c ++ [spot]]> columns)
  | None => raise IndexError
  end.

(** [for i, spot in enumerate(row)] *)
Fixpoint columns_of_row (columns : list (list loc)) (i : nat) (row : list loc)
  : M (list (list loc)) :=
  match row with
  | [] => mret columns
  | spot :: row' =>
      columns' ← append_column columns i spot;
      columns_of_row columns' (S i) row'
  end.

(** [for row in self.squares] *)
Fixpoint columns_of_rows (columns : list (list loc)) (rows : list (list loc))
  : M (list (list loc)) :=
  match rows with
  | [] => mret columns
  | row :: rows' =>
      columns' ← columns_of_row columns 0 row;
      columns_of_rows columns' rows'
  end.

Definition _get_columns (self : Grid) : M (list (list loc)) :=
  columns_of_rows ((λ _, []) <$> squares self) (squares self).

(** *** [_move] *)

(** The loop [for line in squares] of [_move]; [fin_all] and [mm_all] are the
    variables [finished] and [made_move] of [_move]. *)
Fixpoint move_loop (lines : list (list loc)) (fin_all mm_all : bool)
  : M (bool * bool) :=
  match lines with
  | [] => mret (fin_all, mm_all)
  | line :: lines' =>
      '(mm_, fin_) ← _shift line;
      move_loop lines' (fin_ || fin_all) (mm_ || mm_all)
  end.

Definition _move (self : Grid) (lines : list (list loc)) (choice : nat)
  : M unit :=
  '(fin_all, mm_all) ← move_loop lines false false;
  if (fin_all : bool) then raise GameFinishedException
  else if (mm_all : bool) then _new_square self choice
  else mret tt.

(** *** The four moves *)

Definition left (self : Grid) (choice : nat) : M unit :=
  _move self (squares self) choice.

Definition right (self : Grid) (choice : nat) : M unit :=
  _move self (reverse <$> squares self) choice.

Definition top (self : Grid) (choice : nat) : M unit :=
  columns ← _get_columns self; _move self columns choice.

Definition bottom (self : Grid) (choice : nat) : M unit :=
  columns ← _get_columns self; _move self (reverse <$> columns) choice.

(** The actions the main loop dispatches with [getattr(self._grid, action)]. *)
Inductive action := Left | Right | Top | Bottom.

Definition apply_action (a : action) : Grid → nat → M unit :=
  match a with
  | Left => left
  | Right => right
  | Top => top
  | Bottom => bottom
  end.

(** ** Reading a grid *)

(** A heap whose squares [0, 1, ...] hold the given values. *)
Definition heap_of (vs : list (option Z)) : heap :=
  Heap (length vs) (λ l, default None (vs !! l)).

(** The values of a line of squares. *)
Definition values (σ : heap) (sqs : list loc) : list (option Z) :=
  value σ <$> sqs.

(** The tiles on a list of squares, in the order of the list. *)
Definition tiles (σ : heap) (sqs : list loc) : list Z :=
  omap (value σ) sqs.

(** The number of tiles on a list of squares. *)
Definition count_tiles (σ : heap) (sqs : list loc) : nat :=
  length (tiles σ sqs).

(** The squares of a grid, row by row. *)
Definition cells (self : Grid) : list loc := concat (squares self).

(** The grid of the game: 4 by 4, on the squares 0 to 15. *)
Definition grid4 : Grid :=
  {| _width := 4; _height := 4;
     squares := [[0; 1; 2; 3]; [4; 5; 6; 7]; [8; 9; 10; 11]; [12; 13; 14; 15]] |}.

(** ** Vocabulary of the properties *)

(** The shape [_init_squares] gives a grid: [width] rows of [height] squares. *)
Definition shaped (width height : nat) (self : Grid) : Prop :=
  length (squares self) = width
  ∧ Forall (λ row, length row = height) (squares self).

(** A value that some square of the line holds. *)
Definition line_had (σ : heap) (sqs : list loc) (x : Z) : Prop :=
  ∃ l0, l0 ∈ sqs ∧ value σ l0 = Some x.

(** *** The lines of a move *)

(** The lines each action hands to [_move]. *)
Definition lines_of (a : action) (self : Grid) : M (list (list loc)) :=
  match a with
  | Left => mret (squares self)
  | Right => mret (reverse <$> squares self)
  | Top => _get_columns self
  | Bottom => columns ← _get_columns self; mret (reverse <$> columns)
  end.

(** *** Powers of two and the states of a grid *)

(** A tile value: a power of two, at least 2. *)
Definition tile_ok (x : Z) : Prop :=
  ∃ k : nat, 1 ≤ k ∧ x = (2 ^ Z.of_nat k)%Z.

(** Every tile of the grid is a power of two, at least 2. *)
Definition tiles_ok (self : Grid) (σ : heap) : Prop :=
  ∀ l x, l ∈ cells self → value σ l = Some x → tile_ok x.

(** The states of a grid: the constructed one, and the state after every
    action, however the action ends. *)
Inductive reachable (self : Grid) : heap → Prop :=
  | reach_init width height choice1 choice2 σ0 σ :
      Grid_init width height choice1 choice2 σ0 = (Return self, σ) →
      reachable self σ
  | reach_move a choice σ o σ' :
      reachable self σ →
      apply_action a self choice σ = (o, σ') →
      reachable self σ'.

(** *** The merges of a move *)

(** The number of merges of a move: the merge branch of [_shift] runs at
    most once on a line, and the line then ends with [merged] set; so the
    merges of a move are the lines that end with [merged] set. *)
Fixpoint merges (lines : list (list loc)) (σ : heap) : nat :=
  match lines with
  | [] => 0
  | line :: lines' =>
      match shift_locals line σ with
      | (Return v, σ') => (if merged v then 1 else 0) + merges lines' σ'
      | (Raise _, _) => 0
      end
  end.

(** *** One iteration of [_shift], as a step relation *)

(** The five ways through the loop body: an empty spot; a tile equal to the
    last filled spot after a merge (the [continue]); a merge; a tile moved to
    the first empty spot; a tile that stays and becomes the last filled
    spot. *)
Inductive shift_step (sqs : list loc) (i : nat) (spot : loc) (v : locals)
  (σ : heap) : locals → heap → Prop :=
  | step_empty :
      value σ spot = None →
      shift_step sqs i spot v σ (record_first_empty i v) σ
  | step_skip x last :
      value σ spot = Some x →
      last_filled_spot v = Some last →
      value σ last = Some x →
      merged v = true →
      shift_step sqs i spot v σ v σ
  | step_merge x last :
      value σ spot = Some x →
      last_filled_spot v = Some last →
      value σ last = Some x →
      merged v = false →
      shift_step sqs i spot v σ
        (record_first_empty i
           (Locals (first_empty_spot v) (Some last) true
                   (if (x + x =? GOAL)%Z then true else finished v) true))
        (set_value (set_value σ last (Some (x + x)%Z)) spot None)
  | step_move x k target :
      value σ spot = Some x →
      merge_target σ v x = None →
      first_empty_spot v = Some k →
      sqs !! k = Some target →
      shift_step sqs i spot v σ
        (Locals (Some (k + 1)) (Some target) (merged v) (finished v) true)
        (set_value (set_value σ target (Some x)) spot None)
  | step_keep x :
      value σ spot = Some x →
      merge_target σ v x = None →
      first_empty_spot v = None →
      shift_step sqs i spot v σ
        (Locals None (Some spot) (merged v) (finished v) (made_move v)) σ.

(** What the loop keeps true of its local variables: [first_empty_spot] is
    below the index of the loop, and [last_filled_spot] is a square of the
    line. *)
Definition locals_ok (sqs : list loc) (i : nat) (v : locals) : Prop :=
  (∀ k, first_empty_spot v = Some k → k < i)
  ∧ (∀ l, last_filled_spot v = Some l → l ∈ sqs).

(** *** Concrete grids *)

(** The value of a square that holds the tile [x]. *)
Definition t (x : Z) : option Z := Some x.

(** The row [2, 2, 2, 2] on the squares 0 to 3. *)
Definition heap_2222 : heap := heap_of [t 2; t 2; t 2; t 2].

(** A 4 by 4 grid whose first row is [1024, 1024, None, None] and whose
    second row is [None, 2, None, 4]. *)
Definition heap_goal : heap :=
  heap_of ([t 1024; t 1024; None; None] ++ [None; t 2; None; t 4]
           ++ replicate 8 None).

(** A 4 by 4 grid with the rows [2,2,None,None] twice. *)
Definition heap_pairs : heap :=
  heap_of ([t 2; t 2; None; None] ++ [t 2; t 2; None; None]
           ++ replicate 8 None).

(** A full 4 by 4 grid with no two equal neighbours. *)
Definition heap_full : heap :=
  heap_of ([t 2; t 4; t 2; t 4] ++ [t 4; t 2; t 4; t 2]
           ++ [t 2; t 4; t 2; t 4] ++ [t 4; t 2; t 4; t 2]).

(** The line [2,2,4,8,16] on the squares 0 to 4. *)
Definition heap_long : heap := heap_of [t 2; t 2; t 4; t 8; t 16].

(** *** The merge of a line *)

(** The first two neighbouring tiles of a line that are equal, if there are
    any: the pair that [_shift] merges. *)
Fixpoint first_pair (xs : list Z) : option Z :=
  match xs with
  | x :: xs' =>
      match xs' with
      | y :: _ => if (x =? y)%Z then Some x else first_pair xs'
      | [] => None
      end
  | [] => None
  end.


(** What the loop of [_shift] keeps true at index [i] until it merges: the
    tiles of the squares visited so far stand, in their order, on the
    leading squares of the line; the other visited squares are empty; the
    squares still to visit are as they were; [first_empty_spot] is the
    index behind the tiles and [last_filled_spot] the square of the last
    one; and no two neighbours among these tiles are equal. *)
Definition compacted (σ : heap) (sqs : list loc) (i : nat) (v : locals)
  (τ : heap) : Prop :=
  values τ sqs
  = (Some <$> tiles σ (take i sqs))
    ++ replicate (i - length (tiles σ (take i sqs))) None
    ++ drop i (values σ sqs)
  ∧ first_empty_spot v
    = (if decide (length (tiles σ (take i sqs)) < i)
       then Some (length (tiles σ (take i sqs))) else None)
  ∧ last_filled_spot v
    = match length (tiles σ (take i sqs)) with
      | 0 => None
      | S k => sqs !! k
      end
  ∧ first_pair (tiles σ (take i sqs)) = None.

(** ** What the properties of the rest of the code speak of *)

(** *** Blocked lines *)

(** The tiles of a line come first and the empty squares last. *)
Fixpoint packed (vs : list (option Z)) : bool :=
  match vs with
  | [] => true
  | None :: vs' => forallb (λ v, bool_decide (v = None)) vs'
  | Some _ :: vs' => packed vs'
  end.

(** No two neighbours of a list of tiles are equal. *)
Fixpoint no_equal_neighbours (xs : list Z) : bool :=
  match xs with
  | x :: xs' =>
      match xs' with
      | y :: _ => negb (x =? y)%Z && no_equal_neighbours xs'
      | [] => true
      end
  | [] => true
  end.

(** A line on which nothing can shift and nothing can merge. *)
Definition blocked (vs : list (option Z)) : bool :=
  packed vs && no_equal_neighbours (omap id vs).

(** Reading a line from its leading end while nothing has moved: whether an
    empty square was seen, and the last tile seen; [None] once a tile can
    merge or shift. *)
Definition scan_step (st : option (bool * option Z)) (v : option Z)
  : option (bool * option Z) :=
  match st with
  | None => None
  | Some (seen_empty, last) =>
      match v with
      | None => Some (true, last)
      | Some x =>
          if bool_decide (last = Some x) then None
          else if seen_empty then None
          else Some (false, Some x)
      end
  end.

Definition scan (vs : list (option Z)) : option (bool * option Z) :=
  fold_left scan_step vs (Some (false, None)).

(** *** The weight of a line *)

(** Every tile weighs its distance from the leading end of the line, plus
    one. *)
Fixpoint weight_from (i : nat) (vs : list (option Z)) : nat :=
  match vs with
  | [] => 0
  | v :: vs' => match v with Some _ => S i | None => 0 end + weight_from (S i) vs'
  end.

Definition weight (σ : heap) (sqs : list loc) : nat :=
  weight_from 0 (values σ sqs).

(** The sum of the tiles on a list of squares. *)
Definition sum_tiles (σ : heap) (sqs : list loc) : Z :=
  foldr Z.add 0%Z (tiles σ sqs).

(** Every tile on the squares [sqs] is a power of two from 2 to [limit]. *)
Definition tiles_upto (limit : Z) (σ : heap) (sqs : list loc) : Prop :=
  ∀ l x, l ∈ sqs → value σ l = Some x → tile_ok x ∧ (x ≤ limit)%Z.

(** ** class View *)

Module View.
Import Stdlib.Strings.Ascii Stdlib.Strings.String stdpp.strings stdpp.pretty.

(** What the program does to the terminal: [os.system('cls')] and the text
    written to the standard output. *)
Inductive event := Cls | Write (s : string).

Definition nl : string := String "010"%char "".
Definition esc : string := String "027"%char "".

(** [print(s)] and [print(s, end='')] *)
Definition print (s : string) : list event := [Write (s +:+ nl)].
Definition print_end (s : string) : list event := [Write s].

(** [CHAR_MAP], in the order of the dictionary. *)
Definition CHAR_MAP : list (string * string) :=
  [("q", "quit"); ("a", "left"); ("d", "right"); ("w", "top");
   ("s", "bottom")].

Definition SQUARE_SIZE : Z := 6.

(** [COLORS], keyed by the value of a square. *)
Definition COLORS : list (option Z * string) :=
  [(None, esc +:+ "[40m%s" +:+ esc +:+ "[0m");
   (Some 2, esc +:+ "[41m%s" +:+ esc +:+ "[0m");
   (Some 4, esc +:+ "[42m%s" +:+ esc +:+ "[0m");
   (Some 8, esc +:+ "[43m%s" +:+ esc +:+ "[0m");
   (Some 16, esc +:+ "[44m%s" +:+ esc +:+ "[0m");
   (Some 32, esc +:+ "[45m%s" +:+ esc +:+ "[0m");
   (Some 64, esc +:+ "[46m%s" +:+ esc +:+ "[0m");
   (Some 128, esc +:+ "[41m%s" +:+ esc +:+ "[0m");
   (Some 256, esc +:+ "[42m%s" +:+ esc +:+ "[0m");
   (Some 512, esc +:+ "[43m%s" +:+ esc +:+ "[0m");
   (Some 1024, esc +:+ "[44m%s" +:+ esc +:+ "[0m");
   (Some 2048, esc +:+ "[45m%s" +:+ esc +:+ "[0m")]%Z.

(** [d[k]] for a dictionary [d]: [None] stands for [KeyError]. *)
Fixpoint dict_get {K V : Type} `{EqDecision K} (d : list (K * V)) (k : K)
  : option V :=
  match d with
  | [] => None
  | (k', v) :: d' => if decide (k' = k) then Some v else dict_get d' k
  end.

(** [s * n] for a string [s]; empty when [n] is not positive. *)
Definition str_mul (s : string) (n : Z) : string :=
  Nat.iter (Z.to_nat n) (λ acc, s +:+ acc) "".

(** [fmt % arg] for a format with one conversion [%s]: the text before the
    first [%s], the argument, the text after it; [None] stands for the
    [TypeError] of a format without conversion. *)
Fixpoint format_s (fmt arg : string) : option string :=
  match fmt with
  | "" => None
  | String "%"%char (String "s"%char rest) => Some (arg +:+ rest)
  | String c rest => String c <$> format_s rest arg
  end.

(** The values of a square that [COLORS] has a colour for. *)
Definition shown (v : option Z) : bool :=
  match dict_get COLORS v with Some _ => true | None => false end.

(** The exceptions [parse] lets through. *)
Inductive view_exn := KeyError | TypeError.

(** [_show_keys] *)
Definition _show_keys : list event :=
  flat_map (λ kv, print (kv.1 +:+ ": " +:+ kv.2)) CHAR_MAP
  ++ print (nl +:+ nl).

(** [_clear] *)
Definition _clear : list event := Cls :: _show_keys.

(** The text [value_to_write] of a square. *)
Definition value_to_write (v : option Z) : string :=
  match v with
  | Some x =>
      if (x =? 0)%Z then str_mul " " SQUARE_SIZE
      else
        let white_space_len := (SQUARE_SIZE - Z.of_nat (String.length (pretty x)))%Z in
        let white_space_before := (white_space_len / 2)%Z in
        let white_space_after := (white_space_len - white_space_len / 2)%Z in
        str_mul " " white_space_before +:+ pretty x
        +:+ str_mul " " white_space_after
  | None => str_mul " " SQUARE_SIZE
  end.

(** The body of [for y in x]: what is written for one square, and the
    exception that ends it, if any. *)
Definition parse_square (v : option Z) : list event * option view_exn :=
  match dict_get COLORS v with
  | Some fmt =>
      match format_s fmt (value_to_write v) with
      | Some text => (print_end "|" ++ print_end text, None)
      | None => (print_end "|", Some TypeError)
      end
  | None => (print_end "|", Some KeyError)
  end.

(** [for y in x] *)
Fixpoint parse_squares (vs : list (option Z)) : list event * option view_exn :=
  match vs with
  | [] => ([], None)
  | v :: vs' =>
      match parse_square v with
      | (out, None) =>
          let '(out', e) := parse_squares vs' in (out ++ out', e)
      | (out, Some e) => (out, Some e)
      end
  end.

(** [for x in grid.squares] *)
Fixpoint parse_rows (grid_length : Z) (rows : list (list (option Z)))
  : list event * option view_exn :=
  match rows with
  | [] => ([], None)
  | x :: rows' =>
      match parse_squares x with
      | (out, None) =>
          let '(out', e) := parse_rows grid_length rows' in
          (print (str_mul "-" grid_length) ++ out ++ print "|"
           ++ print (str_mul "-" grid_length) ++ out', e)
      | (out, Some e) => (print (str_mul "-" grid_length) ++ out, Some e)
      end
  end.

(** [parse] *)
Definition parse (grid : Grid) (σ : heap) : list event * option view_exn :=
  let grid_length :=
    (Z.of_nat (length (squares grid)) * SQUARE_SIZE
     + Z.of_nat (length (squares grid)))%Z in
  let '(out, e) := parse_rows grid_length (values σ <$> squares grid) in
  (_clear ++ out, e).

(** [msvcrt.getch().decode("utf-8").lower()] for the byte [b] that [getch]
    returns: a byte below 128 decodes to one character, any other single
    byte is no UTF-8 text and raises [UnicodeDecodeError] ([None]). *)
Definition lower (c : ascii) : ascii :=
  let n := nat_of_ascii c in
  if (65 <=? n) && (n <=? 90) then ascii_of_nat (n + 32) else c.

Definition decode_lower (b : ascii) : option string :=
  if nat_of_ascii b <? 128 then Some (String (lower b) "") else None.

(** [input_char not in self.CHAR_MAP] fails: the action to return. *)
Definition mapped (input_char : option string) : option string :=
  input_char ≫= dict_get CHAR_MAP.

(** The loop of [get_input] on the bytes the keyboard will deliver: the
    action and the bytes left, or [None] when [getch] waits for a key that
    never comes. *)
Fixpoint get_input_loop (input_char : option string) (keys : list ascii)
  : option (string * list ascii) :=
  match mapped input_char with
  | Some action => Some (action, keys)
  | None =>
      match keys with
      | [] => None
      | b :: keys' =>
          get_input_loop
            (match decode_lower b with
             | Some c => Some c
             | None => input_char  (* except UnicodeDecodeError: pass *)
             end) keys'
      end
  end.

Definition get_input (keys : list ascii) : option (string * list ascii) :=
  get_input_loop None keys.

(** The action of one key, if it has one. *)
Definition key_action (b : ascii) : option string :=
  decode_lower b ≫= dict_get CHAR_MAP.

End View.

(** ** class Game *)

Module Game.
Import Stdlib.Strings.Ascii Stdlib.Strings.String.

(** An exception that nothing catches. *)
Inductive uncaught :=
  | GridError (e : exn)
  | ViewError (e : View.view_exn)
  | AttributeError.

(** How a run of the game ends: [break] after [quit]; after the message
    [Game over.]; after the message [Congrats.]; never, when [getch] waits
    for a key that does not come; with an uncaught exception. *)
Inductive ending :=
  | Quit
  | GameOver
  | Congrats
  | AwaitingKey
  | Uncaught (e : uncaught)
  | OutOfFuel.

Definition GRID_WIDTH : nat := 4.
Definition GRID_HEIGHT : nat := 4.

(** [getattr(self._grid, action)] for the names of methods of [Grid] that
    [CHAR_MAP] holds. *)
Definition getattr (name : string) : option (Grid → nat → M unit) :=
  if decide (name = "left"%string) then Some left
  else if decide (name = "right"%string) then Some right
  else if decide (name = "top"%string) then Some top
  else if decide (name = "bottom"%string) then Some bottom
  else None.

(** [_main_loop], on the bytes [keys] the keyboard will deliver; the [n]-th
    action draws [choices n] when it spawns a tile.  Every iteration that
    goes on has read a key, so [fuel] above the number of keys is never
    used up. *)
Fixpoint _main_loop (fuel : nat) (grid : Grid) (choices : nat → nat) (n : nat)
  (keys : list ascii) (σ : heap) : ending * heap * list View.event :=
  match fuel with
  | 0 => (OutOfFuel, σ, [])
  | S fuel' =>
      match View.parse grid σ with
      | (out, Some e) => (Uncaught (ViewError e), σ, out)
      | (out, None) =>
          match View.get_input keys with
          | None => (AwaitingKey, σ, out)
          | Some (action, keys') =>
              if decide (action = "quit"%string) then (Quit, σ, out)
              else
                match getattr action with
                | None => (Uncaught AttributeError, σ, out)
                | Some method =>
                    match method grid (choices n) σ with
                    | (Return _, σ') =>
                        let '(e, σ'', out') :=
                          _main_loop fuel' grid choices (S n) keys' σ' in
                        (e, σ'', out ++ out')
                    | (Raise GameOverException, σ') =>
                        (GameOver, σ', out ++ View.print "Game over."%string)
                    | (Raise GameFinishedException, σ') =>
                        match View.parse grid σ' with
                        | (out', None) =>
                            (Congrats, σ',
                             out ++ out' ++ View.print "Congrats."%string)
                        | (out', Some e) =>
                            (Uncaught (ViewError e), σ', out ++ out')
                        end
                    | (Raise IndexError, σ') =>
                        (Uncaught (GridError IndexError), σ', out)
                    end
                end
          end
      end
  end.

(** [Game()]: the constructor builds the grid and runs the main loop. *)
Definition Game_init (choice1 choice2 : nat) (choices : nat → nat)
  (keys : list ascii) (σ0 : heap) : ending * heap * list View.event :=
  match Grid_init GRID_WIDTH GRID_HEIGHT choice1 choice2 σ0 with
  | (Return grid, σ) => _main_loop (S (List.length keys)) grid choices 0 keys σ
  | (Raise e, σ) => (Uncaught (GridError e), σ, [])
  end.

(** The endings of a game that is quit, won, or left waiting for a key. *)
Definition ends_well (e : ending) : Prop :=
  e = Quit ∨ e = Congrats ∨ e = AwaitingKey.

(** A grid on which no action can shift or merge anything. *)
Definition stuck (grid : Grid) (σ : heap) : Prop :=
  ∀ a, ∃ lines,
    lines_of a grid σ = (Return lines, σ)
    ∧ forallb (λ line, blocked (values σ line)) lines = true.

End Game.

(** ** The monad, unfolded *)

Lemma bind_unfold {A B : Type} (m : M A) (f : A → M B) (σ : heap) :
  (m ≫= f) σ =
  match m σ with
  | (Return a, σ') => f a σ'
  | (Raise e, σ') => (Raise e, σ')
  end.
Proof. reflexivity. Qed.

Lemma bind_Return {A B : Type} (m : M A) (f : A → M B) σ a σ' :
  m σ = (Return a, σ') → (m ≫= f) σ = f a σ'.
Proof. intros H. rewrite bind_unfold, H. reflexivity. Qed.

Lemma bind_Raise {A B : Type} (m : M A) (f : A → M B) σ e σ' :
  m σ = (Raise e, σ') → (m ≫= f) σ = (Raise e, σ').
Proof. intros H. rewrite bind_unfold, H. reflexivity. Qed.

Lemma value_set_value σ l v l' :
  value (set_value σ l v) l' = if Nat.eqb l' l then v else value σ l'.
Proof. reflexivity. Qed.

Lemma value_set_value_eq σ l v : value (set_value σ l v) l = v.
Proof. rewrite value_set_value, Nat.eqb_refl. reflexivity. Qed.

Lemma value_set_value_ne σ l v l' :
  l' ≠ l → value (set_value σ l v) l' = value σ l'.
Proof.
  intros H. rewrite value_set_value.
  destruct (Nat.eqb_spec l' l); [contradiction | reflexivity].
Qed.

Lemma merge_target_Some σ v x last y :
  merge_target σ v x = Some (last, y) →
  last_filled_spot v = Some last ∧ value σ last = Some x ∧ y = x.
Proof.
  unfold merge_target. intros H.
  destruct (last_filled_spot v) as [l|]; [|discriminate].
  destruct (value σ l) as [z|] eqn:Hz; [|discriminate].
  destruct (Z.eqb_spec z x); [|discriminate].
  inversion H; subst. auto.
Qed.

(** [record_first_empty] only touches [first_empty_spot]. *)
Lemma record_first_empty_fields i v :
  last_filled_spot (record_first_empty i v) = last_filled_spot v
  ∧ merged (record_first_empty i v) = merged v
  ∧ finished (record_first_empty i v) = finished v
  ∧ made_move (record_first_empty i v) = made_move v.
Proof. unfold record_first_empty. destruct (first_empty_spot v); auto. Qed.

Ltac rfe_fields :=
  repeat match goal with
  | |- context [last_filled_spot (record_first_empty ?i ?v)] =>
      rewrite (proj1 (record_first_empty_fields i v))
  | |- context [merged (record_first_empty ?i ?v)] =>
      rewrite (proj1 (proj2 (record_first_empty_fields i v)))
  | |- context [finished (record_first_empty ?i ?v)] =>
      rewrite (proj1 (proj2 (proj2 (record_first_empty_fields i v))))
  | |- context [made_move (record_first_empty ?i ?v)] =>
      rewrite (proj2 (proj2 (proj2 (record_first_empty_fields i v))))
  | H : context [last_filled_spot (record_first_empty ?i ?v)] |- _ =>
      rewrite (proj1 (record_first_empty_fields i v)) in H
  | H : context [merged (record_first_empty ?i ?v)] |- _ =>
      rewrite (proj1 (proj2 (record_first_empty_fields i v))) in H
  | H : context [finished (record_first_empty ?i ?v)] |- _ =>
      rewrite (proj1 (proj2 (proj2 (record_first_empty_fields i v)))) in H
  | H : context [made_move (record_first_empty ?i ?v)] |- _ =>
      rewrite (proj2 (proj2 (proj2 (record_first_empty_fields i v)))) in H
  end;
  cbn [first_empty_spot last_filled_spot merged finished made_move] in *.

Lemma locals_ok_record sqs i v :
  locals_ok sqs i v → locals_ok sqs (S i) (record_first_empty i v).
Proof.
  intros [Hfe Hl]. split.
  - unfold record_first_empty. intros k.
    destruct (first_empty_spot v) as [k'|] eqn:E; simpl.
    + rewrite E. intros [= <-]. specialize (Hfe k' eq_refl). lia.
    + intros [= <-]. lia.
  - rfe_fields. exact Hl.
Qed.

(** The loop body never raises: [squares[first_empty_spot]] is in range. *)
Lemma shift_body_step sqs i spot v σ :
  sqs !! i = Some spot →
  locals_ok sqs i v →
  ∃ v' σ', shift_body sqs i spot v σ = (Return v', σ')
           ∧ shift_step sqs i spot v σ v' σ'
           ∧ locals_ok sqs (S i) v'.
Proof.
  intros Hspot Hok. pose proof Hok as [Hfe Hlast].
  assert (spot ∈ sqs) as Hin by (eapply list_elem_of_lookup_2; eauto).
  apply lookup_lt_Some in Hspot as Hi.
  unfold shift_body.
  destruct (value σ spot) as [x|] eqn:Hx.
  - destruct (merge_target σ v x) as [[last y]|] eqn:Hm.
    + apply merge_target_Some in Hm as (Hl & Hv & ->).
      destruct (merged v) eqn:Hmg.
      * eexists _, _. split; [reflexivity|]. split.
        -- eapply step_skip; eauto.
        -- split; [|exact Hlast]. intros k Hk. specialize (Hfe k Hk). lia.
      * eexists _, _. split; [reflexivity|]. rewrite value_set_value_eq, Hl.
        split.
        -- eapply step_merge; eauto.
        -- apply locals_ok_record. split; simpl; [exact Hfe|].
           intros l [= <-]. apply Hlast. exact Hl.
    + destruct (first_empty_spot v) as [k|] eqn:Hk.
      * assert (k < i) as Hki by (apply Hfe; reflexivity).
        destruct (lookup_lt_is_Some_2 sqs k ltac:(lia)) as [target Ht].
        rewrite Ht. eexists _, _. split; [reflexivity|]. split.
        -- eapply step_move; eauto.
        -- split; simpl.
           ++ intros k' [= <-]. lia.
           ++ intros l [= <-]. eapply list_elem_of_lookup_2; eauto.
      * eexists _, _. split; [reflexivity|]. split.
        -- eapply step_keep; eauto.
        -- split; simpl; [intros k' [=]|]. intros l [= <-]. exact Hin.
  - eexists _, _. split; [reflexivity|]. split.
    + apply step_empty. exact Hx.
    + apply locals_ok_record. exact Hok.
Qed.

(** Induction over the loop of [_shift]: a property of the index, the local
    variables and the heap that every step preserves holds when the loop
    ends, and the loop does end with a result. *)
Lemma shift_loop_ind (P : nat → locals → heap → Prop) (sqs : list loc) :
  (∀ i spot v σ v' σ',
      sqs !! i = Some spot → locals_ok sqs i v → P i v σ →
      shift_step sqs i spot v σ v' σ' → P (S i) v' σ') →
  ∀ σ, P 0 locals0 σ →
  ∃ v' σ', shift_locals sqs σ = (Return v', σ')
           ∧ P (length sqs) v' σ' ∧ locals_ok sqs (length sqs) v'.
Proof.
  intros Hstep σ H0. unfold shift_locals.
  assert (∀ rest pre v σ,
            sqs = pre ++ rest → locals_ok sqs (length pre) v →
            P (length pre) v σ →
            ∃ v' σ', shift_loop sqs (length pre) rest v σ = (Return v', σ')
                     ∧ P (length sqs) v' σ'
                     ∧ locals_ok sqs (length sqs) v') as Hgen.
  { clear σ H0. induction rest as [|spot rest IH]; intros pre v σ Hsq Hok HP.
    - exists v, σ. split; [reflexivity|].
      rewrite app_nil_r in Hsq. subst pre. auto.
    - simpl.
      assert (sqs !! length pre = Some spot) as Hspot.
      { rewrite Hsq. rewrite lookup_app_r by lia.
        replace (length pre - length pre) with 0 by lia. reflexivity. }
      destruct (shift_body_step sqs (length pre) spot v σ Hspot Hok)
        as (v1 & σ1 & Hb & Hs & Hok1).
      rewrite (bind_Return _ _ _ _ _ Hb).
      specialize (IH (pre ++ [spot]) v1 σ1).
      rewrite length_app in IH. simpl in IH.
      replace (length pre + 1) with (S (length pre)) in IH by lia.
      apply IH.
      + rewrite Hsq, <- app_assoc. reflexivity.
      + exact Hok1.
      + eapply Hstep; eauto. }
  apply (Hgen sqs [] locals0 σ); [reflexivity| | exact H0].
  split; intros ? [=].
Qed.

Lemma shift_locals_total sqs σ :
  ∃ v' σ', shift_locals sqs σ = (Return v', σ').
Proof.
  destruct (shift_loop_ind (λ _ _ _, True) sqs) with (σ := σ)
    as (v' & σ' & H & _); eauto.
Qed.

Lemma shift_locals_inv (P : nat → locals → heap → Prop) sqs σ v' σ' :
  (∀ i spot v σ v' σ',
      sqs !! i = Some spot → locals_ok sqs i v → P i v σ →
      shift_step sqs i spot v σ v' σ' → P (S i) v' σ') →
  P 0 locals0 σ →
  shift_locals sqs σ = (Return v', σ') →
  P (length sqs) v' σ' ∧ locals_ok sqs (length sqs) v'.
Proof.
  intros Hstep H0 Hrun.
  destruct (shift_loop_ind P sqs Hstep σ H0) as (v1 & σ1 & Hrun1 & HP).
  rewrite Hrun in Hrun1. inversion Hrun1; subst. exact HP.
Qed.

Lemma shift_total sqs σ :
  ∃ v' σ', shift_locals sqs σ = (Return v', σ')
           ∧ _shift sqs σ = (Return (made_move v', finished v'), σ').
Proof.
  destruct (shift_locals_total sqs σ) as (v' & σ' & H).
  exists v', σ'. split; [exact H|].
  unfold _shift. rewrite (bind_Return _ _ _ _ _ H). reflexivity.
Qed.

(** ** Properties of one line *)

(** A line that reports no move was not assigned to, and reports no goal. *)
Lemma shift_locals_unchanged sqs σ v' σ' :
  shift_locals sqs σ = (Return v', σ') →
  made_move v' = false →
  σ' = σ ∧ finished v' = false ∧ merged v' = false.
Proof.
  intros Hrun Hmm.
  pose proof (shift_locals_inv
    (λ _ v τ, (made_move v = false → τ = σ)
              ∧ (finished v = true → made_move v = true)
              ∧ (merged v = true → made_move v = true)) sqs σ v' σ') as H.
  simpl in H. destruct H as ((H1 & H2 & H3) & _); [| |exact Hrun|].
  - intros i spot v τ v1 τ1 _ _ (I1 & I2 & I3) Hs.
    inversion Hs; subst; rfe_fields; repeat split; try discriminate; auto.
  - repeat split; auto; discriminate.
  - split; [auto|]. split.
    + destruct (finished v'); [|reflexivity]. rewrite H2 in Hmm; auto.
    + destruct (merged v'); [|reflexivity]. rewrite H3 in Hmm; auto.
Qed.

(** A line that reports a move ends with an empty square: the merge and the
    shift both end by emptying the square they visit. *)
Lemma shift_locals_leaves_empty sqs σ v' σ' :
  shift_locals sqs σ = (Return v', σ') →
  made_move v' = true →
  ∃ l, l ∈ sqs ∧ value σ' l = None.
Proof.
  intros Hrun.
  apply (shift_locals_inv
    (λ _ v τ, made_move v = true → ∃ l, l ∈ sqs ∧ value τ l = None)
    sqs σ v' σ'); [| discriminate | exact Hrun].
  intros i spot v τ v1 τ1 Hspot _ IH Hs.
  assert (spot ∈ sqs) as Hin by (eapply list_elem_of_lookup_2; eauto).
  inversion Hs; subst; rfe_fields; auto.
  - intros _. exists spot. split; [exact Hin|]. apply value_set_value_eq.
  - intros _. exists spot. split; [exact Hin|]. apply value_set_value_eq.
Qed.

(** [_shift] assigns only to squares of its line, and allocates nothing. *)
Lemma shift_locals_frame sqs σ v' σ' :
  shift_locals sqs σ = (Return v', σ') →
  (∀ l, l ∉ sqs → value σ' l = value σ l) ∧ next_id σ' = next_id σ.
Proof.
  intros Hrun.
  apply (shift_locals_inv
    (λ _ v τ, (∀ l, l ∉ sqs → value τ l = value σ l)
              ∧ next_id τ = next_id σ)
    sqs σ v' σ'); [| | exact Hrun].
  - intros i spot v τ v1 τ1 Hspot [_ Hlast] (I2 & I3) Hs.
    assert (spot ∈ sqs) as Hin by (eapply list_elem_of_lookup_2; eauto).
    inversion Hs; subst; rfe_fields; auto.
    + split; [|exact I3].
      intros l Hl. rewrite !value_set_value_ne; auto.
      * intros ->. apply Hl. apply Hlast. assumption.
      * intros ->. contradiction.
    + assert (target ∈ sqs) as Hint by (eapply list_elem_of_lookup_2; eauto).
      split; [|exact I3].
      intros l Hl. rewrite !value_set_value_ne; auto; intros ->; contradiction.
  - auto.
Qed.

(** The tiles of a line after [_shift]: every value is a value the line (or
    that square) had before, or, for the one merge of the line, twice such a
    value. *)
Lemma shift_locals_provenance sqs σ v' σ' :
  shift_locals sqs σ = (Return v', σ') →
  ∀ l x, value σ' l = Some x →
    value σ l = Some x ∨ line_had σ sqs x
    ∨ ∃ x0, line_had σ sqs x0 ∧ x = (x0 + x0)%Z.
Proof.
  intros Hrun.
  apply (shift_locals_inv
    (λ _ v τ,
       (merged v = false →
        ∀ l x, value τ l = Some x → value σ l = Some x ∨ line_had σ sqs x)
       ∧ (∀ l x, value τ l = Some x →
            value σ l = Some x ∨ line_had σ sqs x
            ∨ ∃ x0, line_had σ sqs x0 ∧ x = (x0 + x0)%Z))
    sqs σ v' σ'); [| | exact Hrun].
  - intros i spot v τ v1 τ1 Hspot [_ Hlast] (IA & IB) Hs.
    assert (spot ∈ sqs) as Hin by (eapply list_elem_of_lookup_2; eauto).
    inversion Hs; subst; rfe_fields; auto.
    + (* merge *)
      split; [discriminate|].
      intros l y. rewrite !value_set_value.
      destruct (Nat.eqb_spec l spot); [discriminate|].
      destruct (Nat.eqb_spec l last) as [->|]; [|apply IB].
      intros [= <-]. right. right. exists x. split; [|reflexivity].
      destruct (IA ltac:(assumption) last x ltac:(assumption)) as [Hσ|Hh];
        [|exact Hh].
      exists last. split; [apply Hlast; assumption | exact Hσ].
    + (* shift *)
      assert (∀ l y, value (set_value (set_value τ target (Some x)) spot None) l
                     = Some y → l = target ∧ y = x ∨ value τ l = Some y) as Hw.
      { intros l y. rewrite !value_set_value.
        destruct (Nat.eqb_spec l spot); [discriminate|].
        destruct (Nat.eqb_spec l target) as [->|]; [|auto].
        intros [= <-]. auto. }
      split.
      * intros Hmg l y Hy. apply Hw in Hy as [[-> ->]|Hy]; [|eapply IA; eauto].
        right. destruct (IA Hmg spot x ltac:(assumption)) as [Hσ|Hh];
          [|exact Hh].
        exists spot. auto.
      * intros l y Hy. apply Hw in Hy as [[-> ->]|Hy]; [|eapply IB; eauto].
        destruct (IB spot x ltac:(assumption)) as [Hσ|Hh]; [|auto].
        right. left. exists spot. auto.
  - split; [intros _|]; intros l x Hx; left; exact Hx.
Qed.

(** ** Properties of [_move]'s loop over the lines *)

Lemma elem_of_concat (l : loc) (lines : list (list loc)) :
  l ∈ concat lines ↔ ∃ line, line ∈ lines ∧ l ∈ line.
Proof.
  induction lines as [|line lines IH]; simpl.
  - split; [intros H; inversion H|intros (? & H & _); inversion H].
  - rewrite elem_of_app, IH. split.
    + intros [H|(line' & H1 & H2)].
      * exists line. split; [apply list_elem_of_here|exact H].
      * exists line'. split; [apply list_elem_of_further; exact H1|exact H2].
    + intros (line' & H1 & H2). apply elem_of_cons in H1 as [->|H1]; eauto.
Qed.

Lemma move_loop_cons line lines fin_all mm_all σ v σ1 :
  shift_locals line σ = (Return v, σ1) →
  move_loop (line :: lines) fin_all mm_all σ
  = move_loop lines (finished v || fin_all) (made_move v || mm_all) σ1.
Proof.
  intros H. simpl. unfold _shift.
  rewrite bind_unfold, bind_unfold, H. reflexivity.
Qed.

(** The loop over the lines always ends with a result. *)
Lemma move_loop_total lines fin_all mm_all σ :
  ∃ fin mm σ', move_loop lines fin_all mm_all σ = (Return (fin, mm), σ').
Proof.
  revert fin_all mm_all σ.
  induction lines as [|line lines IH]; intros fin_all mm_all σ.
  - eexists _, _, _. reflexivity.
  - destruct (shift_locals_total line σ) as (v & σ1 & Hv).
    rewrite (move_loop_cons _ _ _ _ _ _ _ Hv). apply IH.
Qed.

(** When no line reports a move, nothing was assigned and no goal is
    reported. *)
Lemma move_loop_unchanged lines fin_all mm_all σ fin σ' :
  move_loop lines fin_all mm_all σ = (Return (fin, false), σ') →
  σ' = σ ∧ fin = fin_all ∧ mm_all = false.
Proof.
  revert fin_all mm_all σ.
  induction lines as [|line lines IH]; intros fin_all mm_all σ H.
  - inversion H; subst. auto.
  - destruct (shift_locals_total line σ) as (v & σ1 & Hv).
    rewrite (move_loop_cons _ _ _ _ _ _ _ Hv) in H.
    apply IH in H as (-> & -> & Hmm).
    apply orb_false_iff in Hmm as [Hmv ->].
    destruct (shift_locals_unchanged _ _ _ _ Hv Hmv) as (-> & -> & _).
    auto.
Qed.

(** After the loop, either some square of the lines is empty, or nothing was
    assigned and no line reported anything. *)
Lemma move_loop_empty_or_unchanged lines fin_all mm_all σ fin mm σ' :
  move_loop lines fin_all mm_all σ = (Return (fin, mm), σ') →
  (∃ l, l ∈ concat lines ∧ value σ' l = None)
  ∨ (σ' = σ ∧ fin = fin_all ∧ mm = mm_all).
Proof.
  revert fin_all mm_all σ.
  induction lines as [|line lines IH]; intros fin_all mm_all σ H.
  - inversion H; subst. auto.
  - destruct (shift_locals_total line σ) as (v & σ1 & Hv).
    rewrite (move_loop_cons _ _ _ _ _ _ _ Hv) in H.
    apply IH in H as [(l & Hl & Hn)|(-> & -> & ->)].
    + left. exists l. split; [|exact Hn]. simpl. apply elem_of_app. auto.
    + destruct (made_move v) eqn:Hmv.
      * left. destruct (shift_locals_leaves_empty _ _ _ _ Hv Hmv)
          as (l & Hl & Hn).
        exists l. split; [|exact Hn]. simpl. apply elem_of_app. auto.
      * right. destruct (shift_locals_unchanged _ _ _ _ Hv Hmv)
          as (-> & -> & _). auto.
Qed.

(** The loop assigns only to squares of the lines. *)
Lemma move_loop_frame lines fin_all mm_all σ fin mm σ' :
  move_loop lines fin_all mm_all σ = (Return (fin, mm), σ') →
  (∀ l, l ∉ concat lines → value σ' l = value σ l) ∧ next_id σ' = next_id σ.
Proof.
  revert fin_all mm_all σ.
  induction lines as [|line lines IH]; intros fin_all mm_all σ H.
  - inversion H; subst. auto.
  - destruct (shift_locals_total line σ) as (v & σ1 & Hv).
    rewrite (move_loop_cons _ _ _ _ _ _ _ Hv) in H.
    apply IH in H as [H1 H2].
    destruct (shift_locals_frame _ _ _ _ Hv) as [F1 F2].
    split; [|congruence].
    intros l Hl. simpl in Hl. apply not_elem_of_app in Hl as [Hl1 Hl2].
    rewrite H1, F1; auto.
Qed.

(** ** Properties of [_new_square] *)

Lemma elem_of_get_empty_squares self σ l :
  l ∈ _get_empty_squares self σ ↔ l ∈ cells self ∧ value σ l = None.
Proof.
  unfold _get_empty_squares, cells. rewrite list_elem_of_filter. tauto.
Qed.

(** [_new_square] either finds no empty square, raises and assigns nothing,
    or assigns 2 to one empty square of the grid. *)
Lemma new_square_spec self choice σ :
  (_new_square self choice σ = (Raise GameOverException, σ)
   ∧ ∀ l, l ∈ cells self → value σ l ≠ None)
  ∨ (∃ l, l ∈ cells self ∧ value σ l = None
          ∧ _new_square self choice σ
            = (Return tt, set_value σ l (Some 2%Z))).
Proof.
  unfold _new_square.
  destruct (_get_empty_squares self σ) as [|e es] eqn:E.
  - left. split; [reflexivity|]. intros l Hl Hn.
    assert (l ∈ _get_empty_squares self σ) as H
      by (apply elem_of_get_empty_squares; auto).
    rewrite E in H. inversion H.
  - right. set (k := choice mod length (e :: es)).
    assert (k < length (e :: es)) as Hk
      by (apply Nat.mod_upper_bound; simpl; lia).
    assert (nth k (e :: es) e ∈ _get_empty_squares self σ) as Hin
      by (rewrite E; apply nth_elem_of; exact Hk).
    apply elem_of_get_empty_squares in Hin as [Hc Hn].
    exists (nth k (e :: es) e). auto.
Qed.

Lemma new_square_succeeds self choice σ l :
  l ∈ cells self → value σ l = None →
  ∃ l', l' ∈ cells self ∧ value σ l' = None
        ∧ _new_square self choice σ = (Return tt, set_value σ l' (Some 2%Z)).
Proof.
  intros Hl Hn.
  destruct (new_square_spec self choice σ) as [[_ H]|H]; [|exact H].
  exfalso. exact (H l Hl Hn).
Qed.

(** ** Properties of [_get_columns] *)

Lemma append_column_spec columns i spot σ :
  (∃ c, columns !! i = Some c
        ∧ append_column columns i spot σ
          = (Return (<[i := c ++ [spot]]> columns), σ))
  ∨ (length columns ≤ i
     ∧ append_column columns i spot σ = (Raise IndexError, σ)).
Proof.
  unfold append_column. destruct (columns !! i) as [c|] eqn:E.
  - left. exists c. auto.
  - right. split; [apply lookup_ge_None; exact E | reflexivity].
Qed.

Lemma concat_insert_app (columns : list (list loc)) i c spot :
  columns !! i = Some c →
  concat (<[i := c ++ [spot]]> columns) ≡ₚ spot :: concat columns.
Proof.
  revert i. induction columns as [|c0 columns IH]; intros [|i] H;
    try discriminate; simpl in *.
  - inversion H; subst. rewrite <- app_assoc. simpl.
    rewrite <- Permutation_middle. reflexivity.
  - rewrite (IH i H). rewrite Permutation_middle. reflexivity.
Qed.

(** A row that fits in the columns is distributed over them. *)
Lemma columns_of_row_fits columns i row σ :
  i + length row ≤ length columns →
  ∃ columns', columns_of_row columns i row σ = (Return columns', σ)
              ∧ length columns' = length columns
              ∧ concat columns' ≡ₚ concat columns ++ row.
Proof.
  revert columns i. induction row as [|spot row IH]; intros columns i Hlen.
  - exists columns. simpl. rewrite app_nil_r. auto.
  - simpl in *.
    destruct (append_column_spec columns i spot σ) as [(c & Hc & Ha)|[Hge _]];
      [|lia].
    rewrite (bind_Return _ _ _ _ _ Ha).
    destruct (IH (<[i := c ++ [spot]]> columns) (S i)) as (cs & Hr & Hl & Hp).
    { rewrite length_insert. lia. }
    exists cs. split; [exact Hr|]. rewrite length_insert in Hl.
    split; [exact Hl|].
    rewrite Hp, (concat_insert_app _ _ _ _ Hc).
    rewrite <- Permutation_middle. reflexivity.
Qed.

(** A row that does not fit raises [IndexError]. *)
Lemma columns_of_row_overflow columns i row σ :
  i ≤ length columns → length columns < i + length row →
  columns_of_row columns i row σ = (Raise IndexError, σ).
Proof.
  revert columns i. induction row as [|spot row IH]; intros columns i Hi Hlen;
    simpl in *; [lia|].
  destruct (append_column_spec columns i spot σ) as [(c & Hc & Ha)|[Hge Ha]].
  - rewrite (bind_Return _ _ _ _ _ Ha).
    apply lookup_lt_Some in Hc.
    apply IH; rewrite length_insert; lia.
  - rewrite (bind_Raise _ _ _ _ _ Ha). reflexivity.
Qed.

Lemma columns_of_rows_fit columns rows σ :
  Forall (λ row, length row ≤ length columns) rows →
  ∃ columns', columns_of_rows columns rows σ = (Return columns', σ)
              ∧ length columns' = length columns
              ∧ concat columns' ≡ₚ concat columns ++ concat rows.
Proof.
  revert columns. induction rows as [|row rows IH]; intros columns Hall.
  - exists columns. simpl. rewrite app_nil_r. auto.
  - inversion Hall as [|? ? Hrow Hrows]; subst. simpl.
    destruct (columns_of_row_fits columns 0 row σ) as (cs & Hr & Hl & Hp);
      [simpl; lia|].
    rewrite (bind_Return _ _ _ _ _ Hr).
    destruct (IH cs) as (cs' & Hr' & Hl' & Hp').
    { rewrite Hl. exact Hrows. }
    exists cs'. split; [exact Hr'|]. split; [congruence|].
    rewrite Hp', Hp, <- app_assoc. reflexivity.
Qed.

Lemma get_columns_fits width height self σ :
  shaped width height self → height ≤ width →
  ∃ columns, _get_columns self σ = (Return columns, σ)
             ∧ concat columns ≡ₚ cells self.
Proof.
  intros [Hw Hh] Hle. unfold _get_columns, cells.
  destruct (columns_of_rows_fit ((λ _, []) <$> squares self) (squares self) σ)
    as (cs & Hr & _ & Hp).
  { rewrite length_fmap, Hw. eapply Forall_impl; [|exact Hh].
    simpl. intros row ->. exact Hle. }
  exists cs. split; [exact Hr|]. rewrite Hp.
  assert (∀ rows : list (list loc), concat ((λ _, []) <$> rows) = @nil loc)
    as Hnil by (induction rows; simpl; auto).
  rewrite Hnil. reflexivity.
Qed.

Lemma get_columns_overflow width height self σ :
  shaped width height self → 0 < width → width < height →
  _get_columns self σ = (Raise IndexError, σ).
Proof.
  intros [Hw Hh] Hpos Hlt. unfold _get_columns.
  destruct (squares self) as [|row rows] eqn:E; simpl in *; [lia|].
  inversion Hh as [|? ? Hrow _]; subst.
  rewrite (bind_Raise _ _ _ IndexError σ); [reflexivity|].
  apply columns_of_row_overflow; simpl; rewrite ?length_fmap; lia.
Qed.

(** Whatever [_get_columns] returns holds the squares of the grid, and the
    heap is as before. *)
Lemma get_columns_spec self σ o σ' :
  _get_columns self σ = (o, σ') →
  σ' = σ
  ∧ (o = Raise IndexError
     ∨ ∃ columns, o = Return columns ∧ concat columns ≡ₚ cells self).
Proof.
  unfold _get_columns, cells.
  assert (∀ rows columns o σ',
            columns_of_rows columns rows σ = (o, σ') →
            σ' = σ ∧ (o = Raise IndexError
                      ∨ ∃ cs, o = Return cs
                              ∧ concat cs ≡ₚ concat columns ++ concat rows))
    as Hgen.
  { clear. induction rows as [|row rows IH]; intros columns o σ' H.
    - inversion H; subst. split; [reflexivity|]. right.
      exists columns. simpl. rewrite app_nil_r. auto.
    - simpl in H. rewrite bind_unfold in H.
      destruct (le_lt_dec (0 + length row) (length columns)) as [Hle|Hgt].
      + destruct (columns_of_row_fits columns 0 row σ Hle)
          as (cs & Hr & _ & Hp).
        rewrite Hr in H. apply IH in H as [-> [->|(cs' & -> & Hp')]]; auto.
        split; [reflexivity|]. right. exists cs'. split; [reflexivity|].
        rewrite Hp', Hp, <- app_assoc. reflexivity.
      + rewrite (columns_of_row_overflow columns 0 row σ) in H by lia.
        inversion H; subst. auto. }
  intros H. apply Hgen in H as [-> [->|(cs & -> & Hp)]]; auto.
  split; [reflexivity|]. right. exists cs. split; [reflexivity|].
  rewrite Hp.
  assert (∀ rows : list (list loc), concat ((λ _, []) <$> rows) = @nil loc)
    as Hnil by (induction rows; simpl; auto).
  rewrite Hnil. reflexivity.
Qed.

Lemma apply_action_lines a self choice σ :
  apply_action a self choice σ
  = (lines ← lines_of a self; _move self lines choice) σ.
Proof.
  destruct a; try reflexivity.
  simpl. unfold bottom. rewrite !bind_unfold.
  destruct (_get_columns self σ) as [[columns|e] σ']; reflexivity.
Qed.

Lemma concat_fmap_reverse (lines : list (list loc)) :
  concat (reverse <$> lines) ≡ₚ concat lines.
Proof.
  induction lines as [|line lines IH]; simpl; [reflexivity|].
  rewrite IH, reverse_Permutation. reflexivity.
Qed.

(** The lines of a move hold exactly the squares of the grid; building them
    assigns nothing, and fails only with [IndexError]. *)
Lemma lines_of_spec a self σ o σ' :
  lines_of a self σ = (o, σ') →
  σ' = σ
  ∧ (o = Raise IndexError
     ∨ ∃ lines, o = Return lines ∧ concat lines ≡ₚ cells self).
Proof.
  destruct a; simpl.
  - intros [= <- <-]. split; [reflexivity|]. right. eexists. split; reflexivity.
  - intros [= <- <-]. split; [reflexivity|]. right. eexists.
    split; [reflexivity|]. apply concat_fmap_reverse.
  - apply get_columns_spec.
  - rewrite bind_unfold.
    destruct (_get_columns self σ) as [[columns|e] σ1] eqn:E;
      apply get_columns_spec in E as [-> [?|(cs & ? & Hp)]];
      try discriminate; intros [= <- <-]; subst; auto.
    split; [reflexivity|]. right. eexists. split; [reflexivity|].
    inversion H; subst. rewrite concat_fmap_reverse. exact Hp.
Qed.

(** An action either fails to build its columns, or runs [_move] on lines
    that hold exactly the squares of the grid. *)
Lemma apply_action_cases a self choice σ :
  (lines_of a self σ = (Raise IndexError, σ)
   ∧ apply_action a self choice σ = (Raise IndexError, σ))
  ∨ (∃ lines, lines_of a self σ = (Return lines, σ)
              ∧ concat lines ≡ₚ cells self
              ∧ apply_action a self choice σ = _move self lines choice σ).
Proof.
  rewrite apply_action_lines, bind_unfold.
  destruct (lines_of a self σ) as [o σ0] eqn:Hl.
  destruct (lines_of_spec _ _ _ _ _ Hl) as [-> [->|(lines & -> & Hp)]].
  - left. auto.
  - right. exists lines. auto.
Qed.

(** ** What [_move] does *)

(** [_move] runs its loop to the end; then it raises
    [GameFinishedException] when a line reported the goal, or spawns a tile
    on an empty square when a line reported a move, or returns with the heap
    it was given. *)
Lemma move_spec self lines choice σ :
  (∀ l, l ∈ concat lines → l ∈ cells self) →
  ∃ fin mm σ1,
    move_loop lines false false σ = (Return (fin, mm), σ1)
    ∧ ((fin = true ∧ _move self lines choice σ
                     = (Raise GameFinishedException, σ1))
       ∨ (fin = false ∧ mm = true
          ∧ ∃ l, l ∈ cells self ∧ value σ1 l = None
                 ∧ _move self lines choice σ
                   = (Return tt, set_value σ1 l (Some 2%Z)))
       ∨ (fin = false ∧ mm = false ∧ σ1 = σ
          ∧ _move self lines choice σ = (Return tt, σ))).
Proof.
  intros Hsub.
  destruct (move_loop_total lines false false σ) as (fin & mm & σ1 & Hloop).
  exists fin, mm, σ1. split; [exact Hloop|].
  unfold _move. rewrite (bind_Return _ _ _ _ _ Hloop).
  destruct fin; [left; auto|right].
  destruct mm.
  - left. split; [reflexivity|]. split; [reflexivity|].
    destruct (move_loop_empty_or_unchanged _ _ _ _ _ _ _ Hloop)
      as [(l & Hl & Hn)|(_ & _ & [=])].
    destruct (new_square_succeeds self choice σ1 l (Hsub l Hl) Hn)
      as (l' & Hl' & Hn' & Hnew).
    exists l'. auto.
  - right. destruct (move_loop_unchanged _ _ _ _ _ _ Hloop) as (-> & _ & _).
    auto.
Qed.

(** ** Construction *)

Lemma init_row_spec height row σ :
  ∃ σ', init_row height row σ
        = (Return (row ++ seq (next_id σ) height), σ')
        ∧ next_id σ' = next_id σ + height
        ∧ (∀ l, next_id σ ≤ l < next_id σ + height → value σ' l = None)
        ∧ (∀ l, l < next_id σ → value σ' l = value σ l).
Proof.
  revert row σ. induction height as [|h IH]; intros row σ.
  - exists σ. simpl. rewrite app_nil_r. repeat split; auto. intros l Hl. lia.
  - simpl. rewrite bind_unfold. unfold Square at 1.
    set (σ1 := Heap (S (next_id σ))
                 (λ l', if Nat.eqb l' (next_id σ) then None else value σ l')).
    destruct (IH (row ++ [next_id σ]) σ1) as (σ' & Hr & Hn & Hv & Hf).
    exists σ'. rewrite Hr, <- app_assoc. simpl in *.
    split; [reflexivity|]. split; [lia|]. split.
    + intros l Hl. destruct (decide (l = next_id σ)) as [->|Hne].
      * rewrite Hf by lia. rewrite Nat.eqb_refl. reflexivity.
      * apply Hv. lia.
    + intros l Hl. rewrite Hf by lia.
      destruct (Nat.eqb_spec l (next_id σ)); [lia|reflexivity].
Qed.

Lemma init_rows_spec width height sqs σ :
  ∃ rows σ', init_rows width height sqs σ = (Return (sqs ++ rows), σ')
        ∧ length rows = width
        ∧ Forall (λ row, length row = height) rows
        ∧ concat rows = seq (next_id σ) (width * height)
        ∧ next_id σ' = next_id σ + width * height
        ∧ (∀ l, next_id σ ≤ l < next_id σ + width * height →
                value σ' l = None)
        ∧ (∀ l, l < next_id σ → value σ' l = value σ l).
Proof.
  revert sqs σ. induction width as [|w IH]; intros sqs σ.
  - exists [], σ. simpl. rewrite app_nil_r. repeat split; auto.
    intros l Hl. lia.
  - simpl. rewrite bind_unfold.
    destruct (init_row_spec height [] σ) as (σ1 & Hr & Hn1 & Hv1 & Hf1).
    rewrite Hr. cbn [app].
    destruct (IH (sqs ++ [seq (next_id σ) height]) σ1)
      as (rows & σ' & Hrs & Hlen & Hall & Hcat & Hn & Hv & Hf).
    exists (seq (next_id σ) height :: rows), σ'.
    rewrite <- app_assoc in Hrs. simpl.
    split; [exact Hrs|]. split; [lia|]. split.
    { constructor; [apply length_seq|exact Hall]. }
    split.
    { rewrite Hcat, Hn1, <- seq_app. reflexivity. }
    split; [lia|]. split.
    + intros l Hl. destruct (le_lt_dec (next_id σ1) l).
      * apply Hv. lia.
      * rewrite Hf by lia. apply Hv1. lia.
    + intros l Hl. rewrite Hf by lia. apply Hf1. lia.
Qed.

(** [_init_squares] builds [width] rows of [height] new squares, all
    distinct and all empty. *)
Lemma init_squares_spec width height σ :
  ∃ sqs σ', _init_squares width height σ = (Return sqs, σ')
        ∧ length sqs = width
        ∧ Forall (λ row, length row = height) sqs
        ∧ concat sqs = seq (next_id σ) (width * height)
        ∧ (∀ l, l ∈ concat sqs → value σ' l = None).
Proof.
  unfold _init_squares.
  destruct (init_rows_spec width height [] σ)
    as (rows & σ' & Hr & Hlen & Hall & Hcat & _ & Hv & _).
  exists rows, σ'. simpl in Hr. repeat split; auto.
  intros l Hl. rewrite Hcat in Hl. apply elem_of_seq in Hl. apply Hv. lia.
Qed.

Lemma Grid_init_unfold width height choice1 choice2 σ sqs σ1 :
  _init_squares width height σ = (Return sqs, σ1) →
  Grid_init width height choice1 choice2 σ
  = (let self := {| _width := width; _height := height; squares := sqs |} in
     match _new_square self choice1 σ1 with
     | (Return _, σ2) =>
         match _new_square self choice2 σ2 with
         | (Return _, σ3) => (Return self, σ3)
         | (Raise e, σ3) => (Raise e, σ3)
         end
     | (Raise e, σ2) => (Raise e, σ2)
     end).
Proof.
  intros H. unfold Grid_init. rewrite (bind_Return _ _ _ _ _ H).
  simpl. rewrite !bind_unfold.
  destruct (_new_square _ choice1 σ1) as [[[]|e] σ2]; [|reflexivity].
  rewrite !bind_unfold.
  destruct (_new_square _ choice2 σ2) as [[[]|e] σ3]; reflexivity.
Qed.

(** What a constructed grid looks like: the two spawns assigned 2 to two
    different squares, and every other square is empty. *)
Lemma Grid_init_Return width height choice1 choice2 σ0 self σ :
  Grid_init width height choice1 choice2 σ0 = (Return self, σ) →
  shaped width height self
  ∧ _width self = width ∧ _height self = height
  ∧ cells self = seq (next_id σ0) (width * height)
  ∧ ∃ l1 l2, l1 ∈ cells self ∧ l2 ∈ cells self ∧ l1 ≠ l2
             ∧ value σ l1 = Some 2%Z ∧ value σ l2 = Some 2%Z
             ∧ ∀ l, l ∈ cells self → l ≠ l1 → l ≠ l2 → value σ l = None.
Proof.
  destruct (init_squares_spec width height σ0)
    as (sqs & σ1 & Hi & Hlen & Hall & Hcat & Hv).
  rewrite (Grid_init_unfold _ _ _ _ _ _ _ Hi). cbv zeta.
  set (self0 := {| _width := width; _height := height; squares := sqs |}).
  destruct (new_square_spec self0 choice1 σ1)
    as [[H1 _]|(l1 & Hl1 & Hn1 & H1)]; rewrite H1; [discriminate|].
  destruct (new_square_spec self0 choice2 (set_value σ1 l1 (Some 2%Z)))
    as [[H2 _]|(l2 & Hl2 & Hn2 & H2)]; rewrite H2; [discriminate|].
  intros [= <- <-].
  assert (l2 ≠ l1) as Hne.
  { intros ->. rewrite value_set_value_eq in Hn2. discriminate. }
  split; [split; assumption|]. split; [reflexivity|]. split; [reflexivity|].
  split; [exact Hcat|].
  exists l1, l2. split; [exact Hl1|]. split; [exact Hl2|].
  split; [auto|]. split.
  { rewrite value_set_value_ne by auto. apply value_set_value_eq. }
  split; [apply value_set_value_eq|].
  intros l Hl Hne1 Hne2. rewrite !value_set_value_ne by auto.
  apply Hv. exact Hl.
Qed.

(** Construction succeeds as soon as the grid has two squares. *)
Lemma Grid_init_succeeds width height choice1 choice2 σ0 :
  2 ≤ width * height →
  ∃ self σ, Grid_init width height choice1 choice2 σ0 = (Return self, σ).
Proof.
  intros Hge.
  destruct (init_squares_spec width height σ0)
    as (sqs & σ1 & Hi & Hlen & Hall & Hcat & Hv).
  rewrite (Grid_init_unfold _ _ _ _ _ _ _ Hi). cbv zeta.
  set (self0 := {| _width := width; _height := height; squares := sqs |}).
  assert (∀ l, l ∈ cells self0 ↔ next_id σ0 ≤ l < next_id σ0 + width * height)
    as Hcells.
  { intros l. unfold cells. simpl. rewrite Hcat. apply elem_of_seq. }
  destruct (new_square_succeeds self0 choice1 σ1 (next_id σ0))
    as (l1 & Hl1 & Hn1 & H1).
  { apply Hcells. lia. }
  { apply Hv. apply Hcells. lia. }
  rewrite H1.
  set (l := if decide (l1 = next_id σ0) then S (next_id σ0) else next_id σ0).
  assert (l ∈ cells self0 ∧ l ≠ l1) as [Hl Hne].
  { unfold l. case_decide; (split; [apply Hcells|]); lia. }
  destruct (new_square_succeeds self0 choice2 (set_value σ1 l1 (Some 2%Z)) l)
    as (l2 & Hl2 & Hn2 & H2); [exact Hl| |].
  { rewrite value_set_value_ne by auto. apply Hv. exact Hl. }
  rewrite H2. eauto.
Qed.

(** ** Counting tiles *)

Lemma tiles_cons σ a (sqs : list loc) :
  tiles σ (a :: sqs)
  = match value σ a with Some y => y :: tiles σ sqs | None => tiles σ sqs end.
Proof. reflexivity. Qed.

Lemma count_tiles_cons σ a (sqs : list loc) :
  count_tiles σ (a :: sqs)
  = match value σ a with Some _ => 1 | None => 0 end + count_tiles σ sqs.
Proof.
  unfold count_tiles. rewrite tiles_cons. destruct (value σ a); reflexivity.
Qed.

Lemma tiles_ext σ τ (sqs : list loc) :
  (∀ l, l ∈ sqs → value σ l = value τ l) → tiles σ sqs = tiles τ sqs.
Proof.
  induction sqs as [|a sqs IH]; intros H; [reflexivity|].
  rewrite !tiles_cons, (H a) by apply list_elem_of_here.
  rewrite IH; [reflexivity|].
  intros l Hl. apply H. apply list_elem_of_further. exact Hl.
Qed.

Lemma count_tiles_ext σ τ (sqs : list loc) :
  (∀ l, l ∈ sqs → value σ l = value τ l) →
  count_tiles σ sqs = count_tiles τ sqs.
Proof. intros H. unfold count_tiles. rewrite (tiles_ext σ τ); auto. Qed.

Lemma count_tiles_app σ (l1 l2 : list loc) :
  count_tiles σ (l1 ++ l2) = count_tiles σ l1 + count_tiles σ l2.
Proof. unfold count_tiles, tiles. rewrite omap_app, length_app. reflexivity. Qed.

Lemma count_tiles_perm σ (l1 l2 : list loc) :
  l1 ≡ₚ l2 → count_tiles σ l1 = count_tiles σ l2.
Proof. intros H. unfold count_tiles, tiles. rewrite H. reflexivity. Qed.

Lemma count_tiles_empty σ (sqs : list loc) :
  (∀ l, l ∈ sqs → value σ l = None) → count_tiles σ sqs = 0.
Proof.
  induction sqs as [|a sqs IH]; intros H; [reflexivity|].
  rewrite count_tiles_cons, (H a) by apply list_elem_of_here.
  apply IH. intros l Hl. apply H. apply list_elem_of_further. exact Hl.
Qed.

(** Assigning a tile to an empty square of a list without repetition adds
    one tile. *)
Lemma count_tiles_spawn σ (sqs : list loc) l x :
  NoDup sqs → l ∈ sqs → value σ l = None →
  count_tiles (set_value σ l (Some x)) sqs = S (count_tiles σ sqs).
Proof.
  intros Hnd. induction Hnd as [|a sqs Ha Hnd IH]; intros Hl Hn.
  - inversion Hl.
  - rewrite !count_tiles_cons.
    destruct (decide (l = a)) as [->|Hne].
    + rewrite value_set_value_eq, Hn. simpl. f_equal.
      apply count_tiles_ext. intros l Hl'. apply value_set_value_ne.
      intros ->. contradiction.
    + rewrite value_set_value_ne by auto.
      apply elem_of_cons in Hl as [?|Hl]; [contradiction|].
      rewrite (IH Hl Hn). lia.
Qed.

(** A constructed grid has two tiles. *)
Lemma Grid_init_count width height choice1 choice2 σ0 self σ :
  Grid_init width height choice1 choice2 σ0 = (Return self, σ) →
  NoDup (cells self) ∧ count_tiles σ (cells self) = 2.
Proof.
  intros H. pose proof (Grid_init_Return _ _ _ _ _ _ _ H)
    as (_ & _ & _ & Hc & l1 & l2 & Hl1 & Hl2 & Hne & Hv1 & Hv2 & Hv).
  assert (NoDup (cells self)) as Hnd by (rewrite Hc; apply NoDup_seq).
  split; [exact Hnd|].
  set (σa := set_value (set_value σ l1 None) l2 None).
  assert (count_tiles σa (cells self) = 0) as H0.
  { apply count_tiles_empty. intros l Hl. unfold σa.
    rewrite !value_set_value.
    destruct (Nat.eqb_spec l l2); [reflexivity|].
    destruct (Nat.eqb_spec l l1); [reflexivity|]. apply Hv; auto. }
  set (σb := set_value σa l1 (Some 2%Z)).
  assert (count_tiles σb (cells self) = 1) as H1.
  { unfold σb. rewrite count_tiles_spawn, H0; auto.
    unfold σa. rewrite value_set_value_ne by auto.
    apply value_set_value_eq. }
  rewrite (count_tiles_ext σ (set_value σb l2 (Some 2%Z))).
  - rewrite count_tiles_spawn, H1; auto.
    unfold σb. rewrite value_set_value_ne by auto. unfold σa.
    apply value_set_value_eq.
  - intros l _. unfold σb, σa. rewrite !value_set_value.
    destruct (Nat.eqb_spec l l2) as [->|]; [exact Hv2|].
    destruct (Nat.eqb_spec l l1) as [->|]; [exact Hv1|].
    reflexivity.
Qed.

(** ** Column moves and the shape of the grid *)

Lemma top_overflow width height self choice σ :
  shaped width height self → 0 < width → width < height →
  top self choice σ = (Raise IndexError, σ)
  ∧ bottom self choice σ = (Raise IndexError, σ).
Proof.
  intros Hs Hpos Hlt. unfold top, bottom.
  rewrite !(bind_Raise _ _ _ IndexError σ);
    eauto using get_columns_overflow.
Qed.

Lemma move_no_IndexError self lines choice σ :
  (∀ l, l ∈ concat lines → l ∈ cells self) →
  (_move self lines choice σ).1 ≠ Raise IndexError.
Proof.
  intros Hsub.
  destruct (move_spec self lines choice σ Hsub) as (fin & mm & σ1 & _ & Hm).
  destruct Hm as [[_ ->]|[(_ & _ & l & _ & _ & ->)|(_ & _ & _ & ->)]];
    discriminate.
Qed.

Lemma top_fits width height self choice σ :
  shaped width height self → height ≤ width →
  (top self choice σ).1 ≠ Raise IndexError
  ∧ (bottom self choice σ).1 ≠ Raise IndexError.
Proof.
  intros Hs Hle.
  destruct (get_columns_fits width height self σ Hs Hle)
    as (columns & Hc & Hp).
  unfold top, bottom. rewrite !(bind_Return _ _ _ _ _ Hc). split.
  - apply move_no_IndexError. intros l Hl. rewrite <- Hp. exact Hl.
  - apply move_no_IndexError. intros l Hl.
    rewrite concat_fmap_reverse in Hl. rewrite <- Hp. exact Hl.
Qed.

(** ** Powers of two *)

Lemma tile_ok_2 : tile_ok 2.
Proof. exists 1. split; [lia|reflexivity]. Qed.

Lemma tile_ok_double x : tile_ok x → tile_ok (x + x).
Proof.
  intros (k & Hk & ->). exists (S k). split; [lia|].
  rewrite Nat2Z.inj_succ, Z.pow_succ_r by lia. lia.
Qed.

Lemma shift_locals_tiles_ok self sqs σ v σ' :
  (∀ l, l ∈ sqs → l ∈ cells self) →
  tiles_ok self σ →
  shift_locals sqs σ = (Return v, σ') →
  tiles_ok self σ'.
Proof.
  intros Hsub Hok Hrun l x Hl Hx.
  destruct (shift_locals_provenance _ _ _ _ Hrun l x Hx)
    as [H|[(l0 & Hl0 & H)|(x0 & (l0 & Hl0 & H) & ->)]].
  - exact (Hok l x Hl H).
  - exact (Hok l0 x (Hsub l0 Hl0) H).
  - apply tile_ok_double. exact (Hok l0 x0 (Hsub l0 Hl0) H).
Qed.

Lemma move_loop_tiles_ok self lines fin_all mm_all σ fin mm σ' :
  (∀ l, l ∈ concat lines → l ∈ cells self) →
  tiles_ok self σ →
  move_loop lines fin_all mm_all σ = (Return (fin, mm), σ') →
  tiles_ok self σ'.
Proof.
  revert fin_all mm_all σ.
  induction lines as [|line lines IH]; intros fin_all mm_all σ Hsub Hok H.
  - inversion H; subst. exact Hok.
  - destruct (shift_locals_total line σ) as (v & σ1 & Hv).
    rewrite (move_loop_cons _ _ _ _ _ _ _ Hv) in H.
    eapply IH; [| |exact H].
    + intros l Hl. apply Hsub. simpl. apply elem_of_app. auto.
    + eapply shift_locals_tiles_ok; [|exact Hok|exact Hv].
      intros l Hl. apply Hsub. simpl. apply elem_of_app. auto.
Qed.

Lemma tiles_ok_spawn self σ l :
  tiles_ok self σ → tiles_ok self (set_value σ l (Some 2%Z)).
Proof.
  intros Hok l' x Hl'. rewrite value_set_value.
  destruct (Nat.eqb_spec l' l).
  - intros [= <-]. apply tile_ok_2.
  - apply Hok. exact Hl'.
Qed.

(** Every action keeps the tiles powers of two, however it ends. *)
Lemma apply_action_tiles_ok a self choice σ o σ' :
  tiles_ok self σ →
  apply_action a self choice σ = (o, σ') →
  tiles_ok self σ'.
Proof.
  intros Hok.
  destruct (apply_action_cases a self choice σ)
    as [[_ ->]|(lines & _ & Hp & ->)]; [intros [= <- <-]; exact Hok|].
  assert (∀ l, l ∈ concat lines → l ∈ cells self) as Hsub.
  { intros l Hl. rewrite <- Hp. exact Hl. }
  destruct (move_spec self lines choice σ Hsub)
    as (fin & mm & σ1 & Hloop & Hm).
  pose proof (move_loop_tiles_ok _ _ _ _ _ _ _ _ Hsub Hok Hloop) as Hok1.
  destruct Hm as [[_ ->]|[(_ & _ & l & _ & _ & ->)|(_ & _ & _ & ->)]];
    intros [= <- <-]; auto using tiles_ok_spawn.
Qed.

(** ** Lines of at most four squares, case by case *)

Lemma shift_loop_cons sqs i spot rest v σ :
  shift_loop sqs i (spot :: rest) v σ
  = match shift_body sqs i spot v σ with
    | (Return v', σ') => shift_loop sqs (S i) rest v' σ'
    | (Raise e, σ') => (Raise e, σ')
    end.
Proof. reflexivity. Qed.

Lemma shift_loop_nil sqs i v σ : shift_loop sqs i [] v σ = (Return v, σ).
Proof. reflexivity. Qed.

Lemma count_tiles_nil σ : count_tiles σ [] = 0.
Proof. reflexivity. Qed.

Lemma eqb_ne (x y : nat) : x ≠ y → Nat.eqb x y = false ∧ Nat.eqb y x = false.
Proof. intros H. split; apply Nat.eqb_neq; auto. Qed.

(** The squares of a line without repetition are pairwise different. *)
Ltac distinct_squares :=
  repeat match goal with
  | H : NoDup (_ :: _) |- _ => apply list.NoDup_cons in H as [? H]
  | H : _ ∉ _ :: _ |- _ => apply not_elem_of_cons in H as [? H]
  end;
  repeat match goal with
  | H : ?x ≠ ?y |- _ => apply eqb_ne in H as [? ?]
  end.

(** Reading the heap after assignments to known squares. *)
Ltac read_heap :=
  repeat first
    [ rewrite value_set_value
    | rewrite Nat.eqb_refl
    | match goal with
      | H : Nat.eqb ?x ?y = false |- context [Nat.eqb ?x ?y] => rewrite H
      | H : value ?σ ?l = _ |- context [value ?σ ?l] => rewrite H
      end ].

(** One iteration of the loop of [_shift] on known squares: comparisons of
    known values are computed, the others are decided both ways. *)
Ltac shift_iteration :=
  rewrite shift_loop_cons; unfold shift_body, merge_target;
  repeat (read_heap;
          cbn [first_empty_spot last_filled_spot merged finished made_move
               record_first_empty lookup list_lookup Nat.add];
          repeat match goal with
          | |- context [(?x =? ?y)%Z] =>
              let r := eval vm_compute in (x =? y)%Z in
              lazymatch r with
              | true => change (x =? y)%Z with true
              | false => change (x =? y)%Z with false
              | _ => first [ is_var x; is_var y;
                             destruct (Z.eqb_spec x y); subst
                           | destruct (x =? y)%Z ]
              end
          end).

(** The whole loop on a line of known squares. *)
Ltac shift_run :=
  unfold shift_locals, locals0; repeat shift_iteration;
  rewrite shift_loop_nil;
  eexists _, _; (split; [reflexivity|]);
  cbn [first_empty_spot last_filled_spot merged finished made_move].

Ltac shift_count :=
  shift_run; rewrite ?count_tiles_cons, ?count_tiles_nil; read_heap;
  reflexivity.

(** On a line of at most four distinct squares a merge removes one tile and
    nothing else changes the number of tiles. *)
Lemma shift_locals_count sqs σ :
  NoDup sqs → length sqs ≤ 4 →
  ∃ v' σ', shift_locals sqs σ = (Return v', σ')
    ∧ count_tiles σ' sqs + (if merged v' then 1 else 0) = count_tiles σ sqs.
Proof.
  intros Hnd Hlen.
  destruct sqs as [|a [|b [|c [|d [|e sqs]]]]]; [| | | | |simpl in Hlen; lia];
    clear Hlen; distinct_squares.
  - shift_count.
  - destruct (value σ a) eqn:Ha; shift_count.
  - destruct (value σ a) eqn:Ha; destruct (value σ b) eqn:Hb; shift_count.
  - destruct (value σ a) eqn:Ha; destruct (value σ b) eqn:Hb;
      destruct (value σ c) eqn:Hc; shift_count.
  - destruct (value σ a) eqn:Ha; destruct (value σ b) eqn:Hb;
      destruct (value σ c) eqn:Hc; destruct (value σ d) eqn:Hd; shift_count.
Qed.

(** The line [2,2,2,2]: one merge, and the last tile stays where it is. *)
Lemma shift_locals_2222 a b c d σ :
  NoDup [a; b; c; d] →
  values σ [a; b; c; d] = [t 2; t 2; t 2; t 2] →
  ∃ v' σ', shift_locals [a; b; c; d] σ = (Return v', σ')
    ∧ made_move v' = true ∧ finished v' = false
    ∧ values σ' [a; b; c; d] = [t 4; t 2; None; t 2].
Proof.
  intros Hnd [= Ha Hb Hc Hd]. unfold t in *. distinct_squares.
  shift_run. repeat split. unfold values. cbn [fmap list_fmap]. read_heap.
  reflexivity.
Qed.

(** The line [1024,1024,None,None]: one merge, into the goal value. *)
Lemma shift_locals_goal a b c d σ :
  NoDup [a; b; c; d] →
  values σ [a; b; c; d] = [t 1024; t 1024; None; None] →
  ∃ v' σ', shift_locals [a; b; c; d] σ = (Return v', σ')
    ∧ made_move v' = true ∧ finished v' = true
    ∧ values σ' [a; b; c; d] = [t 2048; None; None; None].
Proof.
  intros Hnd [= Ha Hb Hc Hd]. unfold t in *. distinct_squares.
  shift_run. repeat split. unfold values. cbn [fmap list_fmap]. read_heap.
  reflexivity.
Qed.

(** ** Counting the merges of a move *)

Lemma merges_le lines σ : merges lines σ ≤ length lines.
Proof.
  revert σ. induction lines as [|line lines IH]; intros σ; simpl; [lia|].
  destruct (shift_locals line σ) as [[v|e] σ']; [|lia].
  specialize (IH σ'). destruct (merged v); lia.
Qed.

Lemma move_loop_count lines fin_all mm_all σ fin mm σ' :
  NoDup (concat lines) →
  Forall (λ line, length line ≤ 4) lines →
  move_loop lines fin_all mm_all σ = (Return (fin, mm), σ') →
  count_tiles σ' (concat lines) + merges lines σ
  = count_tiles σ (concat lines).
Proof.
  revert fin_all mm_all σ.
  induction lines as [|line lines IH]; intros fin_all mm_all σ Hnd Hall H.
  - inversion H; subst. reflexivity.
  - simpl in Hnd. apply list.NoDup_app in Hnd as (Hnd1 & Hdisj & Hnd2).
    inversion Hall as [|? ? Hlen Hall']; subst.
    destruct (shift_locals_count line σ Hnd1 Hlen) as (v & σ1 & Hv & Hc).
    rewrite (move_loop_cons _ _ _ _ _ _ _ Hv) in H.
    pose proof (IH _ _ _ Hnd2 Hall' H) as Hrest.
    destruct (move_loop_frame _ _ _ _ _ _ _ H) as [Hf _].
    destruct (shift_locals_frame _ _ _ _ Hv) as [Hf1 _].
    cbn [merges concat]. rewrite Hv, !count_tiles_app.
    rewrite (count_tiles_ext σ' σ1 line)
      by (intros l Hl; apply Hf; apply Hdisj; exact Hl).
    rewrite <- (count_tiles_ext σ1 σ (concat lines)) in *.
    + lia.
    + intros l Hl. apply Hf1. intros Hl'. exact (Hdisj l Hl' Hl).
Qed.

(** ** More on the loop over the lines *)

Lemma values_ext σ τ (sqs : list loc) :
  (∀ l, l ∈ sqs → value σ l = value τ l) → values σ sqs = values τ sqs.
Proof.
  unfold values. induction sqs as [|a sqs IH]; intros H; [reflexivity|].
  cbn [fmap list_fmap]. f_equal.
  - apply H. apply list_elem_of_here.
  - apply IH. intros l Hl. apply H. apply list_elem_of_further. exact Hl.
Qed.

Lemma move_loop_app lines1 lines2 fin_all mm_all σ fin1 mm1 σ1 :
  move_loop lines1 fin_all mm_all σ = (Return (fin1, mm1), σ1) →
  move_loop (lines1 ++ lines2) fin_all mm_all σ
  = move_loop lines2 fin1 mm1 σ1.
Proof.
  revert fin_all mm_all σ.
  induction lines1 as [|line lines1 IH]; intros fin_all mm_all σ H.
  - inversion H; subst. reflexivity.
  - destruct (shift_locals_total line σ) as (v & σ' & Hv).
    rewrite <- app_comm_cons, (move_loop_cons _ _ _ _ _ _ _ Hv).
    rewrite (move_loop_cons _ _ _ _ _ _ _ Hv) in H.
    apply IH. exact H.
Qed.

(** Once a line has reported the goal, the loop reports it. *)
Lemma move_loop_finished lines mm_all σ fin mm σ' :
  move_loop lines true mm_all σ = (Return (fin, mm), σ') → fin = true.
Proof.
  revert mm_all σ.
  induction lines as [|line lines IH]; intros mm_all σ H.
  - inversion H; subst. reflexivity.
  - destruct (shift_locals_total line σ) as (v & σ1 & Hv).
    rewrite (move_loop_cons _ _ _ _ _ _ _ Hv), orb_true_r in H.
    eapply IH. exact H.
Qed.

Lemma shift_of_locals sqs σ v σ' :
  shift_locals sqs σ = (Return v, σ') →
  _shift sqs σ = (Return (made_move v, finished v), σ').
Proof.
  intros H. unfold _shift. rewrite (bind_Return _ _ _ _ _ H). reflexivity.
Qed.

(** ** The length of the lines *)

(** Distributing a row makes no column longer by more than one square, and
    leaves the columns before the starting index as they are. *)
Lemma columns_of_row_lengths columns i row σ columns' σ' :
  columns_of_row columns i row σ = (Return columns', σ') →
  ∀ j c', columns' !! j = Some c' →
    ∃ c, columns !! j = Some c ∧ length c' ≤ S (length c)
         ∧ (j < i → c' = c).
Proof.
  revert columns i. induction row as [|spot row IH]; intros columns i H j c' Hj.
  - inversion H; subst. exists c'. auto.
  - simpl in H. rewrite bind_unfold in H.
    destruct (append_column_spec columns i spot σ) as [(c0 & Hc0 & Ha)|[_ Ha]];
      rewrite Ha in H; [|discriminate].
    destruct (IH _ _ H j c' Hj) as (c1 & Hc1 & Hlen & Hbefore).
    destruct (decide (j = i)) as [->|Hne].
    + rewrite list_lookup_insert_eq in Hc1
        by (eapply lookup_lt_Some; exact Hc0).
      inversion Hc1; subst c1. exists c0. split; [exact Hc0|].
      rewrite (Hbefore ltac:(lia)), length_app. simpl. split; lia.
    + rewrite list_lookup_insert_ne in Hc1 by auto.
      exists c1. split; [exact Hc1|]. split; [exact Hlen|].
      intros Hlt. apply Hbefore. lia.
Qed.

Lemma columns_of_rows_lengths columns rows σ columns' σ' n :
  Forall (λ c, length c ≤ n) columns →
  columns_of_rows columns rows σ = (Return columns', σ') →
  Forall (λ c, length c ≤ n + length rows) columns'.
Proof.
  revert columns n σ.
  induction rows as [|row rows IH]; intros columns n σ Hall H.
  - inversion H; subst. simpl. rewrite Nat.add_0_r. exact Hall.
  - simpl in H. rewrite bind_unfold in H.
    destruct (columns_of_row columns 0 row σ) as [[columns1|e] σ1] eqn:Hrow;
      [|discriminate].
    simpl. replace (n + S (length rows)) with (S n + length rows) by lia.
    eapply IH; [|exact H].
    apply Forall_lookup. intros j c' Hj.
    destruct (columns_of_row_lengths _ _ _ _ _ _ Hrow j c' Hj)
      as (c & Hc & Hlen & _).
    pose proof (proj1 (Forall_lookup _ _) Hall j c Hc) as Hn. simpl in Hn. lia.
Qed.

(** On a grid of at most 4 by 4 squares every line of every move has at most
    four squares. *)
Lemma lines_of_short width height a self σ lines σ0 :
  shaped width height self → width ≤ 4 → height ≤ 4 →
  lines_of a self σ = (Return lines, σ0) →
  Forall (λ line, length line ≤ 4) lines.
Proof.
  intros [Hw Hh] Hw4 Hh4.
  assert (Forall (λ line : list loc, length line ≤ 4) (squares self)) as Hrows.
  { eapply Forall_impl; [|exact Hh]. simpl. intros row ->. exact Hh4. }
  assert (∀ ls : list (list loc),
            Forall (λ line, length line ≤ 4) ls →
            Forall (λ line, length line ≤ 4) (reverse <$> ls)) as Hrev.
  { intros ls Hls. apply Forall_fmap. eapply Forall_impl; [|exact Hls].
    simpl. intros line Hline. rewrite length_reverse. exact Hline. }
  assert (∀ columns σ1,
            _get_columns self σ = (Return columns, σ1) →
            Forall (λ line, length line ≤ 4) columns) as Hcols.
  { intros columns σ1 Hc. unfold _get_columns in Hc.
    eapply Forall_impl;
      [|eapply (columns_of_rows_lengths _ _ _ _ _ 0); [|exact Hc]].
    - simpl. intros c Hlen. lia.
    - apply Forall_fmap, Forall_true. simpl. auto. }
  destruct a; simpl.
  - intros [= <- <-]. exact Hrows.
  - intros [= <- <-]. apply Hrev, Hrows.
  - apply Hcols.
  - rewrite bind_unfold.
    destruct (_get_columns self σ) as [[columns|e] σ1] eqn:Hc; [|discriminate].
    intros [= <- <-]. eapply Hrev, Hcols. reflexivity.
Qed.

(** Assigning to the square at index [j] of a line without repetition
    changes the value at index [j] only. *)
Lemma values_set_value σ (sqs : list loc) j l v :
  NoDup sqs → sqs !! j = Some l →
  values (set_value σ l v) sqs = <[j := v]> (values σ sqs).
Proof.
  intros Hnd Hj. unfold values. apply list_eq. intros k.
  rewrite list_lookup_fmap.
  destruct (decide (k = j)) as [->|Hne].
  - rewrite list_lookup_insert_eq
      by (rewrite length_fmap; eapply lookup_lt_Some; exact Hj).
    rewrite Hj. simpl. rewrite Nat.eqb_refl. reflexivity.
  - rewrite list_lookup_insert_ne by auto. rewrite list_lookup_fmap.
    destruct (sqs !! k) as [l'|] eqn:Hk; [|reflexivity]. simpl.
    destruct (Nat.eqb_spec l' l) as [->|]; [|reflexivity].
    exfalso. apply Hne. eapply NoDup_lookup; eauto.
Qed.

(** ** The one merge of a line *)

Lemma first_pair_snoc ts x :
  first_pair ts = None → list.last ts ≠ Some x → first_pair (ts ++ [x]) = None.
Proof.
  induction ts as [|a ts IH]; intros Hfp Hl; [reflexivity|].
  destruct ts as [|b ts].
  - simpl in *. destruct (Z.eqb_spec a x); [congruence|reflexivity].
  - change (first_pair (a :: b :: ts ++ [x]) = None).
    change ((if (a =? b)%Z then Some a else first_pair (b :: ts)) = None)
      in Hfp.
    cbn [first_pair]. fold first_pair.
    destruct (a =? b)%Z; [discriminate|].
    apply IH; [exact Hfp|]. exact Hl.
Qed.

Lemma first_pair_merge pre x post :
  first_pair (pre ++ [x]) = None →
  first_pair (pre ++ x :: x :: post) = Some x.
Proof.
  induction pre as [|a pre IH]; intros Hfp.
  - simpl. rewrite Z.eqb_refl. reflexivity.
  - destruct pre as [|b pre].
    + simpl in *. destruct (a =? x)%Z; [discriminate|].
      rewrite Z.eqb_refl. reflexivity.
    + change (first_pair (a :: b :: pre ++ x :: x :: post) = Some x).
      change ((if (a =? b)%Z then Some a else first_pair (b :: pre ++ [x]))
              = None) in Hfp.
      cbn [first_pair]. fold first_pair.
      destruct (a =? b)%Z; [discriminate|]. apply IH. exact Hfp.
Qed.

Lemma tiles_values σ (sqs : list loc) : tiles σ sqs = omap id (values σ sqs).
Proof.
  induction sqs as [|a sqs IH]; [reflexivity|].
  rewrite tiles_cons, IH. unfold values. rewrite fmap_cons.
  change (omap id (value σ a :: (value σ <$> sqs)))
    with (match value σ a with
          | Some y => y :: omap id (value σ <$> sqs)
          | None => omap id (value σ <$> sqs)
          end).
  reflexivity.
Qed.

Lemma tiles_app σ (l1 l2 : list loc) :
  tiles σ (l1 ++ l2) = tiles σ l1 ++ tiles σ l2.
Proof. unfold tiles. apply omap_app. Qed.

Lemma length_tiles σ (sqs : list loc) : length (tiles σ sqs) ≤ length sqs.
Proof.
  induction sqs as [|a sqs IH]; [reflexivity|].
  rewrite tiles_cons. destruct (value σ a); simpl; lia.
Qed.

Lemma omap_id_Some (ts : list Z) : omap id (Some <$> ts) = ts.
Proof.
  induction ts as [|a ts IH]; [reflexivity|].
  rewrite fmap_cons.
  change (omap id (Some a :: (Some <$> ts))) with (a :: omap id (Some <$> ts)).
  rewrite IH. reflexivity.
Qed.

Lemma omap_id_None n : omap id (replicate n (@None Z)) = [].
Proof. induction n as [|n IH]; [reflexivity|exact IH]. Qed.

Lemma lookup_mid {A} (l1 l2 : list A) c l3 i :
  i = length l1 + length l2 → (l1 ++ l2 ++ c :: l3) !! i = Some c.
Proof.
  intros ->. rewrite app_assoc. apply list_lookup_middle.
  rewrite length_app. reflexivity.
Qed.

Lemma insert_mid {A} (l1 l2 : list A) c l3 i y :
  i = length l1 + length l2 →
  <[i := y]> (l1 ++ l2 ++ c :: l3) = l1 ++ l2 ++ y :: l3.
Proof.
  intros ->. rewrite !app_assoc, <- length_app.
  rewrite <- (Nat.add_0_r (length (l1 ++ l2))), insert_app_r. reflexivity.
Qed.

(** Moving a tile to an earlier square loses at most the tile that was
    there. *)
Lemma omap_move (vs : list (option Z)) k i x :
  k < i → vs !! i = Some (Some x) →
  omap id (<[i := None]> (<[k := Some x]> vs)) ⊆+ omap id vs.
Proof.
  intros Hki Hi.
  apply lookup_lt_Some in Hi as Hlen.
  destruct (lookup_lt_is_Some_2 vs k ltac:(lia)) as [a Ha].
  pose proof (take_drop_middle vs k a Ha) as E1.
  assert (drop (S k) vs !! (i - S k) = Some (Some x)) as Hi'.
  { rewrite lookup_drop. rewrite <- Hi. f_equal. lia. }
  pose proof (take_drop_middle _ _ _ Hi') as E2.
  set (l1 := take k vs) in *.
  set (l2 := take (i - S k) (drop (S k) vs)) in *.
  set (l3 := drop (S (i - S k)) (drop (S k) vs)) in *.
  assert (length l1 = k) as Hl1 by (unfold l1; rewrite length_take; lia).
  assert (length l2 = i - S k) as Hl2
    by (unfold l2; rewrite length_take, length_drop; lia).
  rewrite <- E2 in E1. rewrite <- E1.
  assert (<[k := Some x]> (l1 ++ a :: l2 ++ Some x :: l3)
          = l1 ++ Some x :: l2 ++ Some x :: l3) as ->.
  { rewrite <- (Nat.add_0_r k), <- Hl1, insert_app_r. reflexivity. }
  assert (<[i := None]> (l1 ++ Some x :: l2 ++ Some x :: l3)
          = l1 ++ Some x :: l2 ++ None :: l3) as ->.
  { replace i with (length l1 + S (length l2 + 0)) by lia.
    rewrite insert_app_r. f_equal.
    change (Some x :: <[length l2 + 0 := None]> (l2 ++ Some x :: l3)
            = Some x :: l2 ++ None :: l3).
    f_equal. exact (insert_app_r l2 (Some x :: l3) 0 None). }
  rewrite !omap_app.
  change (omap id (Some x :: l2 ++ None :: l3))
    with (x :: omap id (l2 ++ None :: l3)).
  rewrite !omap_app.
  change (omap id (None :: l3)) with (omap id l3).
  change (omap id (Some x :: l3)) with (x :: omap id l3).
  apply submseteq_skips_l.
  assert (x :: omap id l2 ++ omap id l3 ⊆+ omap id (l2 ++ Some x :: l3))
    as Hsub.
  { rewrite omap_app.
    change (omap id (Some x :: l3)) with (x :: omap id l3).
    rewrite <- Permutation_middle. reflexivity. }
  destruct a as [y|].
  - change (omap id (Some y :: l2 ++ Some x :: l3))
      with (y :: omap id (l2 ++ Some x :: l3)).
    apply submseteq_cons. exact Hsub.
  - exact Hsub.
Qed.

(** The loop of [_shift] on a line without repeated squares: until a merge
    the line is compacted, and after the one merge the tiles of the line
    are among those before it with the merged pair replaced by its sum. *)
Lemma shift_locals_merge sqs σ v' σ' :
  NoDup sqs →
  shift_locals sqs σ = (Return v', σ') →
  (merged v' = false ∧ finished v' = false
   ∧ first_pair (tiles σ sqs) = None
   ∧ values σ' sqs
     = (Some <$> tiles σ sqs)
       ++ replicate (length sqs - length (tiles σ sqs)) None)
  ∨ (merged v' = true
     ∧ ∃ pre x post,
         tiles σ sqs = pre ++ x :: x :: post
         ∧ first_pair (pre ++ [x]) = None
         ∧ tiles σ' sqs ⊆+ pre ++ (x + x)%Z :: post
         ∧ finished v' = (x + x =? GOAL)%Z).
Proof.
  intros Hnd Hrun.
  pose proof (shift_locals_inv
    (λ i v τ,
       (merged v = false ∧ finished v = false ∧ compacted σ sqs i v τ)
       ∨ (merged v = true
          ∧ ∃ pre x post,
              tiles σ sqs = pre ++ x :: x :: post
              ∧ first_pair (pre ++ [x]) = None
              ∧ tiles τ sqs ⊆+ pre ++ (x + x)%Z :: post
              ∧ finished v = (x + x =? GOAL)%Z))
    sqs σ v' σ') as H.
  destruct H as [[(Hmg & Hfin & Hvs & _ & _ & Hfp)|Hm] _]; [| |exact Hrun| |].
  - (* the steps *)
    clear Hrun v' σ'.
    intros i spot v τ v1 τ1 Hspot Hok HP Hs.
    assert (values τ sqs !! i = Some (value τ spot)) as Hτi
      by (unfold values; rewrite list_lookup_fmap, Hspot; reflexivity).
    destruct HP as [(Hmg & Hfin & Hvs & Hfe & Hlast & Hfp)
                   |(Hmg & pre & x0 & post & Hσ & Hpre & Hsub & Hfin)].
    + (* no merge so far *)
      set (ts := tiles σ (take i sqs)) in *.
      assert (length ts ≤ i) as Hk.
      { unfold ts. etrans; [apply length_tiles|]. rewrite length_take. lia. }
      assert (drop i (values σ sqs)
              = value σ spot :: drop (S i) (values σ sqs)) as HV.
      { apply drop_S. unfold values. rewrite list_lookup_fmap, Hspot.
        reflexivity. }
      rewrite HV in Hvs.
      assert (value τ spot = value σ spot) as Hsame.
      { rewrite Hvs, lookup_mid in Hτi
          by (rewrite length_fmap, length_replicate; lia).
        congruence. }
      assert (tiles σ (take (S i) sqs)
              = ts ++ match value σ spot with
                      | Some x => [x]
                      | None => []
                      end) as Hts.
      { rewrite (take_S_r _ _ _ Hspot), tiles_app. f_equal. }
      assert (∀ k, length ts = S k →
                ∃ last y, sqs !! k = Some last ∧ value τ last = Some y
                          ∧ list.last ts = Some y) as Hlastv.
      { intros k Hk'.
        destruct (lookup_lt_is_Some_2 ts k ltac:(lia)) as [y Hy].
        assert (values τ sqs !! k = Some (Some y)) as Hvk.
        { rewrite Hvs, lookup_app_l by (rewrite length_fmap; lia).
          rewrite list_lookup_fmap, Hy. reflexivity. }
        unfold values in Hvk. rewrite list_lookup_fmap in Hvk.
        destruct (sqs !! k) as [last|]; [|discriminate].
        injection Hvk as Hvk.
        exists last, y. split; [reflexivity|]. split; [exact Hvk|].
        rewrite list.last_lookup, Hk'. exact Hy. }
      inversion Hs as [Hx | x last Hx Hl Hlv Hmg' | x last Hx Hl Hlv Hmg'
                      | x k target Hx Hmt Hfe' Ht | x Hx Hmt Hfe']; subst.
      * (* an empty square *)
        left. rfe_fields. split; [exact Hmg|]. split; [exact Hfin|].
        rewrite Hx in Hsame. rewrite <- Hsame in Hts, Hvs.
        rewrite app_nil_r in Hts.
        unfold compacted. rewrite Hts. fold ts. rfe_fields.
        split; [|split; [|split]].
        -- rewrite Hvs. f_equal.
           replace (S i - length ts) with (S (i - length ts)) by lia.
           rewrite replicate_S_end, <- app_assoc. reflexivity.
        -- unfold record_first_empty. rewrite Hfe.
           destruct (decide (length ts < i)) as [Hlt|Hge];
             cbn [first_empty_spot].
           ++ rewrite Hfe. repeat rewrite decide_True by lia. reflexivity.
           ++ rewrite decide_True by lia. f_equal. lia.
        -- exact Hlast.
        -- exact Hfp.
      * (* the skip needs a merge before it *)
        congruence.
      * (* the merge *)
        right. rfe_fields. split; [reflexivity|].
        rewrite Hl in Hlast.
        destruct (length ts) as [|k] eqn:Hlen; [discriminate|].
        destruct (Hlastv k eq_refl) as (last' & y & Hk' & Hy & Hlt).
        rewrite Hk' in Hlast. injection Hlast as <-.
        rewrite Hlv in Hy. injection Hy as <-.
        apply list.last_Some in Hlt as [pre Hpre].
        rewrite Hx in Hsame. rewrite <- Hsame in Hts, Hvs.
        exists pre, x, (tiles σ (drop (S i) sqs)).
        assert (length pre = k) as Hlp.
        { rewrite Hpre, length_app in Hlen. simpl in Hlen. lia. }
        split; [|split; [|split]].
        -- rewrite <- (take_drop (S i) sqs) at 1.
           rewrite tiles_app, Hts, Hpre, <- !app_assoc. reflexivity.
        -- rewrite <- Hpre. exact Hfp.
        -- rewrite tiles_values.
           rewrite (values_set_value _ _ i spot) by assumption.
           rewrite (values_set_value _ _ k last) by assumption.
           rewrite Hvs, Hpre, fmap_app, <- !app_assoc.
           change (Some <$> [x]) with [Some x].
           assert (<[k := Some (x + x)%Z]>
                     ((Some <$> pre) ++ [Some x]
                      ++ replicate (i - S k) None
                      ++ Some x :: drop (S i) (values σ sqs))
                   = (Some <$> pre) ++ [Some (x + x)%Z]
                     ++ replicate (i - S k) None
                     ++ Some x :: drop (S i) (values σ sqs)) as ->.
           { rewrite <- (Nat.add_0_r k), <- Hlp.
             rewrite <- (length_fmap Some pre), insert_app_r.
             reflexivity. }
           rewrite !app_assoc.
           rewrite <- (app_assoc _ (replicate _ _)).
           rewrite insert_mid
             by (rewrite !length_app, length_fmap, length_replicate;
                 simpl; lia).
           rewrite !omap_app, omap_id_Some, omap_id_None.
           change (omap id [Some (x + x)%Z]) with [(x + x)%Z].
           change (omap id (None :: drop (S i) (values σ sqs)))
             with (omap id (drop (S i) (values σ sqs))).
           rewrite app_nil_l, <- app_assoc.
           unfold values. rewrite <- fmap_drop.
           fold (values σ (drop (S i) sqs)). rewrite <- tiles_values.
           reflexivity.
        -- rewrite Hfin. destruct (x + x =? GOAL)%Z; reflexivity.
      * (* a shift *)
        left. cbn [merged finished]. split; [exact Hmg|]. split; [exact Hfin|].
        rewrite Hfe in Hfe'.
        destruct (decide (length ts < i)) as [Hlt|]; [|discriminate].
        injection Hfe' as <-.
        rewrite Hx in Hsame. rewrite <- Hsame in Hts, Hvs.
        assert (list.last ts ≠ Some x) as Hne.
        { intros Hlx. unfold merge_target in Hmt. rewrite Hlast in Hmt.
          destruct (length ts) as [|k] eqn:Hlen;
            [destruct ts; [discriminate Hlx|discriminate Hlen]|].
          destruct (Hlastv k eq_refl) as (last' & y & Hk' & Hy & Hly).
          rewrite Hk', Hy in Hmt. rewrite Hly in Hlx. injection Hlx as ->.
          rewrite Z.eqb_refl in Hmt. discriminate. }
        unfold compacted. rewrite Hts.
        cbn [first_empty_spot last_filled_spot].
        rewrite length_app. simpl.
        split; [|split; [|split]].
        -- rewrite (values_set_value _ _ i spot) by assumption.
           rewrite (values_set_value _ _ (length ts) target) by assumption.
           rewrite Hvs.
           destruct (i - length ts) as [|g] eqn:Hg; [lia|].
           replace (S i - (length ts + 1)) with (S g) by lia.
           change (replicate (S g) None) with (@None Z :: replicate g None).
           assert (<[length ts := Some x]>
                     ((Some <$> ts) ++ (None :: replicate g None)
                      ++ Some x :: drop (S i) (values σ sqs))
                   = (Some <$> ts) ++ (Some x :: replicate g None)
                     ++ Some x :: drop (S i) (values σ sqs)) as ->.
           { rewrite <- (Nat.add_0_r (length ts)).
             rewrite <- (length_fmap Some ts) at 1.
             rewrite insert_app_r. reflexivity. }
           rewrite insert_mid by (rewrite length_fmap; simpl;
                                  rewrite length_replicate; lia).
           rewrite fmap_app, <- app_assoc. simpl.
           f_equal. f_equal.
           rewrite app_comm_cons, replicate_cons_app, <- app_assoc.
           reflexivity.
        -- rewrite decide_True by lia. reflexivity.
        -- replace (length ts + 1) with (S (length ts)) by lia. symmetry.
           exact Ht.
        -- apply first_pair_snoc; assumption.
      * (* a tile that stays *)
        left. cbn [merged finished]. split; [exact Hmg|]. split; [exact Hfin|].
        rewrite Hfe in Hfe'.
        destruct (decide (length ts < i)) as [|Hge]; [discriminate|].
        assert (length ts = i) as Hlen by lia.
        rewrite Hx in Hsame. rewrite <- Hsame in Hts, Hvs.
        assert (list.last ts ≠ Some x) as Hne.
        { intros Hlx. unfold merge_target in Hmt. rewrite Hlast in Hmt.
          destruct (length ts) as [|k] eqn:Hlen';
            [destruct ts; [discriminate Hlx|discriminate Hlen']|].
          destruct (Hlastv k eq_refl) as (last' & y & Hk' & Hy & Hly).
          rewrite Hk', Hy in Hmt. rewrite Hly in Hlx. injection Hlx as ->.
          rewrite Z.eqb_refl in Hmt. discriminate. }
        unfold compacted. rewrite Hts.
        cbn [first_empty_spot last_filled_spot].
        rewrite length_app. simpl. rewrite Hlen.
        split; [|split; [|split]].
        -- rewrite Hvs, Hlen, Nat.sub_diag.
           replace (S i - (i + 1)) with 0 by lia.
           rewrite fmap_app, <- app_assoc. reflexivity.
        -- rewrite decide_False by lia. reflexivity.
        -- replace (i + 1) with (S i) by lia. symmetry. exact Hspot.
        -- apply first_pair_snoc; assumption.
    + (* after the merge *)
      right.
      inversion Hs as [Hx | x last Hx Hl Hlv Hmg' | x last Hx Hl Hlv Hmg'
                      | x k target Hx Hmt Hfe' Ht | x Hx Hmt Hfe']; subst;
        rfe_fields; try congruence.
      * split; [exact Hmg|]. exists pre, x0, post. auto.
      * split; [exact Hmg|]. exists pre, x0, post. auto.
      * split; [exact Hmg|]. exists pre, x0, post.
        split; [exact Hσ|]. split; [exact Hpre|]. split; [|exact Hfin].
        etrans; [|exact Hsub].
        rewrite !tiles_values.
        rewrite (values_set_value _ _ i spot) by assumption.
        rewrite (values_set_value _ _ k target) by assumption.
        apply omap_move.
        -- destruct Hok as [Hfe _]. apply Hfe. exact Hfe'.
        -- rewrite Hτi, Hx. reflexivity.
      * split; [exact Hmg|]. exists pre, x0, post. auto.
  - (* the start *)
    left. split; [reflexivity|]. split; [reflexivity|].
    unfold compacted. simpl. rewrite drop_0. auto.
  - (* the end, without a merge *)
    left. rewrite take_ge in Hvs, Hfp by reflexivity.
    rewrite drop_ge, app_nil_r in Hvs
      by (unfold values; rewrite length_fmap; lia).
    auto.
  - right. exact Hm.
Qed.


(** The one merge of a line. *)
Lemma shift_one_merge sqs σ mm fin σ' :
  NoDup sqs →
  _shift sqs σ = (Return (mm, fin), σ') →
  match first_pair (tiles σ sqs) with
  | None => tiles σ' sqs = tiles σ sqs
  | Some x0 =>
      ∃ pre post,
        tiles σ sqs = pre ++ x0 :: x0 :: post
        ∧ first_pair (pre ++ [x0]) = None
        ∧ tiles σ' sqs ⊆+ pre ++ (x0 + x0)%Z :: post
        ∧ (length sqs ≤ 4 → tiles σ' sqs ≡ₚ pre ++ (x0 + x0)%Z :: post)
  end.
Proof.
  intros Hnd Hrun.
  destruct (shift_total sqs σ) as (v & σ1 & Hloc & Hs).
  rewrite Hs in Hrun. inversion Hrun; subst. clear Hrun Hs.
  destruct (shift_locals_merge sqs σ v σ' Hnd Hloc)
    as [(_ & _ & -> & Hvs)|(Hmg & pre & x & post & Hσ & Hpre & Hsub & _)].
  - rewrite (tiles_values σ'), Hvs, omap_app, omap_id_Some, omap_id_None.
    apply app_nil_r.
  - rewrite Hσ, (first_pair_merge _ _ _ Hpre).
    exists pre, post. split; [reflexivity|]. split; [exact Hpre|].
    split; [exact Hsub|]. intros Hlen.
    apply submseteq_length_Permutation; [exact Hsub|].
    destruct (shift_locals_count sqs σ Hnd Hlen) as (v1 & σ1 & Hloc1 & Hc).
    rewrite Hloc in Hloc1. inversion Hloc1; subst v1 σ1.
    rewrite Hmg in Hc. unfold count_tiles in Hc. rewrite Hσ in Hc.
    rewrite !length_app in *. simpl in *. lia.
Qed.


(** ** The main loop and the exceptions of a move *)

Module MainLoop.
Import Stdlib.Strings.Ascii Stdlib.Strings.String.
Import Game.




End MainLoop.

(** ** The properties of the specification *)

(** C1 (as stated, refuted): collapsing the row [2,2,2,2] to the left does
    not give [4,4,None,None]. *)
Lemma shift_2222_not_44 :
  values (_shift [0; 1; 2; 3] heap_2222).2 [0; 1; 2; 3]
  ≠ [t 4; t 4; None; None].
Proof. vm_compute. discriminate. Qed.

(** C1 (amended): collapsing a line [2,2,2,2] merges the leading pair only:
    the line reports a move and no goal, the leading square holds 4, the
    tiles of the line are 4, 2, 2 in travel order, and the line is not
    [8,None,None,None].  On every line without repeated squares [_shift]
    merges once, and only the first two neighbouring tiles that are equal:
    when no two neighbours are equal the tiles stay as they are; otherwise
    the tiles after the collapse are among the tiles before it with that
    one pair replaced by its sum, each tile taken at most once, and they
    are all of these on a line of at most four squares.  So no tile is the
    result of two merges, and no second pair is merged.  On any line, also
    one with repeated squares, every value after the collapse is a value
    the line had before or twice such a value. *)
Theorem single_merge_per_line :
  (∀ a b c d σ,
     NoDup [a; b; c; d] →
     values σ [a; b; c; d] = [t 2; t 2; t 2; t 2] →
     ∃ σ', _shift [a; b; c; d] σ = (Return (true, false), σ')
           ∧ value σ' a = Some 4%Z
           ∧ tiles σ' [a; b; c; d] = [4; 2; 2]%Z
           ∧ values σ' [a; b; c; d] ≠ [t 8; None; None; None])
  ∧ (∀ sqs σ mm fin σ',
       NoDup sqs →
       _shift sqs σ = (Return (mm, fin), σ') →
       match first_pair (tiles σ sqs) with
       | None => tiles σ' sqs = tiles σ sqs
       | Some x0 =>
           ∃ pre post,
             tiles σ sqs = pre ++ x0 :: x0 :: post
             ∧ first_pair (pre ++ [x0]) = None
             ∧ tiles σ' sqs ⊆+ pre ++ (x0 + x0)%Z :: post
             ∧ (length sqs ≤ 4 →
                tiles σ' sqs ≡ₚ pre ++ (x0 + x0)%Z :: post)
       end)
  ∧ (∀ sqs σ o σ' l x,
       _shift sqs σ = (o, σ') →
       value σ' l = Some x →
       value σ l = Some x ∨ line_had σ sqs x
       ∨ ∃ x0, line_had σ sqs x0 ∧ x = (x0 + x0)%Z).
Proof.
  split; [|split].
  - intros a b c d σ Hnd Hv.
    destruct (shift_locals_2222 a b c d σ Hnd Hv)
      as (v & σ' & Hrun & Hmm & Hfin & Hv').
    exists σ'. rewrite (shift_of_locals _ _ _ _ Hrun), Hmm, Hfin.
    split; [reflexivity|]. injection Hv' as Ha Hb Hc Hd.
    split; [exact Ha|]. split.
    + unfold tiles. cbn [omap list_omap]. rewrite Ha, Hb, Hc, Hd. reflexivity.
    + unfold values. cbn [fmap list_fmap]. rewrite Ha. discriminate.
  - exact shift_one_merge.
  - intros sqs σ o σ' l x Hrun Hx.
    destruct (shift_total sqs σ) as (v1 & σ1 & Hloc & Hs).
    rewrite Hs in Hrun. inversion Hrun; subst.
    eapply shift_locals_provenance; eauto.
Qed.

Lemma single_merge_per_line_witness :
  (∃ σ', _shift [0; 1; 2; 3] heap_2222 = (Return (true, false), σ')
         ∧ value σ' 0 = Some 4%Z
         ∧ tiles σ' [0; 1; 2; 3] = [4; 2; 2]%Z
         ∧ values σ' [0; 1; 2; 3] ≠ [t 8; None; None; None])
  ∧ (∃ pre post,
       tiles heap_2222 [0; 1; 2; 3] = pre ++ 2%Z :: 2%Z :: post
       ∧ first_pair (pre ++ [2%Z]) = None
       ∧ tiles (_shift [0; 1; 2; 3] heap_2222).2 [0; 1; 2; 3]
         ⊆+ pre ++ 4%Z :: post
       ∧ (4 ≤ 4 →
          tiles (_shift [0; 1; 2; 3] heap_2222).2 [0; 1; 2; 3]
          ≡ₚ pre ++ 4%Z :: post))
  ∧ (value heap_2222 0 = Some 4%Z ∨ line_had heap_2222 [0; 1; 2; 3] 4
     ∨ ∃ x0, line_had heap_2222 [0; 1; 2; 3] x0 ∧ 4%Z = (x0 + x0)%Z).
Proof.
  split; [|split].
  - apply (proj1 single_merge_per_line 0 1 2 3 heap_2222).
    + apply (NoDup_seq 0 4).
    + reflexivity.
  - assert (_shift [0; 1; 2; 3] heap_2222
            = (Return (true, false), (_shift [0; 1; 2; 3] heap_2222).2))
      as Hrun by (vm_compute; reflexivity).
    exact (proj1 (proj2 single_merge_per_line) [0; 1; 2; 3] heap_2222
             true false _ (NoDup_seq 0 4) Hrun).
  - apply (proj2 (proj2 single_merge_per_line) [0; 1; 2; 3] heap_2222
             (_shift [0; 1; 2; 3] heap_2222).1
             (_shift [0; 1; 2; 3] heap_2222).2 0 4%Z); reflexivity.
Defined.

(** C2 (the code at the failing input): on the row [2,2,2,2], when the loop
    reaches the fourth square a merge has happened, the first empty spot is
    recorded (index 2) and the tile equals the last filled spot; the loop
    body leaves the heap as it is, so the tile stays behind the gap and the
    line ends as [4,2,None,2]. *)
Theorem shift_2222_leaves_gap :
  ∃ v3 σ3,
    shift_loop [0; 1; 2; 3] 0 [0; 1; 2] locals0 heap_2222 = (Return v3, σ3)
    ∧ first_empty_spot v3 = Some 2
    ∧ merged v3 = true
    ∧ last_filled_spot v3 = Some 1
    ∧ value σ3 1 = Some 2%Z
    ∧ value σ3 3 = Some 2%Z
    ∧ shift_body [0; 1; 2; 3] 3 3 v3 σ3 = (Return v3, σ3)
    ∧ (_shift [0; 1; 2; 3] heap_2222).1 = Return (true, false)
    ∧ values (_shift [0; 1; 2; 3] heap_2222).2 [0; 1; 2; 3]
      = [t 4; t 2; None; t 2].
Proof. eexists _, _. repeat split. Qed.

(** C3: when the loop of a move reports a move, some square of the grid is
    empty when the spawn is attempted; so the spawn succeeds, and no move
    raises [GameOverException]. *)
Theorem move_spawn_never_fails :
  (∀ a self σ lines σ0 fin σ1,
     lines_of a self σ = (Return lines, σ0) →
     move_loop lines false false σ = (Return (fin, true), σ1) →
     ∃ l, l ∈ cells self ∧ value σ1 l = None)
  ∧ (∀ a self choice σ,
       (apply_action a self choice σ).1 ≠ Raise GameOverException).
Proof.
  split.
  - intros a self σ lines σ0 fin σ1 Hl Hloop.
    apply lines_of_spec in Hl as [_ [Hl|(ls & Hl & Hp)]]; [discriminate|].
    inversion Hl; subst ls.
    destruct (move_loop_empty_or_unchanged _ _ _ _ _ _ _ Hloop)
      as [(l & Hin & Hn)|(_ & _ & [=])].
    exists l. split; [|exact Hn]. rewrite <- Hp. exact Hin.
  - intros a self choice σ.
    destruct (apply_action_cases a self choice σ)
      as [[_ ->]|(lines & _ & Hp & ->)]; [discriminate|].
    destruct (move_spec self lines choice σ) as (fin & mm & σ1 & _ & Hm).
    { intros l Hl. rewrite <- Hp. exact Hl. }
    destruct Hm as [[_ ->]|[(_ & _ & l & _ & _ & ->)|(_ & _ & _ & ->)]];
      discriminate.
Qed.

Lemma move_spawn_never_fails_witness :
  ∃ l, l ∈ cells grid4
       ∧ value (move_loop (squares grid4) false false heap_2222).2 l = None.
Proof.
  apply (proj1 move_spawn_never_fails Left grid4 heap_2222 (squares grid4)
           heap_2222 false); reflexivity.
Defined.




(** C5: when no line reports a move (nothing shifted, nothing merged), the
    move returns with the very heap it was given: no square was assigned,
    and no tile was spawned. *)
Theorem blocked_move_is_noop a self choice σ lines σ0 fin σ1 :
  lines_of a self σ = (Return lines, σ0) →
  move_loop lines false false σ = (Return (fin, false), σ1) →
  apply_action a self choice σ = (Return tt, σ).
Proof.
  intros Hl Hloop.
  destruct (apply_action_cases a self choice σ)
    as [[Hl' _]|(lines' & Hl' & _ & ->)]; rewrite Hl in Hl'; [discriminate|].
  inversion Hl'; subst.
  apply move_loop_unchanged in Hloop as Hu. destruct Hu as (-> & -> & _).
  unfold _move. rewrite (bind_Return _ _ _ _ _ Hloop). reflexivity.
Qed.

Lemma blocked_move_is_noop_witness :
  apply_action Top grid4 5 heap_full = (Return tt, heap_full).
Proof.
  apply (blocked_move_is_noop Top grid4 5 heap_full
           [[0; 4; 8; 12]; [1; 5; 9; 13]; [2; 6; 10; 14]; [3; 7; 11; 15]]
           heap_full false heap_full); reflexivity.
Defined.

(** C6: on the constructed grid and after every move, every tile of the
    grid is a power of two, at least 2. *)
Theorem tiles_are_powers_of_two self σ :
  reachable self σ →
  ∀ l x, l ∈ cells self → value σ l = Some x → tile_ok x.
Proof.
  induction 1 as [width height choice1 choice2 σ0 σ Hinit
                 |a choice σ o σ' _ IH Hmove].
  - destruct (Grid_init_Return _ _ _ _ _ _ _ Hinit)
      as (_ & _ & _ & _ & l1 & l2 & _ & _ & _ & Hv1 & Hv2 & Hv).
    intros l x Hl Hx.
    destruct (decide (l = l1)) as [->|Hn1].
    { rewrite Hv1 in Hx. inversion Hx. apply tile_ok_2. }
    destruct (decide (l = l2)) as [->|Hn2].
    { rewrite Hv2 in Hx. inversion Hx. apply tile_ok_2. }
    rewrite Hv in Hx by auto. discriminate.
  - exact (apply_action_tiles_ok _ _ _ _ _ _ IH Hmove).
Qed.

Lemma tiles_are_powers_of_two_witness : tile_ok 4.
Proof.
  assert (reachable grid4 (Grid_init 4 4 0 0 (heap_of [])).2) as Hinit.
  { apply (reach_init grid4 4 4 0 0 (heap_of [])). vm_compute. reflexivity. }
  assert (reachable grid4
            (left grid4 0 (Grid_init 4 4 0 0 (heap_of [])).2).2) as Hmove.
  { apply (reach_move grid4 Left 0 _ (Return tt) _ Hinit).
    vm_compute. reflexivity. }
  apply (tiles_are_powers_of_two grid4 _ Hmove 0 4%Z).
  - apply list_elem_of_here.
  - vm_compute. reflexivity.
Defined.

(** C7 (as stated, refuted): the number of tiles can decrease across a move
    that changes the grid and does not end the game: with two rows
    [2,2,None,None] the move to the left merges twice and spawns once, and
    four tiles become three. *)
Lemma count_can_decrease :
  ¬ (∀ a self choice σ lines fin σ1,
       lines_of a self σ = (Return lines, σ) →
       move_loop lines false false σ = (Return (fin, true), σ1) →
       (apply_action a self choice σ).1 = Return tt →
       count_tiles σ (cells self)
       ≤ count_tiles (apply_action a self choice σ).2 (cells self)).
Proof.
  intros H.
  specialize (H Left grid4 0 heap_pairs (squares grid4) false
                (move_loop (squares grid4) false false heap_pairs).2).
  vm_compute in H. specialize (H eq_refl eq_refl eq_refl). lia.
Qed.

(** On a line of five squares a tile can be lost without a merge: in
    [2,2,4,8,16] the 4 is skipped after the merge, and the 16 is then moved
    onto it. *)
Lemma long_line_loses_tile :
  values (shift_locals [0; 1; 2; 3; 4] heap_long).2 [0; 1; 2; 3; 4]
  = [t 4; t 8; t 16; None; None]
  ∧ merges [[0; 1; 2; 3; 4]] heap_long = 1
  ∧ count_tiles heap_long [0; 1; 2; 3; 4] = 5
  ∧ count_tiles (shift_locals [0; 1; 2; 3; 4] heap_long).2 [0; 1; 2; 3; 4]
    = 3.
Proof. vm_compute. repeat split. Qed.

(** C7 (amended): on a grid whose lines have at most four squares, as in the
    4 by 4 game ([lines_of_short]), a move that changes the grid and does
    not end the game returns, and the number of tiles after it is the number
    before, minus the number of merges, plus one for the spawned tile; there
    is at most one merge per line. *)
Theorem count_after_move a self choice σ lines σ0 σ1 :
  NoDup (cells self) →
  lines_of a self σ = (Return lines, σ0) →
  Forall (λ line, length line ≤ 4) lines →
  move_loop lines false false σ = (Return (false, true), σ1) →
  ∃ σ', apply_action a self choice σ = (Return tt, σ')
        ∧ count_tiles σ' (cells self) + merges lines σ
          = count_tiles σ (cells self) + 1
        ∧ merges lines σ ≤ length lines.
Proof.
  intros Hnd Hl Hall Hloop.
  destruct (apply_action_cases a self choice σ)
    as [[Hl' _]|(lines' & Hl' & Hp & ->)]; rewrite Hl in Hl'; [discriminate|].
  inversion Hl'; subst lines' σ0. clear Hl'.
  assert (∀ l, l ∈ concat lines → l ∈ cells self) as Hsub.
  { intros l Hin. rewrite <- Hp. exact Hin. }
  destruct (move_spec self lines choice σ Hsub)
    as (fin & mm & σ2 & Hloop' & Hm).
  rewrite Hloop in Hloop'. inversion Hloop'; subst fin mm σ2. clear Hloop'.
  destruct Hm as [[[=] _]|[(_ & _ & l & Hin & Hn & ->)|(_ & [=] & _)]].
  eexists. split; [reflexivity|]. split; [|apply merges_le].
  rewrite count_tiles_spawn by assumption.
  rewrite <- !(count_tiles_perm _ _ _ Hp).
  rewrite <- (move_loop_count _ _ _ _ _ _ _ (proj2 (NoDup_Permutation_proper _ _ Hp) Hnd) Hall Hloop).
  lia.
Qed.

Lemma count_after_move_witness :
  ∃ σ', apply_action Left grid4 0 heap_pairs = (Return tt, σ')
        ∧ count_tiles σ' (cells grid4) + merges (squares grid4) heap_pairs
          = count_tiles heap_pairs (cells grid4) + 1
        ∧ merges (squares grid4) heap_pairs ≤ length (squares grid4).
Proof.
  apply (count_after_move Left grid4 0 heap_pairs (squares grid4) heap_pairs
           (move_loop (squares grid4) false false heap_pairs).2).
  - apply (NoDup_seq 0 16).
  - reflexivity.
  - repeat constructor.
  - vm_compute. reflexivity.
Defined.

(** C8: a line [1024,1024,None,None] collapses to [2048,None,None,None] and
    reports a move and the goal; on a grid that has such a row, the move to
    the left raises [GameFinishedException], the won outcome, with the heap
    as the loop over the lines left it (no tile is spawned), and the row
    holds [2048,None,None,None]. *)
Theorem goal_merge_wins :
  (∀ a b c d σ,
     NoDup [a; b; c; d] →
     values σ [a; b; c; d] = [t 1024; t 1024; None; None] →
     ∃ σ', _shift [a; b; c; d] σ = (Return (true, true), σ')
           ∧ values σ' [a; b; c; d] = [t 2048; None; None; None])
  ∧ (∀ self choice σ above row below,
       squares self = above ++ row :: below →
       NoDup (cells self) →
       values σ row = [t 1024; t 1024; None; None] →
       ∃ mm σ',
         move_loop (squares self) false false σ = (Return (true, mm), σ')
         ∧ left self choice σ = (Raise GameFinishedException, σ')
         ∧ values σ' row = [t 2048; None; None; None]).
Proof.
  split.
  - intros a b c d σ Hnd Hv.
    destruct (shift_locals_goal a b c d σ Hnd Hv)
      as (v & σ' & Hrun & Hmm & Hfin & Hv').
    exists σ'. split; [|exact Hv'].
    rewrite (shift_of_locals _ _ _ _ Hrun), Hmm, Hfin. reflexivity.
  - intros self choice σ above row below Hsq Hnd Hv.
    unfold cells in Hnd. rewrite Hsq, concat_app in Hnd. simpl in Hnd.
    apply list.NoDup_app in Hnd as (_ & Hd1 & Hnd).
    apply list.NoDup_app in Hnd as (Hrow & Hd2 & _).
    assert (∃ a b c d, row = [a; b; c; d]) as (a & b & c & d & ->).
    { destruct row as [|a [|b [|c [|d [|e row]]]]]; try discriminate.
      eauto. }
    destruct (move_loop_total above false false σ) as (f1 & m1 & σ1 & H1).
    destruct (move_loop_frame _ _ _ _ _ _ _ H1) as [Hf1 _].
    assert (values σ1 [a; b; c; d] = [t 1024; t 1024; None; None]) as Hv1.
    { rewrite <- Hv. apply values_ext. intros l Hl. apply Hf1.
      intros Hl'. apply (Hd1 l Hl'). apply elem_of_app. auto. }
    destruct (shift_locals_goal a b c d σ1 Hrow Hv1)
      as (v & σ2 & Hrun & Hmm & Hfin & Hv2).
    destruct (move_loop_total below (finished v || f1) (made_move v || m1) σ2)
      as (fin & mm & σ' & H2).
    assert (move_loop (squares self) false false σ = (Return (fin, mm), σ'))
      as Hloop.
    { rewrite Hsq, (move_loop_app _ _ _ _ _ _ _ _ H1).
      rewrite (move_loop_cons _ _ _ _ _ _ _ Hrun). exact H2. }
    rewrite Hfin in H2. simpl in H2.
    pose proof (move_loop_finished _ _ _ _ _ _ H2) as ->.
    destruct (move_loop_frame _ _ _ _ _ _ _ H2) as [Hf2 _].
    exists mm, σ'. split; [exact Hloop|]. split.
    + unfold left, _move. rewrite (bind_Return _ _ _ _ _ Hloop). reflexivity.
    + rewrite <- Hv2. apply values_ext. intros l Hl. apply Hf2.
      intros Hl'. exact (Hd2 l Hl Hl').
Qed.

Lemma goal_merge_wins_witness :
  (∃ σ', _shift [0; 1; 2; 3] heap_goal = (Return (true, true), σ')
         ∧ values σ' [0; 1; 2; 3] = [t 2048; None; None; None])
  ∧ (∃ mm σ',
       move_loop (squares grid4) false false heap_goal
       = (Return (true, mm), σ')
       ∧ left grid4 7 heap_goal = (Raise GameFinishedException, σ')
       ∧ values σ' [0; 1; 2; 3] = [t 2048; None; None; None]).
Proof.
  split.
  - apply (proj1 goal_merge_wins 0 1 2 3 heap_goal).
    + apply (NoDup_seq 0 4).
    + reflexivity.
  - apply (proj2 goal_merge_wins grid4 7 heap_goal []
             [0; 1; 2; 3] [[4; 5; 6; 7]; [8; 9; 10; 11]; [12; 13; 14; 15]]).
    + reflexivity.
    + apply (NoDup_seq 0 16).
    + reflexivity.
Defined.

(** C9: for [width * height >= 2] the constructor returns a grid of [width]
    rows of [height] distinct squares on which exactly two different squares
    hold a tile, both of value 2, and every other square is empty; and
    whenever [_new_square] spawns a tile, it assigns 2 to one empty square
    and nothing else. *)
Theorem fresh_grid_two_twos :
  (∀ width height choice1 choice2 σ0,
     2 ≤ width * height →
     ∃ self σ l1 l2,
       Grid_init width height choice1 choice2 σ0 = (Return self, σ)
       ∧ shaped width height self
       ∧ NoDup (cells self)
       ∧ l1 ∈ cells self ∧ l2 ∈ cells self ∧ l1 ≠ l2
       ∧ value σ l1 = Some 2%Z ∧ value σ l2 = Some 2%Z
       ∧ (∀ l, l ∈ cells self → l ≠ l1 → l ≠ l2 → value σ l = None)
       ∧ count_tiles σ (cells self) = 2)
  ∧ (∀ self choice σ σ',
       _new_square self choice σ = (Return tt, σ') →
       ∃ l, l ∈ cells self ∧ value σ l = None
            ∧ σ' = set_value σ l (Some 2%Z)).
Proof.
  split.
  - intros width height choice1 choice2 σ0 Hge.
    destruct (Grid_init_succeeds width height choice1 choice2 σ0 Hge)
      as (self & σ & H).
    destruct (Grid_init_Return _ _ _ _ _ _ _ H)
      as (Hs & _ & _ & _ & l1 & l2 & Hl1 & Hl2 & Hne & Hv1 & Hv2 & Hv).
    destruct (Grid_init_count _ _ _ _ _ _ _ H) as [Hnd Hcount].
    exists self, σ, l1, l2. repeat split; auto; apply Hs.
  - intros self choice σ σ' H.
    destruct (new_square_spec self choice σ)
      as [[H' _]|(l & Hl & Hn & H')]; rewrite H' in H.
    + discriminate.
    + inversion H; subst. eauto.
Qed.

Lemma fresh_grid_two_twos_witness :
  (∃ self σ l1 l2,
     Grid_init 4 4 3 7 (heap_of []) = (Return self, σ)
     ∧ shaped 4 4 self
     ∧ NoDup (cells self)
     ∧ l1 ∈ cells self ∧ l2 ∈ cells self ∧ l1 ≠ l2
     ∧ value σ l1 = Some 2%Z ∧ value σ l2 = Some 2%Z
     ∧ (∀ l, l ∈ cells self → l ≠ l1 → l ≠ l2 → value σ l = None)
     ∧ count_tiles σ (cells self) = 2)
  ∧ (∃ l, l ∈ cells grid4 ∧ value heap_2222 l = None
          ∧ (_new_square grid4 5 heap_2222).2
            = set_value heap_2222 l (Some 2%Z)).
Proof.
  split.
  - apply (proj1 fresh_grid_two_twos 4 4 3 7 (heap_of [])). simpl. lia.
  - apply (proj2 fresh_grid_two_twos grid4 5 heap_2222). reflexivity.
Defined.

(** C10: on a grid constructed with [height > width] the moves [top] and
    [bottom] raise [IndexError] (and assign nothing): [_get_columns] makes
    one column list per row, [width] of them, and a row has [height]
    squares.  With [height <= width], as in the 4 by 4 game, they never
    raise [IndexError]. *)
Theorem column_moves_need_width width height choice1 choice2 σ0 self σ1 :
  Grid_init width height choice1 choice2 σ0 = (Return self, σ1) →
  (width < height →
   ∀ choice σ, top self choice σ = (Raise IndexError, σ)
               ∧ bottom self choice σ = (Raise IndexError, σ))
  ∧ (height ≤ width →
     ∀ choice σ, (top self choice σ).1 ≠ Raise IndexError
                 ∧ (bottom self choice σ).1 ≠ Raise IndexError).
Proof.
  intros H. destruct (Grid_init_Return _ _ _ _ _ _ _ H)
    as (Hs & _ & _ & Hc & l1 & _ & Hl1 & _).
  split.
  - intros Hlt choice σ. apply (top_overflow width height); auto.
    rewrite Hc in Hl1. apply elem_of_seq in Hl1.
    destruct width; [simpl in Hl1|]; lia.
  - intros Hle choice σ. apply (top_fits width height); auto.
Qed.

Lemma column_moves_need_width_witness :
  (top {| _width := 1; _height := 2; squares := [[0; 1]] |} 0 heap_2222
   = (Raise IndexError, heap_2222)
   ∧ bottom {| _width := 1; _height := 2; squares := [[0; 1]] |} 0 heap_2222
     = (Raise IndexError, heap_2222))
  ∧ ((top grid4 0 heap_goal).1 ≠ Raise IndexError
     ∧ (bottom grid4 0 heap_goal).1 ≠ Raise IndexError).
Proof.
  assert (Grid_init 1 2 0 0 (heap_of [])
          = (Return {| _width := 1; _height := 2; squares := [[0; 1]] |},
             (Grid_init 1 2 0 0 (heap_of [])).2)) as H12
    by (vm_compute; reflexivity).
  assert (Grid_init 4 4 0 0 (heap_of [])
          = (Return grid4, (Grid_init 4 4 0 0 (heap_of [])).2)) as H44
    by (vm_compute; reflexivity).
  split.
  - apply (proj1 (column_moves_need_width 1 2 0 0 (heap_of []) _ _ H12)).
    lia.
  - apply (proj2 (column_moves_need_width 4 4 0 0 (heap_of []) _ _ H44)).
    lia.
Defined.

(** * Further properties of the code *)

(** ** Blocked lines *)

Lemma scan_from_spec vs seen_empty last :
  is_Some (fold_left scan_step vs (Some (seen_empty, last)))
  ↔ if seen_empty then forallb (λ v, bool_decide (v = None)) vs = true
    else packed vs = true
         ∧ no_equal_neighbours (omap id (last :: vs)) = true.
Proof.
  revert seen_empty last. induction vs as [|v vs IH]; intros e last.
  - simpl. destruct e; [|destruct last]; simpl; split; eauto.
  - destruct v as [x|]; cbn [fold_left scan_step].
    + case_bool_decide as Hl.
      * assert (¬ is_Some (fold_left scan_step vs None)) as Hnone.
        { clear. induction vs; simpl; [apply is_Some_None|exact IHvs]. }
        subst last. split; [intros H; contradiction|].
        destruct e; simpl; [discriminate|].
        rewrite Z.eqb_refl. simpl. intros [_ [=]].
      * destruct e.
        { assert (¬ is_Some (fold_left scan_step vs None)) as Hnone.
          { clear. induction vs; simpl; [apply is_Some_None|exact IHvs]. }
          split; [intros H; contradiction|]. simpl. discriminate. }
        rewrite (IH false (Some x)). cbn [packed omap list_omap].
        destruct last as [y|]; cbn [no_equal_neighbours id].
        -- assert ((y =? x)%Z = false) as ->
             by (apply Z.eqb_neq; congruence).
           simpl. tauto.
        -- destruct (omap id vs); simpl; tauto.
    + rewrite (IH true last). cbn [packed forallb omap list_omap].
      destruct e; simpl.
      * tauto.
      * split; [intros H; split; [exact H|]|tauto].
        assert (omap id vs = @nil Z) as ->.
        { clear -H. induction vs as [|[z|] vs IH]; simpl in *;
            [reflexivity|discriminate|auto]. }
        destruct last; reflexivity.
Qed.

Lemma blocked_scan vs : blocked vs = true ↔ is_Some (scan vs).
Proof.
  unfold scan, blocked. rewrite (scan_from_spec vs false None).
  rewrite andb_true_iff. reflexivity.
Qed.

Lemma scan_snoc vs v : scan (vs ++ [v]) = scan_step (scan vs) v.
Proof. unfold scan. rewrite fold_left_app. reflexivity. Qed.

(** While no move was made the local variables of [_shift] are the state of
    the scan of the squares visited so far. *)
Lemma shift_locals_scan sqs σ v' σ' :
  shift_locals sqs σ = (Return v', σ') →
  scan (values σ sqs)
  = if made_move v' then None
    else Some (bool_decide (first_empty_spot v' ≠ None),
               last_filled_spot v' ≫= value σ).
Proof.
  intros Hrun.
  pose proof (shift_locals_inv
    (λ i v τ,
       (made_move v = false → τ = σ ∧ merged v = false)
       ∧ scan (take i (values σ sqs))
         = if made_move v then None
           else Some (bool_decide (first_empty_spot v ≠ None),
                      last_filled_spot v ≫= value σ))
    sqs σ v' σ') as H.
  destruct H as [[_ H] _]; [| |exact Hrun|].
  - intros i spot v τ v1 τ1 Hspot _ [Hsame Hscan] Hs.
    assert (values σ sqs !! i = Some (value σ spot)) as Hv.
    { unfold values. rewrite list_lookup_fmap, Hspot. reflexivity. }
    rewrite (take_S_r _ _ _ Hv), scan_snoc, Hscan.
    destruct (made_move v) eqn:Hmm.
    { (* a move was made before: it stays made *)
      assert (made_move v1 = true) as ->.
      { inversion Hs; subst; rfe_fields; auto. }
      split; [discriminate|reflexivity]. }
    destruct (Hsame eq_refl) as [-> Hmg].
    inversion Hs as [Hx | x last Hx Hl Hlv Hmg' | x last Hx Hl Hlv Hmg'
                    | x k target Hx Hmt Hfe Ht | x Hx Hmt Hfe];
      subst; rfe_fields; rewrite Hx; cbn [scan_step].
    + (* empty *)
      rewrite Hmm. split; [auto|].
      rewrite bool_decide_eq_true_2; [reflexivity|].
      unfold record_first_empty.
      destruct (first_empty_spot v) eqn:Hfe; simpl; rewrite ?Hfe; discriminate.
    + congruence.
    + (* merge *)
      split; [discriminate|]. rewrite Hl. simpl. rewrite Hlv.
      rewrite bool_decide_eq_true_2 by reflexivity. reflexivity.
    + (* shift *)
      split; [discriminate|].
      rewrite (bool_decide_eq_true_2 (first_empty_spot v ≠ None))
        by (rewrite Hfe; discriminate).
      destruct (bool_decide (last_filled_spot v ≫= value σ = Some x)); reflexivity.
    + (* keep *)
      rewrite Hmm. split; [auto|]. rewrite Hfe.
      rewrite !(bool_decide_eq_false_2 (None ≠ None)) by auto.
      simpl. rewrite Hx.
      rewrite bool_decide_eq_false_2; [reflexivity|].
      unfold merge_target in Hmt. intros Hlast.
      destruct (last_filled_spot v) as [l|]; [|discriminate].
      simpl in Hlast. rewrite Hlast, Z.eqb_refl in Hmt. discriminate.
  - split; [auto|]. reflexivity.
  - rewrite firstn_all2 in H; [exact H|].
    unfold values. rewrite length_fmap. lia.
Qed.

(** A line reports a move exactly when it is not blocked. *)
Lemma shift_locals_made_move sqs σ :
  ∃ v σ', shift_locals sqs σ = (Return v, σ')
          ∧ made_move v = negb (blocked (values σ sqs)).
Proof.
  destruct (shift_locals_total sqs σ) as (v & σ' & Hrun).
  exists v, σ'. split; [exact Hrun|].
  pose proof (shift_locals_scan _ _ _ _ Hrun) as Hscan.
  destruct (blocked (values σ sqs)) eqn:Hb.
  - apply blocked_scan in Hb. rewrite Hscan in Hb.
    destruct (made_move v); [|reflexivity].
    exfalso. exact (is_Some_None Hb).
  - destruct (made_move v); [reflexivity|].
    assert (blocked (values σ sqs) = true) as Hb'
      by (apply blocked_scan; rewrite Hscan; eauto).
    congruence.
Qed.

(** Once a line has reported a move, the loop reports it. *)
Lemma move_loop_made_move_true lines fin_all σ fin mm σ' :
  move_loop lines fin_all true σ = (Return (fin, mm), σ') → mm = true.
Proof.
  revert fin_all σ. induction lines as [|l ls IH]; intros f σ Hloop.
  - inversion Hloop. reflexivity.
  - destruct (shift_locals_total l σ) as (w & σ2 & Hw).
    rewrite (move_loop_cons _ _ _ _ _ _ _ Hw), orb_true_r in Hloop.
    eapply IH. exact Hloop.
Qed.

(** The loop reports a move exactly when some line is not blocked. *)
Lemma move_loop_made_move lines fin_all σ :
  ∃ fin σ',
    move_loop lines fin_all false σ
    = (Return (fin, negb (forallb (λ line, blocked (values σ line)) lines)),
       σ').
Proof.
  revert fin_all σ. induction lines as [|line lines IH]; intros fin_all σ.
  - eexists _, _. reflexivity.
  - destruct (shift_locals_made_move line σ) as (v & σ1 & Hrun & Hmm).
    rewrite (move_loop_cons _ _ _ _ _ _ _ Hrun), Hmm. cbn [forallb].
    destruct (blocked (values σ line)) eqn:Hb; simpl.
    + pose proof (shift_locals_unchanged _ _ _ _ Hrun) as Hu.
      rewrite Hmm in Hu. destruct (Hu eq_refl) as (-> & _ & _).
      apply IH.
    + destruct (move_loop_total lines (finished v || fin_all) true σ1)
        as (fin & mm & σ' & Hloop).
      exists fin, σ'. rewrite Hloop.
      rewrite (move_loop_made_move_true _ _ _ _ _ _ Hloop). reflexivity.
Qed.

(** X2: [_shift] reports a move exactly when the line is not blocked, that
    is when a tile has an empty square before it or two neighbouring tiles
    are equal; and the loop of [_move] reports one exactly when some line
    is not blocked. *)
Theorem shift_reports_move_iff_not_blocked :
  (∀ sqs σ, ∃ fin σ',
     _shift sqs σ = (Return (negb (blocked (values σ sqs)), fin), σ'))
  ∧ (∀ lines fin_all σ, ∃ fin σ',
       move_loop lines fin_all false σ
       = (Return (fin, negb (forallb (λ line, blocked (values σ line)) lines)),
          σ')).
Proof.
  split; [|exact move_loop_made_move].
  intros sqs σ. destruct (shift_locals_made_move sqs σ) as (v & σ' & Hrun & Hmm).
  exists (finished v), σ'.
  rewrite (shift_of_locals _ _ _ _ Hrun), Hmm. reflexivity.
Qed.

(** ** The weight of a line *)

Lemma weight_from_insert i vs j v old :
  vs !! j = Some old →
  weight_from i (<[j := v]> vs) + (if old is Some _ then S (i + j) else 0)
  = weight_from i vs + (if v is Some _ then S (i + j) else 0).
Proof.
  revert i j. induction vs as [|w vs IH]; intros i [|j] H; try discriminate;
    simpl in *.
  - inversion H; subst. rewrite Nat.add_0_r. destruct old, v; lia.
  - specialize (IH (S i) j H).
    replace (S i + j) with (i + S j) in IH by lia.
    destruct w, old, v; lia.
Qed.

Lemma weight_set_value σ (sqs : list loc) j l v :
  NoDup sqs → sqs !! j = Some l →
  weight (set_value σ l v) sqs + (if value σ l is Some _ then S j else 0)
  = weight σ sqs + (if v is Some _ then S j else 0).
Proof.
  intros Hnd Hj. unfold weight. rewrite (values_set_value _ _ j) by assumption.
  apply (weight_from_insert 0).
  unfold values. rewrite list_lookup_fmap, Hj. reflexivity.
Qed.

(** The merge and the shift both make the line lighter. *)
Lemma shift_locals_weight sqs σ v' σ' :
  NoDup sqs →
  shift_locals sqs σ = (Return v', σ') →
  weight σ' sqs ≤ weight σ sqs
  ∧ (made_move v' = true → weight σ' sqs < weight σ sqs).
Proof.
  intros Hnd Hrun.
  apply (shift_locals_inv
    (λ _ v τ, weight τ sqs ≤ weight σ sqs
              ∧ (made_move v = true → weight τ sqs < weight σ sqs))
    sqs σ v' σ'); [| |exact Hrun].
  - intros i spot v τ v1 τ1 Hspot [Hfe Hlast] [Hle Hlt] Hs.
    inversion Hs as [Hx | x last Hx Hl Hlv Hmg' | x last Hx Hl Hlv Hmg'
                    | x k target Hx Hmt Hk Ht | x Hx Hmt Hk];
      subst; rfe_fields; auto.
    + (* merge *)
      apply Hlast in Hl as Hin. apply list_elem_of_lookup in Hin as [j Hj].
      pose proof (weight_set_value τ sqs j last (Some (x + x)%Z) Hnd Hj) as H1.
      rewrite Hlv in H1.
      pose proof (weight_set_value (set_value τ last (Some (x + x)%Z)) sqs i
                    spot None Hnd Hspot) as H2.
      assert (∃ y, value (set_value τ last (Some (x + x)%Z)) spot = Some y)
        as [y Hy].
      { rewrite value_set_value. destruct (Nat.eqb spot last); eauto. }
      rewrite Hy in H2. split; [lia|]. intros _. lia.
    + (* shift *)
      assert (k < i) as Hki by (apply Hfe; exact Hk).
      pose proof (weight_set_value τ sqs k target (Some x) Hnd Ht) as H1.
      pose proof (weight_set_value (set_value τ target (Some x)) sqs i
                    spot None Hnd Hspot) as H2.
      assert (value (set_value τ target (Some x)) spot = Some x) as Hy.
      { rewrite value_set_value. destruct (Nat.eqb spot target); auto. }
      rewrite Hy in H2. split; [|intros _]; destruct (value τ target); lia.
  - split; [lia|discriminate].
Qed.

Lemma weight_ext σ τ (sqs : list loc) :
  (∀ l, l ∈ sqs → value σ l = value τ l) → weight σ sqs = weight τ sqs.
Proof. intros H. unfold weight. rewrite (values_ext σ τ); auto. Qed.

(** A line that got lighter has a square whose value changed. *)
Lemma lighter_changed σ τ (sqs : list loc) :
  weight τ sqs < weight σ sqs → ∃ l, l ∈ sqs ∧ value τ l ≠ value σ l.
Proof.
  intros Hlt.
  destruct (decide (Exists (λ l, value τ l ≠ value σ l) sqs)) as [He|Hne].
  - apply list.Exists_exists in He. exact He.
  - exfalso. apply not_Exists_Forall in Hne; [|intros l; apply _].
    rewrite (weight_ext τ σ) in Hlt; [lia|].
    intros l Hl. pose proof (proj1 (list.Forall_forall _ _) Hne l Hl) as H.
    simpl in H. destruct (decide (value τ l = value σ l)); tauto.
Qed.

(** X3: on a line without repeated squares, [_shift] reports a move exactly
    when it changed the value of some square of the line, and then the
    weight of the line went down; the loop of [_move] reports a move
    exactly when it changed some square of the grid. *)
Theorem made_move_iff_changed :
  (∀ sqs σ mm fin σ',
     NoDup sqs →
     _shift sqs σ = (Return (mm, fin), σ') →
     (mm = true ↔ weight σ' sqs < weight σ sqs)
     ∧ (mm = true ↔ ∃ l, l ∈ sqs ∧ value σ' l ≠ value σ l))
  ∧ (∀ lines fin_all σ fin mm σ',
       NoDup (concat lines) →
       move_loop lines fin_all false σ = (Return (fin, mm), σ') →
       (mm = true ↔ ∃ l, l ∈ concat lines ∧ value σ' l ≠ value σ l)).
Proof.
  assert (∀ sqs σ v σ',
            NoDup sqs → shift_locals sqs σ = (Return v, σ') →
            (made_move v = true ↔ weight σ' sqs < weight σ sqs)
            ∧ (made_move v = true
               ↔ ∃ l, l ∈ sqs ∧ value σ' l ≠ value σ l)) as Hline.
  { intros sqs σ v σ' Hnd Hrun.
    destruct (shift_locals_weight _ _ _ _ Hnd Hrun) as [_ Hlt].
    assert (made_move v = false → σ' = σ) as Hsame.
    { intros Hmm. apply (shift_locals_unchanged _ _ _ _ Hrun Hmm). }
    split; (split; [intros Hmm|intros Hch]).
    - auto.
    - destruct (made_move v); [reflexivity|].
      rewrite (Hsame eq_refl) in Hch. lia.
    - apply lighter_changed. auto.
    - destruct (made_move v); [reflexivity|].
      destruct Hch as (l & _ & Hl). rewrite (Hsame eq_refl) in Hl.
      contradiction. }
  split.
  - intros sqs σ mm fin σ' Hnd Hrun.
    destruct (shift_total sqs σ) as (v & σ1 & Hloc & Hs).
    rewrite Hs in Hrun. inversion Hrun; subst. apply Hline; assumption.
  - induction lines as [|line lines IH]; intros fin_all σ fin mm σ' Hnd Hloop.
    + inversion Hloop; subst. split; [discriminate|].
      intros (l & Hl & _). inversion Hl.
    + simpl in Hnd. apply list.NoDup_app in Hnd as (Hnd1 & Hdisj & Hnd2).
      destruct (shift_locals_total line σ) as (v & σ1 & Hv).
      rewrite (move_loop_cons _ _ _ _ _ _ _ Hv), orb_false_r in Hloop.
      destruct (Hline _ _ _ _ Hnd1 Hv) as [_ Hch].
      destruct (move_loop_frame _ _ _ _ _ _ _ Hloop) as [Hf _].
      destruct (made_move v) eqn:Hmm.
      * rewrite (move_loop_made_move_true _ _ _ _ _ _ Hloop).
        split; [intros _|reflexivity].
        destruct (proj1 Hch eq_refl) as (l & Hl & Hne).
        exists l. split; [simpl; apply elem_of_app; auto|].
        rewrite Hf; [exact Hne|]. apply Hdisj. exact Hl.
      * destruct (shift_locals_unchanged _ _ _ _ Hv Hmm) as (-> & _ & _).
        rewrite (IH _ _ _ _ _ Hnd2 Hloop). split.
        -- intros (l & Hl & Hne). exists l.
           split; [simpl; apply elem_of_app; auto|exact Hne].
        -- intros (l & Hl & Hne). exists l. split; [|exact Hne].
           simpl in Hl. apply elem_of_app in Hl as [Hl|Hl]; [|exact Hl].
           exfalso. apply Hne. apply Hf. apply Hdisj. exact Hl.
Qed.

Lemma made_move_iff_changed_witness :
  weight (_shift [0; 1; 2; 3] heap_2222).2 [0; 1; 2; 3]
  < weight heap_2222 [0; 1; 2; 3]
  ∧ ¬ ∃ l, l ∈ concat (squares grid4)
           ∧ value (move_loop (squares grid4) false false heap_full).2 l
             ≠ value heap_full l.
Proof.
  split.
  - assert (_shift [0; 1; 2; 3] heap_2222
            = (Return (true, false), (_shift [0; 1; 2; 3] heap_2222).2))
      as Hrun by (vm_compute; reflexivity).
    exact (proj1 (proj1 (proj1 made_move_iff_changed _ _ _ _ _
                           (NoDup_seq 0 4) Hrun)) eq_refl).
  - intros Hch.
    assert (move_loop (squares grid4) false false heap_full
            = (Return (false, false),
               (move_loop (squares grid4) false false heap_full).2))
      as Hrun by (vm_compute; reflexivity).
    pose proof (proj2 (proj2 made_move_iff_changed (squares grid4) false
                         heap_full false false _ (NoDup_seq 0 16) Hrun)
                  Hch) as H.
    discriminate H.
Defined.

(** ** The sum of the tiles *)

Lemma sum_tiles_nil σ : sum_tiles σ [] = 0%Z.
Proof. reflexivity. Qed.

Lemma sum_tiles_cons σ a (sqs : list loc) :
  sum_tiles σ (a :: sqs)
  = (match value σ a with Some x => x | None => 0 end + sum_tiles σ sqs)%Z.
Proof.
  unfold sum_tiles. rewrite tiles_cons. destruct (value σ a); reflexivity.
Qed.

Lemma sum_tiles_app σ (l1 l2 : list loc) :
  sum_tiles σ (l1 ++ l2) = (sum_tiles σ l1 + sum_tiles σ l2)%Z.
Proof.
  induction l1 as [|a l1 IH]; [reflexivity|].
  rewrite <- app_comm_cons, !sum_tiles_cons, IH. lia.
Qed.

Lemma sum_tiles_ext σ τ (sqs : list loc) :
  (∀ l, l ∈ sqs → value σ l = value τ l) → sum_tiles σ sqs = sum_tiles τ sqs.
Proof. intros H. unfold sum_tiles. rewrite (tiles_ext σ τ); auto. Qed.

Lemma sum_tiles_perm σ (l1 l2 : list loc) :
  l1 ≡ₚ l2 → sum_tiles σ l1 = sum_tiles σ l2.
Proof.
  induction 1 as [|a l1 l2 _ IH|a b l|l1 l2 l3 _ IH1 _ IH2];
    rewrite ?sum_tiles_cons; lia.
Qed.

Lemma sum_tiles_spawn σ (sqs : list loc) l x :
  NoDup sqs → l ∈ sqs → value σ l = None →
  sum_tiles (set_value σ l (Some x)) sqs = (sum_tiles σ sqs + x)%Z.
Proof.
  intros Hnd. induction Hnd as [|a sqs Ha Hnd IH]; intros Hl Hn.
  - inversion Hl.
  - rewrite !sum_tiles_cons.
    destruct (decide (l = a)) as [->|Hne].
    + rewrite value_set_value_eq, Hn.
      rewrite (sum_tiles_ext (set_value σ a (Some x)) σ sqs); [lia|].
      intros l Hl'. apply value_set_value_ne. intros ->. contradiction.
    + rewrite value_set_value_ne by auto.
      apply elem_of_cons in Hl as [?|Hl]; [contradiction|].
      rewrite (IH Hl Hn). lia.
Qed.

Ltac shift_sum :=
  shift_run; rewrite ?sum_tiles_cons, ?sum_tiles_nil; read_heap; lia.

(** On a line of at most four distinct squares the tiles keep their sum. *)
Lemma shift_locals_sum sqs σ :
  NoDup sqs → length sqs ≤ 4 →
  ∃ v' σ', shift_locals sqs σ = (Return v', σ')
    ∧ sum_tiles σ' sqs = sum_tiles σ sqs.
Proof.
  intros Hnd Hlen.
  destruct sqs as [|a [|b [|c [|d [|e sqs]]]]]; [| | | | |simpl in Hlen; lia];
    clear Hlen; distinct_squares.
  - shift_sum.
  - destruct (value σ a) eqn:Ha; shift_sum.
  - destruct (value σ a) eqn:Ha; destruct (value σ b) eqn:Hb; shift_sum.
  - destruct (value σ a) eqn:Ha; destruct (value σ b) eqn:Hb;
      destruct (value σ c) eqn:Hc; shift_sum.
  - destruct (value σ a) eqn:Ha; destruct (value σ b) eqn:Hb;
      destruct (value σ c) eqn:Hc; destruct (value σ d) eqn:Hd; shift_sum.
Qed.

Lemma move_loop_sum lines fin_all mm_all σ fin mm σ' :
  NoDup (concat lines) →
  Forall (λ line, length line ≤ 4) lines →
  move_loop lines fin_all mm_all σ = (Return (fin, mm), σ') →
  sum_tiles σ' (concat lines) = sum_tiles σ (concat lines).
Proof.
  revert fin_all mm_all σ.
  induction lines as [|line lines IH]; intros fin_all mm_all σ Hnd Hall H.
  - inversion H; subst. reflexivity.
  - simpl in Hnd. apply list.NoDup_app in Hnd as (Hnd1 & Hdisj & Hnd2).
    inversion Hall as [|? ? Hlen Hall']; subst.
    destruct (shift_locals_sum line σ Hnd1 Hlen) as (v & σ1 & Hv & Hc).
    rewrite (move_loop_cons _ _ _ _ _ _ _ Hv) in H.
    pose proof (IH _ _ _ Hnd2 Hall' H) as Hrest.
    destruct (move_loop_frame _ _ _ _ _ _ _ H) as [Hf _].
    destruct (shift_locals_frame _ _ _ _ Hv) as [Hf1 _].
    cbn [concat]. rewrite !sum_tiles_app.
    rewrite (sum_tiles_ext σ' σ1 line)
      by (intros l Hl; apply Hf; apply Hdisj; exact Hl).
    rewrite Hrest, Hc. f_equal.
    apply sum_tiles_ext. intros l Hl. apply Hf1.
    intros Hl'. exact (Hdisj l Hl' Hl).
Qed.

(** X5: on lines of at most four squares the loop of [_move] keeps the sum
    of the tiles, and the whole action adds 2 to it when it moved something
    without reaching the goal, and nothing otherwise. *)
Theorem move_keeps_sum a self choice σ lines σ0 fin mm σ1 :
  NoDup (cells self) →
  lines_of a self σ = (Return lines, σ0) →
  Forall (λ line, length line ≤ 4) lines →
  move_loop lines false false σ = (Return (fin, mm), σ1) →
  sum_tiles σ1 (cells self) = sum_tiles σ (cells self)
  ∧ sum_tiles (apply_action a self choice σ).2 (cells self)
    = (sum_tiles σ (cells self)
       + if fin then 0 else if mm then 2 else 0)%Z.
Proof.
  intros Hnd Hl Hall Hloop.
  destruct (apply_action_cases a self choice σ)
    as [[Hl' _]|(lines' & Hl' & Hp & ->)]; rewrite Hl in Hl'; [discriminate|].
  inversion Hl'; subst lines' σ0. clear Hl'.
  assert (∀ l, l ∈ concat lines → l ∈ cells self) as Hsub.
  { intros l Hin. rewrite <- Hp. exact Hin. }
  assert (sum_tiles σ1 (cells self) = sum_tiles σ (cells self)) as Hsum.
  { rewrite <- !(sum_tiles_perm _ _ _ Hp).
    eapply move_loop_sum; [|exact Hall|exact Hloop].
    rewrite Hp. exact Hnd. }
  split; [exact Hsum|].
  destruct (move_spec self lines choice σ Hsub)
    as (fin' & mm' & σ2 & Hloop' & Hm).
  rewrite Hloop in Hloop'. inversion Hloop'; subst fin' mm' σ2. clear Hloop'.
  destruct Hm as [[-> ->]|[(-> & -> & l & Hin & Hn & ->)|(-> & -> & _ & ->)]];
    cbn [snd].
  - rewrite Hsum. lia.
  - rewrite sum_tiles_spawn by assumption. rewrite Hsum. reflexivity.
  - lia.
Qed.

Lemma move_keeps_sum_witness :
  sum_tiles (move_loop (squares grid4) false false heap_pairs).2 (cells grid4)
  = sum_tiles heap_pairs (cells grid4)
  ∧ sum_tiles (apply_action Left grid4 0 heap_pairs).2 (cells grid4)
    = (sum_tiles heap_pairs (cells grid4) + 2)%Z.
Proof.
  apply (move_keeps_sum Left grid4 0 heap_pairs (squares grid4) heap_pairs
           false true (move_loop (squares grid4) false false heap_pairs).2).
  - apply (NoDup_seq 0 16).
  - reflexivity.
  - repeat constructor.
  - vm_compute. reflexivity.
Defined.

(** ** A line depends on its own squares only *)

(** One iteration on two heaps that agree on the line. *)
Lemma shift_body_ext sqs i spot v σ τ :
  sqs !! i = Some spot →
  locals_ok sqs i v →
  (∀ l, l ∈ sqs → value σ l = value τ l) →
  ∃ v' σ' τ',
    shift_body sqs i spot v σ = (Return v', σ')
    ∧ shift_body sqs i spot v τ = (Return v', τ')
    ∧ locals_ok sqs (S i) v'
    ∧ (∀ l, l ∈ sqs → value σ' l = value τ' l).
Proof.
  intros Hspot Hok Hagree.
  destruct (shift_body_step sqs i spot v σ Hspot Hok)
    as (v' & σ' & Hb & Hs & Hok').
  exists v', σ'.
  assert (spot ∈ sqs) as Hin by (eapply list_elem_of_lookup_2; eauto).
  assert (∀ l w, (∀ l', l' ∈ sqs →
                    value (set_value σ l w) l' = value (set_value τ l w) l'))
    as Hset1.
  { intros l w l' Hl'. rewrite !value_set_value.
    destruct (Nat.eqb l' l); auto. }
  assert (∀ l1 w1 l2 w2 l', l' ∈ sqs →
            value (set_value (set_value σ l1 w1) l2 w2) l'
            = value (set_value (set_value τ l1 w1) l2 w2) l') as Hset2.
  { intros l1 w1 l2 w2 l' Hl'. rewrite !value_set_value.
    destruct (Nat.eqb l' l2); [reflexivity|].
    destruct (Nat.eqb l' l1); auto. }
  assert (∀ x, merge_target τ v x = merge_target σ v x) as Hmt.
  { intros x. unfold merge_target.
    destruct (last_filled_spot v) as [l|] eqn:Hl; [|reflexivity].
    rewrite (Hagree l); [reflexivity|]. apply Hok. exact Hl. }
  unfold shift_body in *. rewrite <- (Hagree spot Hin).
  destruct (value σ spot) as [x|] eqn:Hx.
  - rewrite Hmt.
    destruct (merge_target σ v x) as [[last y]|] eqn:Hm.
    + destruct (merged v).
      * inversion Hb; subst. eauto 10.
      * rewrite !value_set_value_eq in *. inversion Hb; subst.
        eexists. split; [reflexivity|]. split; [reflexivity|].
        split; [exact Hok'|]. intros l Hl. apply Hset2. exact Hl.
    + destruct (first_empty_spot v) as [k|].
      * destruct (sqs !! k) as [target|]; [|discriminate].
        inversion Hb; subst.
        eexists. split; [reflexivity|]. split; [reflexivity|].
        split; [exact Hok'|]. intros l Hl. apply Hset2. exact Hl.
      * inversion Hb; subst. eauto 10.
  - inversion Hb; subst. eauto 10.
Qed.

Lemma shift_loop_ext sqs rest pre v σ τ :
  sqs = pre ++ rest →
  locals_ok sqs (length pre) v →
  (∀ l, l ∈ sqs → value σ l = value τ l) →
  ∃ v' σ' τ',
    shift_loop sqs (length pre) rest v σ = (Return v', σ')
    ∧ shift_loop sqs (length pre) rest v τ = (Return v', τ')
    ∧ (∀ l, l ∈ sqs → value σ' l = value τ' l).
Proof.
  revert pre v σ τ. induction rest as [|spot rest IH];
    intros pre v σ τ Hsq Hok Hagree.
  - eexists _, _, _. split; [reflexivity|]. split; [reflexivity|exact Hagree].
  - assert (sqs !! length pre = Some spot) as Hspot.
    { rewrite Hsq. rewrite lookup_app_r by lia.
      replace (length pre - length pre) with 0 by lia. reflexivity. }
    destruct (shift_body_ext sqs (length pre) spot v σ τ Hspot Hok Hagree)
      as (v1 & σ1 & τ1 & Hb1 & Hb2 & Hok1 & Hagree1).
    rewrite !shift_loop_cons, Hb1, Hb2.
    specialize (IH (pre ++ [spot]) v1 σ1 τ1).
    rewrite length_app in IH. simpl in IH.
    replace (length pre + 1) with (S (length pre)) in IH by lia.
    apply IH; auto. rewrite Hsq, <- app_assoc. reflexivity.
Qed.

(** What [_shift] reports and the values it leaves on a line depend only on
    the values the squares of the line had. *)
Lemma shift_locals_ext sqs σ τ :
  (∀ l, l ∈ sqs → value σ l = value τ l) →
  ∃ v' σ' τ',
    shift_locals sqs σ = (Return v', σ')
    ∧ shift_locals sqs τ = (Return v', τ')
    ∧ (∀ l, l ∈ sqs → value σ' l = value τ' l).
Proof.
  intros Hagree. unfold shift_locals.
  apply (shift_loop_ext sqs sqs [] locals0 σ τ); auto.
  split; intros ? [=].
Qed.

(** X4: the lines of a grid do not influence one another: when no square
    is on two lines, the loop of [_move] leaves on every line the values
    that [_shift] alone gives it from the grid before the move, and reports
    a move or the goal whenever that line does. *)
Theorem lines_are_independent lines above line below fin_all mm_all σ :
  lines = above ++ line :: below →
  NoDup (concat lines) →
  ∃ fin mm σ' mm1 fin1 σ1,
    move_loop lines fin_all mm_all σ = (Return (fin, mm), σ')
    ∧ _shift line σ = (Return (mm1, fin1), σ1)
    ∧ values σ' line = values σ1 line
    ∧ (mm1 = true → mm = true) ∧ (fin1 = true → fin = true).
Proof.
  intros -> Hnd. rewrite concat_app in Hnd. simpl in Hnd.
  apply list.NoDup_app in Hnd as (_ & Hd1 & Hnd).
  apply list.NoDup_app in Hnd as (_ & Hd2 & _).
  destruct (move_loop_total above fin_all mm_all σ) as (f1 & m1 & τ & H1).
  destruct (move_loop_frame _ _ _ _ _ _ _ H1) as [Hf1 _].
  destruct (shift_locals_ext line σ τ) as (v & σ1 & τ1 & Hσ & Hτ & Hagree).
  { intros l Hl. symmetry. apply Hf1. intros Hl'.
    apply (Hd1 l Hl'). apply elem_of_app. auto. }
  destruct (move_loop_total below (finished v || f1) (made_move v || m1) τ1)
    as (fin & mm & σ' & H2).
  destruct (move_loop_frame _ _ _ _ _ _ _ H2) as [Hf2 _].
  exists fin, mm, σ', (made_move v), (finished v), σ1.
  split.
  { rewrite (move_loop_app _ _ _ _ _ _ _ _ H1).
    rewrite (move_loop_cons _ _ _ _ _ _ _ Hτ). exact H2. }
  split; [apply shift_of_locals; exact Hσ|]. split.
  { apply values_ext. intros l Hl. rewrite Hf2, Hagree; auto. }
  assert (∀ ls f m ρ f' m' ρ',
            move_loop ls f m ρ = (Return (f', m'), ρ') →
            (m = true → m' = true) ∧ (f = true → f' = true)) as Hmono.
  { clear. induction ls as [|l ls IH]; intros f m ρ f' m' ρ' H.
    - inversion H; subst. auto.
    - destruct (shift_locals_total l ρ) as (w & ρ1 & Hw).
      rewrite (move_loop_cons _ _ _ _ _ _ _ Hw) in H.
      apply IH in H as [Hm Hf]. split; intros ->; [apply Hm|apply Hf];
        apply orb_true_r. }
  apply Hmono in H2 as [Hm Hf]. split; intros Hv; rewrite Hv in *; auto.
Qed.

Lemma lines_are_independent_witness :
  ∃ fin mm σ' mm1 fin1 σ1,
    move_loop (squares grid4) false false heap_goal = (Return (fin, mm), σ')
    ∧ _shift [4; 5; 6; 7] heap_goal = (Return (mm1, fin1), σ1)
    ∧ values σ' [4; 5; 6; 7] = values σ1 [4; 5; 6; 7]
    ∧ (mm1 = true → mm = true) ∧ (fin1 = true → fin = true).
Proof.
  apply (lines_are_independent (squares grid4) [[0; 1; 2; 3]] [4; 5; 6; 7]
           [[8; 9; 10; 11]; [12; 13; 14; 15]] false false heap_goal).
  - reflexivity.
  - apply (NoDup_seq 0 16).
Defined.

(** ** The goal bounds the tiles *)

Lemma tile_ok_below_goal x :
  tile_ok x → (x ≤ 1024)%Z →
  tile_ok (x + x) ∧ (x + x ≤ GOAL)%Z
  ∧ ((x + x =? GOAL)%Z = false → (x + x ≤ 1024)%Z).
Proof.
  intros Hok Hle. split; [apply tile_ok_double; exact Hok|].
  unfold GOAL. split; [lia|]. intros Hne%Z.eqb_neq.
  destruct Hok as (k & Hk & ->).
  destruct (decide (k ≤ 9)) as [Hk9|Hk9].
  - assert (2 ^ Z.of_nat k ≤ 2 ^ 9)%Z by (apply Z.pow_le_mono_r; lia).
    change (2 ^ 9)%Z with 512%Z in *. lia.
  - assert (2 ^ 10 ≤ 2 ^ Z.of_nat k)%Z by (apply Z.pow_le_mono_r; lia).
    change (2 ^ 10)%Z with 1024%Z in *. lia.
Qed.

(** On a line: tiles from 2 to 1024 stay so unless the line reports the
    goal, and never exceed the goal. *)
Lemma shift_locals_upto (all : list loc) sqs σ v' σ' :
  (∀ l, l ∈ sqs → l ∈ all) →
  tiles_upto 1024 σ all →
  shift_locals sqs σ = (Return v', σ') →
  tiles_upto GOAL σ' all
  ∧ (finished v' = false → tiles_upto 1024 σ' all).
Proof.
  intros Hsub H0 Hrun.
  pose proof (shift_locals_inv
    (λ _ v τ,
       tiles_upto GOAL τ all
       ∧ (merged v = false → tiles_upto 1024 τ all)
       ∧ (finished v = false → tiles_upto 1024 τ all)
       ∧ (finished v = true → merged v = true))
    sqs σ v' σ') as H.
  destruct H as [(H1 & _ & H3 & H4) _]; [| |exact Hrun|].
  - intros i spot v τ v1 τ1 Hspot [_ Hlast] (I1 & I2 & I3 & I4) Hs.
    assert (spot ∈ sqs) as Hin by (eapply list_elem_of_lookup_2; eauto).
    inversion Hs as [Hx | x last Hx Hl Hlv Hmg' | x last Hx Hl Hlv Hmg'
                    | x k target Hx Hmt Hk Ht | x Hx Hmt Hk];
      subst; rfe_fields; auto.
    + (* merge *)
      destruct (I2 Hmg' last x) as [Hok Hle]; auto.
      destruct (tile_ok_below_goal x Hok Hle) as (Hok2 & Hle2 & Hne2).
      assert (∀ limit, (limit = GOAL ∨ (x + x ≤ limit)%Z) → (1024 ≤ limit)%Z →
                tiles_upto limit
                  (set_value (set_value τ last (Some (x + x)%Z)) spot None)
                  all) as Hnew.
      { intros limit Htop Hge l y Hl'. rewrite !value_set_value.
        destruct (Nat.eqb l spot); [discriminate|].
        destruct (Nat.eqb l last).
        - intros [= <-]. split; [exact Hok2|]. destruct Htop; subst; lia.
        - intros Hy. destruct (I2 Hmg' l y Hl' Hy). split; [auto|lia]. }
      split; [apply Hnew; auto; unfold GOAL; lia|].
      split; [discriminate|]. split; [|auto].
      destruct (x + x =? GOAL)%Z eqn:Hg; [discriminate|].
      intros _. apply Hnew; [right; auto|lia].
    + (* shift *)
      assert (∀ limit, tiles_upto limit τ all →
                tiles_upto limit
                  (set_value (set_value τ target (Some x)) spot None) all)
        as Hnew.
      { intros limit Htop l y Hl'. rewrite !value_set_value.
        destruct (Nat.eqb l spot); [discriminate|].
        destruct (Nat.eqb l target).
        - intros [= <-]. apply (Htop spot); auto.
        - apply Htop. exact Hl'. }
      split; [auto|]. split; [auto|]. split; auto.
  - split; [|split; [auto|split; [auto|discriminate]]].
    intros l x Hl Hx. destruct (H0 l x Hl Hx). unfold GOAL. split; [auto|lia].
  - split; [exact H1|exact H3].
Qed.

Lemma tiles_upto_weaken σ (sqs : list loc) :
  tiles_upto 1024 σ sqs → tiles_upto GOAL σ sqs.
Proof.
  intros H l x Hl Hx. destruct (H l x Hl Hx). unfold GOAL. split; [auto|lia].
Qed.

Lemma move_loop_upto (all : list loc) lines fin_all mm_all σ fin mm σ' :
  NoDup (concat lines) →
  (∀ l, l ∈ concat lines → l ∈ all) →
  tiles_upto GOAL σ all →
  tiles_upto 1024 σ (concat lines) →
  (fin_all = false → tiles_upto 1024 σ all) →
  move_loop lines fin_all mm_all σ = (Return (fin, mm), σ') →
  tiles_upto GOAL σ' all ∧ (fin = false → tiles_upto 1024 σ' all).
Proof.
  revert fin_all mm_all σ.
  induction lines as [|line lines IH];
    intros fin_all mm_all σ Hnd Hsub Hgoal Hlines Hall H.
  - inversion H; subst. auto.
  - simpl in Hnd. apply list.NoDup_app in Hnd as (Hnd1 & Hdisj & Hnd2).
    destruct (shift_locals_total line σ) as (v & σ1 & Hv).
    rewrite (move_loop_cons _ _ _ _ _ _ _ Hv) in H.
    destruct (shift_locals_frame _ _ _ _ Hv) as [Hf1 _].
    assert (∀ l, l ∈ line → l ∈ all) as Hsub1.
    { intros l Hl. apply Hsub. simpl. apply elem_of_app. auto. }
    assert (∀ l, l ∈ concat lines → l ∈ all) as Hsub2.
    { intros l Hl. apply Hsub. simpl. apply elem_of_app. auto. }
    assert (tiles_upto 1024 σ line) as Hline.
    { intros l x Hl. apply Hlines. simpl. apply elem_of_app. auto. }
    destruct (shift_locals_upto line line σ v σ1 (λ l H, H) Hline Hv)
      as [Hg1 _].
    eapply IH; [exact Hnd2|exact Hsub2| | | |exact H].
    + intros l x Hl Hx. destruct (decide (l ∈ line)) as [Hin|Hnin].
      * exact (Hg1 l x Hin Hx).
      * rewrite Hf1 in Hx by exact Hnin. exact (Hgoal l x Hl Hx).
    + intros l x Hl Hx. rewrite Hf1 in Hx.
      * apply (Hlines l x); [simpl; apply elem_of_app; auto|exact Hx].
      * intros Hl'. exact (Hdisj l Hl' Hl).
    + intros [Hfv ->]%orb_false_iff.
      apply (shift_locals_upto all line σ v σ1 Hsub1 (Hall eq_refl) Hv).
      exact Hfv.
Qed.

Lemma apply_action_upto a self choice σ :
  NoDup (cells self) →
  tiles_upto 1024 σ (cells self) →
  tiles_upto GOAL (apply_action a self choice σ).2 (cells self)
  ∧ ((apply_action a self choice σ).1 ≠ Raise GameFinishedException →
     tiles_upto 1024 (apply_action a self choice σ).2 (cells self)).
Proof.
  intros Hnd H0.
  destruct (apply_action_cases a self choice σ)
    as [[_ ->]|(lines & _ & Hp & ->)].
  { simpl. split; [apply tiles_upto_weaken|]; auto. }
  assert (∀ l, l ∈ concat lines → l ∈ cells self) as Hsub.
  { intros l Hin. rewrite <- Hp. exact Hin. }
  destruct (move_spec self lines choice σ Hsub)
    as (fin & mm & σ1 & Hloop & Hm).
  destruct (move_loop_upto (cells self) lines false false σ fin mm σ1)
    as [Hg Hc]; auto.
  { rewrite Hp. exact Hnd. }
  { apply tiles_upto_weaken. exact H0. }
  { intros l x Hl. apply H0. auto. }
  assert (∀ limit τ l, (2 ≤ limit)%Z → tiles_upto limit τ (cells self) →
            tiles_upto limit (set_value τ l (Some 2%Z)) (cells self)) as Hspawn.
  { intros limit τ l Htop Hτ l' x Hl'. rewrite value_set_value.
    destruct (Nat.eqb l' l).
    - intros [= <-]. split; [apply tile_ok_2|lia].
    - apply Hτ. exact Hl'. }
  destruct Hm as [[-> ->]|[(-> & _ & l & _ & _ & ->)|(-> & _ & -> & ->)]];
    simpl.
  - split; [exact Hg|]. intros H. contradiction.
  - split; [apply Hspawn; [unfold GOAL; lia|exact Hg]|].
    intros _. apply Hspawn; [lia|auto].
  - split; [exact Hg|auto].
Qed.

(** X6: when every tile is a power of two up to 1024, an action leaves
    every tile a power of two up to [GOAL], and up to 1024 again unless it
    raises [GameFinishedException]. *)
Theorem move_keeps_tiles_below_goal a self choice σ :
  NoDup (cells self) →
  tiles_upto 1024 σ (cells self) →
  tiles_upto GOAL (apply_action a self choice σ).2 (cells self)
  ∧ ((apply_action a self choice σ).1 ≠ Raise GameFinishedException →
     tiles_upto 1024 (apply_action a self choice σ).2 (cells self)).
Proof. apply apply_action_upto. Qed.

Lemma move_keeps_tiles_below_goal_witness :
  tiles_upto GOAL (apply_action Left grid4 0 heap_goal).2 (cells grid4)
  ∧ ((apply_action Left grid4 0 heap_goal).1 ≠ Raise GameFinishedException →
     tiles_upto 1024 (apply_action Left grid4 0 heap_goal).2 (cells grid4)).
Proof.
  apply (move_keeps_tiles_below_goal Left grid4 0 heap_goal).
  - apply (NoDup_seq 0 16).
  - intros l x Hl Hx. apply list_elem_of_In in Hl. simpl in Hl.
    repeat (destruct Hl as [<-|Hl]; [vm_compute in Hx|]);
      try contradiction; try discriminate Hx;
      injection Hx as <-;
      (split; [|lia]);
      first [exists 1; split; [lia|reflexivity]
            |exists 2; split; [lia|reflexivity]
            |exists 10; split; [lia|reflexivity]].
Defined.

(** ** Columns are the transposed rows *)

Lemma columns_of_row_lookup columns i row σ columns' σ' :
  columns_of_row columns i row σ = (Return columns', σ') →
  length columns' = length columns
  ∧ ∀ j c, columns !! j = Some c →
      columns' !! j
      = Some (c ++ option_list (if decide (i ≤ j) then row !! (j - i)
                                else None)).
Proof.
  revert columns i. induction row as [|spot row IH]; intros columns i H.
  - inversion H; subst. split; [reflexivity|]. intros j c Hc.
    rewrite Hc. case_decide; simpl; rewrite app_nil_r; reflexivity.
  - simpl in H. rewrite bind_unfold in H.
    destruct (append_column_spec columns i spot σ) as [(c0 & Hc0 & Ha)|[_ Ha]];
      rewrite Ha in H; [|discriminate].
    destruct (IH _ _ H) as [Hlen IH']. rewrite length_insert in Hlen.
    split; [exact Hlen|]. intros j c Hc.
    destruct (decide (j = i)) as [->|Hne].
    + rewrite (IH' i (c0 ++ [spot])).
      * rewrite decide_False by lia. rewrite decide_True by lia.
        replace (i - i) with 0 by lia. simpl.
        rewrite Hc0 in Hc. inversion Hc; subst. rewrite app_nil_r.
        reflexivity.
      * apply list_lookup_insert_eq. eapply lookup_lt_Some. exact Hc0.
    + rewrite (IH' j c) by (rewrite list_lookup_insert_ne; auto).
      destruct (decide (i ≤ j)) as [Hle|Hgt].
      * rewrite decide_True by lia.
        replace (j - i) with (S (j - S i)) by lia. reflexivity.
      * rewrite decide_False by lia. reflexivity.
Qed.

Lemma columns_of_rows_lookup columns rows σ columns' σ' :
  columns_of_rows columns rows σ = (Return columns', σ') →
  length columns' = length columns
  ∧ ∀ j c, columns !! j = Some c →
      columns' !! j = Some (c ++ omap (λ row, row !! j) rows).
Proof.
  revert columns σ. induction rows as [|row rows IH]; intros columns σ H.
  - inversion H; subst. split; [reflexivity|]. intros j c ->.
    simpl. rewrite app_nil_r. reflexivity.
  - simpl in H. rewrite bind_unfold in H.
    destruct (columns_of_row columns 0 row σ) as [[columns1|e] σ1] eqn:Hrow;
      [|discriminate].
    destruct (columns_of_row_lookup _ _ _ _ _ _ Hrow) as [Hlen1 Hrow'].
    destruct (IH _ _ H) as [Hlen IH']. split; [congruence|].
    intros j c Hc. rewrite (IH' j _ (Hrow' j c Hc)).
    rewrite decide_True by lia. rewrite Nat.sub_0_r, <- app_assoc.
    f_equal. f_equal. change (omap (λ row0, row0 !! j) (row :: rows))
      with (match row !! j with
            | Some y => y :: omap (λ row0 : list loc, row0 !! j) rows
            | None => omap (λ row0 : list loc, row0 !! j) rows
            end).
    destruct (row !! j); reflexivity.
Qed.

(** A row longer than the list of columns makes the loop raise. *)
Lemma columns_of_rows_overflow columns rows σ :
  Exists (λ row, length columns < length row) rows →
  columns_of_rows columns rows σ = (Raise IndexError, σ).
Proof.
  revert columns. induction rows as [|row rows IH]; intros columns Hex.
  - inversion Hex.
  - simpl. rewrite bind_unfold.
    destruct (le_lt_dec (length row) (length columns)) as [Hle|Hgt].
    + destruct (columns_of_row_fits columns 0 row σ) as (cs & Hr & Hl & _);
        [simpl; lia|].
      rewrite Hr. apply IH. rewrite Hl.
      inversion Hex; subst; [lia|assumption].
    + rewrite (columns_of_row_overflow columns 0 row σ) by lia. reflexivity.
Qed.

Lemma omap_lookup_column (rows : list (list loc)) i j :
  Forall (λ row, j < length row) rows →
  omap (λ row, row !! j) rows !! i = rows !! i ≫= (λ row, row !! j).
Proof.
  revert i. induction rows as [|row rows IH]; intros i Hall; [reflexivity|].
  inversion Hall as [|? ? Hrow Hrows]; subst.
  destruct (lookup_lt_is_Some_2 row j Hrow) as [y Hy].
  change (omap (λ row0, row0 !! j) (row :: rows))
    with (match row !! j with
          | Some y => y :: omap (λ row0 : list loc, row0 !! j) rows
          | None => omap (λ row0 : list loc, row0 !! j) rows
          end).
  rewrite Hy. destruct i as [|i]; simpl; [exact (eq_sym Hy)|].
  apply IH. exact Hrows.
Qed.

(** X7: [_get_columns] raises [IndexError] when some row is longer than the
    number of rows; when no row is, it returns as many columns as there are
    rows, column [j] holding square [j] of every row that has one, so that
    on rows of one length the square [i] of column [j] is the square [j] of
    row [i]. *)
Theorem get_columns_transposes self σ :
  (Exists (λ row, length (squares self) < length row) (squares self) →
   _get_columns self σ = (Raise IndexError, σ))
  ∧ (Forall (λ row, length row ≤ length (squares self)) (squares self) →
     ∃ columns,
       _get_columns self σ = (Return columns, σ)
       ∧ length columns = length (squares self)
       ∧ (∀ j, j < length (squares self) →
            columns !! j = Some (omap (λ row, row !! j) (squares self)))
       ∧ (∀ height i j,
            Forall (λ row, length row = height) (squares self) →
            j < height →
            columns !! j ≫= (λ column, column !! i)
            = squares self !! i ≫= (λ row, row !! j))).
Proof.
  split.
  - intros Hex. unfold _get_columns. apply columns_of_rows_overflow.
    rewrite length_fmap. exact Hex.
  - intros Hall. unfold _get_columns.
    destruct (columns_of_rows_fit ((λ _, []) <$> squares self)
                (squares self) σ) as (cs & Hr & Hlen & _).
    { rewrite length_fmap. exact Hall. }
    exists cs. split; [exact Hr|]. rewrite length_fmap in Hlen.
    split; [exact Hlen|].
    destruct (columns_of_rows_lookup _ _ _ _ _ Hr) as [_ Hlook].
    assert (∀ j, j < length (squares self) →
              cs !! j = Some (omap (λ row, row !! j) (squares self))) as Hcol.
    { intros j Hj. apply (Hlook j []).
      rewrite list_lookup_fmap.
      destruct (lookup_lt_is_Some_2 (squares self) j Hj) as [row ->].
      reflexivity. }
    split; [exact Hcol|].
    intros height i j Hh Hj.
    destruct (decide (length (squares self) = 0)) as [H0|Hn0].
    { destruct (squares self); [|discriminate]. simpl in *.
      destruct cs; [|discriminate]. reflexivity. }
    assert (j < length (squares self)) as Hjw.
    { destruct (squares self) as [|row rows]; [simpl in Hn0; lia|].
      inversion Hall as [|? ? Hrow _]; inversion Hh as [|? ? Hrow' _]; subst.
      simpl in *. lia. }
    rewrite (Hcol j Hjw). simpl. apply omap_lookup_column.
    eapply Forall_impl; [|exact Hh]. simpl. intros row ->. exact Hj.
Qed.

Lemma get_columns_transposes_witness :
  _get_columns {| _width := 1; _height := 2; squares := [[0; 1]] |} heap_2222
  = (Raise IndexError, heap_2222)
  ∧ ∃ columns,
      _get_columns grid4 heap_full = (Return columns, heap_full)
      ∧ columns !! 1 ≫= (λ column, column !! 2) = Some 9.
Proof.
  split.
  - apply (proj1 (get_columns_transposes
                    {| _width := 1; _height := 2; squares := [[0; 1]] |}
                    heap_2222)).
    constructor. simpl. lia.
  - destruct (proj2 (get_columns_transposes grid4 heap_full))
      as (columns & Hrun & _ & _ & Hsq).
    + repeat constructor.
    + exists columns. split; [exact Hrun|].
      apply (Hsq 4 2 1); [repeat constructor|lia].
Defined.

(** ** When the constructor fails *)

(** X8: the constructor raises [GameOverException] exactly when the grid has
    fewer than two squares. *)
Theorem Grid_init_fails_iff width height choice1 choice2 σ0 :
  (Grid_init width height choice1 choice2 σ0).1 = Raise GameOverException
  ↔ width * height < 2.
Proof.
  split.
  - intros H. destruct (le_lt_dec 2 (width * height)) as [Hge|Hlt]; [|exact Hlt].
    destruct (Grid_init_succeeds width height choice1 choice2 σ0 Hge)
      as (self & σ & Hs).
    rewrite Hs in H. discriminate.
  - intros Hlt.
    destruct (init_squares_spec width height σ0)
      as (sqs & σ1 & Hi & Hlen & Hall & Hcat & Hv).
    rewrite (Grid_init_unfold _ _ _ _ _ _ _ Hi). cbv zeta.
    set (self0 := {| _width := width; _height := height; squares := sqs |}).
    destruct (new_square_spec self0 choice1 σ1)
      as [[H1 _]|(l1 & Hl1 & Hn1 & H1)]; rewrite H1; [reflexivity|].
    destruct (new_square_spec self0 choice2 (set_value σ1 l1 (Some 2%Z)))
      as [[H2 _]|(l2 & Hl2 & Hn2 & H2)]; rewrite H2; [reflexivity|].
    exfalso. unfold cells in Hl1, Hl2. simpl in Hl1, Hl2.
    rewrite Hcat in Hl1, Hl2.
    apply elem_of_seq in Hl1. apply elem_of_seq in Hl2.
    assert (l2 = l1) as -> by lia.
    rewrite value_set_value_eq in Hn2. discriminate.
Qed.

Lemma Grid_init_fails_iff_witness :
  (Grid_init 1 1 0 0 (heap_of [])).1 = Raise GameOverException.
Proof. apply (proj2 (Grid_init_fails_iff 1 1 0 0 (heap_of []))). simpl. lia. Defined.

(** ** The candidates of the spawn *)

Lemma count_tiles_filter σ (sqs : list loc) :
  length (filter (λ y, value σ y = None) sqs) + count_tiles σ sqs
  = length sqs.
Proof.
  induction sqs as [|a sqs IH]; [reflexivity|].
  rewrite filter_cons, count_tiles_cons. simpl.
  destruct (value σ a) eqn:Ha.
  - rewrite decide_False by discriminate. lia.
  - rewrite decide_True by reflexivity. simpl. lia.
Qed.

(** X9: the candidates of [_new_square] are exactly the squares of the grid
    without a value, as many as the grid has squares without tiles; it
    raises [GameOverException] exactly when the grid is full, and then
    assigns nothing; and every empty square is the one some draw fills
    with a 2. *)
Theorem new_square_candidates self σ :
  (∀ l, l ∈ _get_empty_squares self σ ↔ l ∈ cells self ∧ value σ l = None)
  ∧ length (_get_empty_squares self σ) + count_tiles σ (cells self)
    = length (cells self)
  ∧ (∀ choice,
       (_new_square self choice σ).1 = Raise GameOverException
       ↔ count_tiles σ (cells self) = length (cells self))
  ∧ (∀ choice,
       (_new_square self choice σ).1 = Raise GameOverException →
       (_new_square self choice σ).2 = σ)
  ∧ (∀ l, l ∈ cells self → value σ l = None →
       ∃ choice,
         _new_square self choice σ
         = (Return tt, set_value σ l (Some 2%Z))).
Proof.
  pose proof (count_tiles_filter σ (cells self)) as Hcount.
  split; [apply elem_of_get_empty_squares|].
  split; [exact Hcount|].
  fold (cells self) in Hcount.
  change (filter (λ y, value σ y = None) (cells self))
    with (_get_empty_squares self σ) in Hcount.
  split; [|split].
  - intros choice. unfold _new_square.
    destruct (_get_empty_squares self σ) as [|e es] eqn:E; simpl in *.
    + split; [intros _; lia|reflexivity].
    + split; [discriminate|lia].
  - intros choice. unfold _new_square.
    destruct (_get_empty_squares self σ) as [|e es]; [reflexivity|].
    discriminate.
  - intros l Hl Hn.
    assert (l ∈ _get_empty_squares self σ) as Hin
      by (apply elem_of_get_empty_squares; auto).
    apply list_elem_of_lookup in Hin as [k Hk].
    exists k. unfold _new_square.
    destruct (_get_empty_squares self σ) as [|e es] eqn:E; [discriminate|].
    apply lookup_lt_Some in Hk as Hlt.
    rewrite Nat.mod_small by exact Hlt.
    rewrite (nth_lookup_Some _ _ e _ Hk). reflexivity.
Qed.

Lemma new_square_candidates_witness :
  ∃ choice,
    _new_square grid4 choice heap_pairs
    = (Return tt, set_value heap_pairs 2 (Some 2%Z)).
Proof.
  apply (proj2 (proj2 (proj2 (proj2 (new_square_candidates grid4 heap_pairs))))
           2).
  - change (2 ∈ seq 0 16). apply elem_of_seq. lia.
  - reflexivity.
Defined.

(** ** The loop of [_shift] stays in range *)

(** X1: [_shift] returns on every line, whatever the squares hold and
    however they repeat: [first_empty_spot] stays an index of the line, so
    that [squares[self.first_empty_spot]] never raises, and
    [last_filled_spot] stays a square of the line. *)
Theorem shift_never_raises sqs σ :
  ∃ v σ',
    shift_locals sqs σ = (Return v, σ')
    ∧ _shift sqs σ = (Return (made_move v, finished v), σ')
    ∧ (∀ k, first_empty_spot v = Some k → k < length sqs)
    ∧ (∀ l, last_filled_spot v = Some l → l ∈ sqs).
Proof.
  destruct (shift_loop_ind (λ _ _ _, True) sqs) with (σ := σ)
    as (v & σ' & Hrun & _ & Hfe & Hin); auto.
  exists v, σ'. split; [exact Hrun|].
  split; [apply shift_of_locals; exact Hrun|]. auto.
Qed.

(** ** Properties of [View] *)

Module ViewProps.
Import Stdlib.Strings.Ascii Stdlib.Strings.String stdpp.strings stdpp.pretty.
Import View.

Lemma get_input_loop_mapped input_char keys action :
  mapped input_char = Some action →
  get_input_loop input_char keys = Some (action, keys).
Proof. intros H. destruct keys; simpl; rewrite H; reflexivity. Qed.

Lemma get_input_loop_spec keys input_char :
  mapped input_char = None →
  match get_input_loop input_char keys with
  | Some (action, rest) =>
      ∃ skipped b, keys = skipped ++ b :: rest
                   ∧ key_action b = Some action
                   ∧ Forall (λ b', key_action b' = None) skipped
  | None => Forall (λ b', key_action b' = None) keys
  end.
Proof.
  revert input_char. induction keys as [|b keys IH]; intros ic Hic.
  - simpl. rewrite Hic. constructor.
  - cbn [get_input_loop]. rewrite Hic.
    destruct (key_action b) as [action|] eqn:Hb.
    + unfold key_action in Hb.
      destruct (decode_lower b) as [c|] eqn:Hc; [|discriminate].
      simpl in Hb.
      rewrite (get_input_loop_mapped (Some c) keys action Hb).
      exists [], b. split; [reflexivity|]. split; [|constructor].
      unfold key_action. rewrite Hc. exact Hb.
    + assert (mapped (match decode_lower b with
                      | Some c => Some c
                      | None => ic
                      end) = None) as Hic'.
      { unfold key_action in Hb. destruct (decode_lower b); auto. }
      specialize (IH _ Hic').
      destruct (get_input_loop _ keys) as [[action rest]|].
      * destruct IH as (skipped & b' & -> & Hb' & Hsk).
        exists (b :: skipped), b'. repeat split; auto.
      * constructor; auto.
Qed.

(** X10: [get_input] skips the keys that have no action and returns the
    action of the first key that has one; when no key has one it goes on
    waiting. *)
Theorem get_input_first_valid_key keys :
  match get_input keys with
  | Some (action, rest) =>
      ∃ skipped b, keys = skipped ++ b :: rest
                   ∧ key_action b = Some action
                   ∧ Forall (λ b', key_action b' = None) skipped
  | None => Forall (λ b', key_action b' = None) keys
  end.
Proof. apply get_input_loop_spec. reflexivity. Qed.

(** X11: the keys that have an action are the five letters of [CHAR_MAP],
    in lower and in upper case; no other byte has one, and a byte from 128
    on is skipped as undecodable. *)
Theorem key_action_table b :
  key_action b
  = dict_get [("q"%char, "quit"); ("Q"%char, "quit");
              ("a"%char, "left"); ("A"%char, "left");
              ("d"%char, "right"); ("D"%char, "right");
              ("w"%char, "top"); ("W"%char, "top");
              ("s"%char, "bottom"); ("S"%char, "bottom")] b.
Proof. destruct b as [[] [] [] [] [] [] [] []]; reflexivity. Qed.

Lemma length_append (s1 s2 : string) :
  String.length (s1 +:+ s2) = String.length s1 + String.length s2.
Proof. induction s1 as [|c s1 IH]; simpl; [reflexivity|]. rewrite IH. reflexivity. Qed.

Lemma length_str_mul_space n :
  String.length (str_mul " " n) = Z.to_nat n.
Proof.
  unfold str_mul. induction (Z.to_nat n) as [|k IH]; [reflexivity|].
  rewrite Nat.iter_succ, length_append, IH. reflexivity.
Qed.

(** The local variable [value_to_write] of [parse], before [COLORS] is
    looked up: [SQUARE_SIZE] characters, or the number when it is longer. *)
Lemma value_to_write_width v :
  String.length (value_to_write v)
  = match v with
    | Some x =>
        if (x =? 0)%Z then 6 else Nat.max 6 (String.length (pretty x))
    | None => 6
    end.
Proof.
  destruct v as [x|]; [|reflexivity]. unfold value_to_write.
  destruct (x =? 0)%Z; [reflexivity|]. cbv zeta.
  rewrite !length_append, !length_str_mul_space. unfold SQUARE_SIZE.
  set (n := String.length (pretty x)).
  destruct (decide (n ≤ 6)) as [Hle|Hgt].
  - rewrite Nat.max_l by lia.
    assert (0 ≤ (6 - Z.of_nat n) / 2 ≤ 6 - Z.of_nat n)%Z.
    { split; [apply Z.div_pos; lia|]. apply Z.div_le_upper_bound; lia. }
    lia.
  - rewrite Nat.max_r by lia.
    assert ((6 - Z.of_nat n) / 2 < 0)%Z by (apply Z.div_lt_upper_bound; lia).
    assert ((6 - Z.of_nat n) ≤ (6 - Z.of_nat n) / 2)%Z
      by (apply Z.div_le_lower_bound; lia).
    lia.
Qed.

(** The keys of [COLORS]: no tile, and the powers of two from 2 to 2048. *)
Lemma shown_iff v :
  shown v = true
  ↔ v = None ∨ ∃ x, v = Some x ∧ tile_ok x ∧ (x ≤ GOAL)%Z.
Proof.
  split.
  - unfold shown, COLORS, dict_get. intros H.
    repeat case_decide; try discriminate; subst; auto; right;
      eexists; (split; [reflexivity|]); (split; [|unfold GOAL; lia]).
    + exists 1; split; [lia|reflexivity].
    + exists 2; split; [lia|reflexivity].
    + exists 3; split; [lia|reflexivity].
    + exists 4; split; [lia|reflexivity].
    + exists 5; split; [lia|reflexivity].
    + exists 6; split; [lia|reflexivity].
    + exists 7; split; [lia|reflexivity].
    + exists 8; split; [lia|reflexivity].
    + exists 9; split; [lia|reflexivity].
    + exists 10; split; [lia|reflexivity].
    + exists 11; split; [lia|reflexivity].
  - intros [->|(x & -> & (k & Hk & ->) & Hle)]; [reflexivity|].
    unfold GOAL in Hle.
    assert (k ≤ 11) as Hk11.
    { destruct (decide (k ≤ 11)); [assumption|].
      assert (2 ^ 12 ≤ 2 ^ Z.of_nat k)%Z by (apply Z.pow_le_mono_r; lia).
      change (2 ^ 12)%Z with 4096%Z in *. lia. }
    do 12 (destruct k as [|k]; [try lia; reflexivity|]). lia.
Qed.


Lemma parse_square_result v :
  (parse_square v).2 = if shown v then None else Some KeyError.
Proof.
  unfold parse_square, shown, COLORS, dict_get.
  repeat case_decide; subst; reflexivity.
Qed.

Lemma parse_squares_result vs :
  (parse_squares vs).2 = if forallb shown vs then None else Some KeyError.
Proof.
  induction vs as [|v vs IH]; [reflexivity|]. cbn [parse_squares forallb].
  pose proof (parse_square_result v) as Hv.
  destruct (parse_square v) as [out [e|]]; simpl in Hv.
  - destruct (shown v); [discriminate|]. simpl. exact Hv.
  - destruct (shown v); [|discriminate]. simpl.
    destruct (parse_squares vs) as [out' e']. exact IH.
Qed.

Lemma parse_rows_result grid_length rows :
  (parse_rows grid_length rows).2
  = if forallb (forallb shown) rows then None else Some KeyError.
Proof.
  induction rows as [|x rows IH]; [reflexivity|]. cbn [parse_rows forallb].
  pose proof (parse_squares_result x) as Hx.
  destruct (parse_squares x) as [out [e|]]; simpl in Hx.
  - destruct (forallb shown x); [discriminate|]. simpl. exact Hx.
  - destruct (forallb shown x); [|discriminate]. simpl.
    destruct (parse_rows grid_length rows) as [out' e']. exact IH.
Qed.

Lemma parse_result grid σ :
  (parse grid σ).2
  = if forallb (forallb shown) (values σ <$> squares grid) then None
    else Some KeyError.
Proof.
  unfold parse. cbv zeta.
  pose proof (parse_rows_result
    (Z.of_nat (length (squares grid)) * SQUARE_SIZE
     + Z.of_nat (length (squares grid))) (values σ <$> squares grid)) as H.
  destruct (parse_rows _ _) as [out e]. exact H.
Qed.

Lemma forallb_shown_cells grid σ :
  forallb (forallb shown) (values σ <$> squares grid) = true
  ↔ ∀ l, l ∈ cells grid → shown (value σ l) = true.
Proof.
  unfold cells. induction (squares grid) as [|row rows IH]; simpl.
  - split; [intros _ l Hl; inversion Hl|reflexivity].
  - rewrite andb_true_iff, IH. clear IH.
    assert (forallb shown (values σ row) = true
            ↔ ∀ l, l ∈ row → shown (value σ l) = true) as ->.
    { induction row as [|a row IH]; simpl.
      - split; [intros _ l Hl; inversion Hl|reflexivity].
      - rewrite andb_true_iff, IH. split.
        + intros [Ha Hrow] l [->|Hl]%elem_of_cons; auto.
        + intros H. split; [apply H; left|intros l Hl; apply H; right; exact Hl]. }
    split.
    + intros [H1 H2] l [Hl|Hl]%elem_of_app; auto.
    + intros H. split; intros l Hl; apply H; apply elem_of_app; auto.
Qed.

(** X13: [parse] raises nothing but [KeyError], and raises it exactly when
    some square of the grid holds a value that is not a power of two from 2
    to 2048, as 0 or 4096. *)
Theorem parse_raises_iff grid σ :
  ((parse grid σ).2 = None ∨ (parse grid σ).2 = Some KeyError)
  ∧ ((parse grid σ).2 = None ↔ tiles_upto GOAL σ (cells grid)).
Proof.
  unfold tiles_upto. rewrite parse_result. split.
  - destruct (forallb _ _); auto.
  - pose proof (forallb_shown_cells grid σ) as Hc.
    destruct (forallb (forallb shown) (values σ <$> squares grid)).
    + split; [intros _|reflexivity]. intros l x Hl Hx.
      pose proof (proj1 Hc eq_refl l Hl) as Hs. rewrite Hx in Hs.
      apply shown_iff in Hs as [[=]|(y & [= <-] & H)]. exact H.
    + split; [discriminate|]. intros H. exfalso.
      assert (false = true); [|discriminate]. apply Hc. intros l Hl.
      apply shown_iff. destruct (value σ l) as [x|] eqn:Hx; [|auto].
      right. exists x. split; [reflexivity|]. exact (H l x Hl Hx).
Qed.

Lemma parse_raises_iff_witness :
  (parse {| _width := 1; _height := 1; squares := [[0]] |} (heap_of [t 2])).2
  = None
  ∧ tiles_upto GOAL heap_full (cells grid4).
Proof.
  split.
  - apply (proj2 (proj2 (parse_raises_iff
                           {| _width := 1; _height := 1; squares := [[0]] |}
                           (heap_of [t 2])))).
    intros l x Hl Hx. apply list_elem_of_In in Hl. simpl in Hl.
    destruct Hl as [<-|[]]. vm_compute in Hx. injection Hx as <-.
    split; [exists 1; split; [lia|reflexivity]|unfold GOAL; lia].
  - apply (proj1 (proj2 (parse_raises_iff grid4 heap_full))).
    vm_compute. reflexivity.
Defined.

Lemma parse_ok grid σ :
  (∀ l x, l ∈ cells grid → value σ l = Some x → tile_ok x ∧ (x ≤ GOAL)%Z) →
  (parse grid σ).2 = None.
Proof.
  intros H. rewrite parse_result.
  assert (forallb (forallb shown) (values σ <$> squares grid) = true) as ->;
    [|reflexivity].
  apply forallb_shown_cells. intros l Hl. apply shown_iff.
  destruct (value σ l) as [x|] eqn:Hx; [|auto].
  right. exists x. split; [reflexivity|]. exact (H l x Hl Hx).
Qed.

Lemma key_action_actions b action :
  key_action b = Some action →
  action = "quit" ∨ action = "left" ∨ action = "right" ∨ action = "top"
  ∨ action = "bottom".
Proof.
  destruct b as [[] [] [] [] [] [] [] []]; intros H; try discriminate;
    inversion H; tauto.
Qed.

Lemma get_input_Some keys action rest :
  get_input keys = Some (action, rest) →
  length rest < length keys
  ∧ ∃ skipped b, keys = skipped ++ b :: rest
                 ∧ key_action b = Some action
                 ∧ Forall (λ b', key_action b' = None) skipped.
Proof.
  intros H. pose proof (get_input_loop_spec keys None eq_refl) as Hs.
  unfold get_input in H. rewrite H in Hs.
  destruct Hs as (skipped & b & -> & Hb & Hsk).
  split; [rewrite length_app; simpl; lia|eauto].
Qed.

Lemma get_input_None keys :
  get_input keys = None → Forall (λ b', key_action b' = None) keys.
Proof.
  intros H. pose proof (get_input_loop_spec keys None eq_refl) as Hs.
  unfold get_input in H. rewrite H in Hs. exact Hs.
Qed.
End ViewProps.

(** ** Properties of [Game] *)

Module GameProps.
Import Stdlib.Strings.Ascii Stdlib.Strings.String.
Import Game.

(** On a grid with no more squares in a row than rows, an action returns or
    raises [GameFinishedException]. *)
Lemma action_outcome width height a grid choice σ :
  shaped width height grid → height ≤ width →
  (apply_action a grid choice σ).1 = Return tt
  ∨ (apply_action a grid choice σ).1 = Raise GameFinishedException.
Proof.
  intros Hs Hle.
  destruct (apply_action_cases a grid choice σ)
    as [[Hl _]|(lines & _ & Hp & ->)].
  - exfalso. destruct (get_columns_fits width height grid σ Hs Hle)
      as (columns & Hc & _).
    destruct a; simpl in Hl; try discriminate.
    + rewrite Hc in Hl. discriminate.
    + rewrite (bind_Return _ _ _ _ _ Hc) in Hl. discriminate.
  - destruct (move_spec grid lines choice σ) as (fin & mm & σ1 & _ & Hm).
    { intros l Hl. rewrite <- Hp. exact Hl. }
    destruct Hm as [[_ ->]|[(_ & _ & l & _ & _ & ->)|(_ & _ & _ & ->)]];
      auto.
Qed.

(** The names of [CHAR_MAP] other than [quit] are methods of the grid. *)
Lemma getattr_action action :
  action = "left"%string ∨ action = "right"%string ∨ action = "top"%string
  ∨ action = "bottom"%string →
  action ≠ "quit"%string
  ∧ ∃ a, getattr action = Some (apply_action a).
Proof.
  intros [->|[->|[->| ->]]]; (split; [discriminate|]).
  - exists Left. reflexivity.
  - exists Right. reflexivity.
  - exists Top. reflexivity.
  - exists Bottom. reflexivity.
Qed.

Lemma main_loop_ends_well width height grid choices :
  shaped width height grid → height ≤ width → NoDup (cells grid) →
  ∀ fuel n keys σ,
    tiles_upto 1024 σ (cells grid) →
    List.length keys < fuel →
    ends_well (_main_loop fuel grid choices n keys σ).1.1.
Proof.
  intros Hs Hle Hnd. induction fuel as [|fuel IH]; intros n keys σ Hσ Hfuel;
    [lia|].
  cbn [_main_loop].
  pose proof (ViewProps.parse_ok grid σ) as Hparse.
  destruct (View.parse grid σ) as [out e]. simpl in Hparse.
  rewrite Hparse by (apply tiles_upto_weaken; exact Hσ).
  destruct (View.get_input keys) as [[action keys']|] eqn:Hin;
    [|right; right; reflexivity].
  apply ViewProps.get_input_Some in Hin as (Hlen & skipped & b & _ & Hb & _).
  apply ViewProps.key_action_actions in Hb as [->|Hb]; [left; reflexivity|].
  destruct (getattr_action action Hb) as (Hnq & a & ->).
  rewrite decide_False by exact Hnq.
  pose proof (action_outcome width height a grid (choices n) σ Hs Hle) as Ho.
  pose proof (apply_action_upto a grid (choices n) σ Hnd Hσ) as [Hg H1024].
  destruct (apply_action a grid (choices n) σ) as [o σ'].
  simpl in Ho, Hg, H1024.
  destruct Ho as [Ho|Ho]; subst o.
  - specialize (IH (S n) keys' σ' (H1024 ltac:(discriminate)) ltac:(lia)).
    destruct (_main_loop fuel grid choices (S n) keys' σ') as [[e' σ''] out'].
    exact IH.
  - pose proof (ViewProps.parse_ok grid σ' Hg) as Hparse'.
    destruct (View.parse grid σ') as [out' e']. simpl in Hparse'.
    rewrite Hparse'. right; left; reflexivity.
Qed.


(** X14: whatever keys are pressed and whatever the draws, a game ends
    because it is quit or won, or goes on waiting for a key: it never
    writes [Game over.] and no exception escapes it. *)
Theorem game_is_never_lost choice1 choice2 choices keys σ0 :
  ends_well (Game_init choice1 choice2 choices keys σ0).1.1.
Proof.
  unfold Game_init, GRID_WIDTH, GRID_HEIGHT.
  destruct (Grid_init_succeeds 4 4 choice1 choice2 σ0 ltac:(lia))
    as (grid & σ & Hinit).
  rewrite Hinit.
  destruct (Grid_init_Return _ _ _ _ _ _ _ Hinit)
    as (Hs & _ & _ & _ & l1 & l2 & _ & _ & _ & Hv1 & Hv2 & Hv).
  destruct (Grid_init_count _ _ _ _ _ _ _ Hinit) as [Hnd _].
  apply (main_loop_ends_well 4 4); auto.
  intros l x Hl Hx.
  assert (x = 2%Z) as ->.
  { destruct (decide (l = l1)) as [->|Hn1]; [congruence|].
    destruct (decide (l = l2)) as [->|Hn2]; [congruence|].
    rewrite Hv in Hx by auto. discriminate. }
  split; [apply tile_ok_2|lia].
Qed.

(** On a stuck grid every action returns and assigns nothing. *)
Lemma stuck_action grid σ a choice :
  stuck grid σ → apply_action a grid choice σ = (Return tt, σ).
Proof.
  intros Hstuck. destruct (Hstuck a) as (lines & Hl & Hb).
  destruct (apply_action_cases a grid choice σ)
    as [[Hl' _]|(lines' & Hl' & _ & ->)]; rewrite Hl in Hl'; [discriminate|].
  inversion Hl'; subst lines'.
  destruct (move_loop_made_move lines false σ) as (fin & σ' & Hloop).
  rewrite Hb in Hloop. simpl in Hloop.
  destruct (move_loop_unchanged _ _ _ _ _ _ Hloop) as (-> & -> & _).
  unfold _move. rewrite (bind_Return _ _ _ _ _ Hloop). reflexivity.
Qed.

(** X15: on a grid where no line can shift or merge, the main loop never
    changes a square: it ends when a key of [quit] is pressed, and
    otherwise goes on waiting for a key. *)
Theorem stuck_game_only_quits grid choices σ :
  stuck grid σ → (View.parse grid σ).2 = None →
  ∀ fuel n keys,
    List.length keys < fuel →
    (_main_loop fuel grid choices n keys σ).1.2 = σ
    ∧ ((_main_loop fuel grid choices n keys σ).1.1 = Quit
       ∧ Exists (λ b, View.key_action b = Some "quit"%string) keys
       ∨ (_main_loop fuel grid choices n keys σ).1.1 = AwaitingKey
         ∧ Forall (λ b, View.key_action b ≠ Some "quit"%string) keys).
Proof.
  intros Hstuck Hparse. induction fuel as [|fuel IH]; intros n keys Hfuel;
    [lia|].
  cbn [_main_loop]. destruct (View.parse grid σ) as [out e].
  simpl in Hparse. subst e.
  destruct (View.get_input keys) as [[action keys']|] eqn:Hin.
  - apply ViewProps.get_input_Some in Hin
      as (Hlen & skipped & b & -> & Hb & Hsk).
    assert (Forall (λ b', View.key_action b' ≠ Some "quit"%string) skipped)
      as Hsk'.
    { eapply Forall_impl; [|exact Hsk]. simpl. intros b' ->. discriminate. }
    pose proof (ViewProps.key_action_actions b action Hb) as [->|Hact].
    + simpl. split; [reflexivity|]. left. split; [reflexivity|].
      apply Exists_app. right. constructor. exact Hb.
    + destruct (getattr_action action Hact) as (Hnq & a & ->).
      rewrite decide_False by exact Hnq.
      rewrite (stuck_action grid σ a (choices n) Hstuck).
      specialize (IH (S n) keys' ltac:(lia)).
      destruct (_main_loop fuel grid choices (S n) keys' σ)
        as [[e' σ''] out'].
      simpl in *. destruct IH as [-> IH]. split; [reflexivity|].
      destruct IH as [[-> Hex]|[-> Hall]]; [left|right];
        (split; [reflexivity|]).
      * apply Exists_app. right. apply Exists_cons. right. exact Hex.
      * apply Forall_app. split; [exact Hsk'|]. constructor; [|exact Hall].
        rewrite Hb. intros [= ->]. apply Hnq. reflexivity.
  - simpl. split; [reflexivity|]. right. split; [reflexivity|].
    apply ViewProps.get_input_None in Hin.
    eapply Forall_impl; [|exact Hin]. simpl. intros b' ->. discriminate.
Qed.

Lemma stuck_game_only_quits_witness :
  (_main_loop 4 grid4 (λ _, 0) 0 ["a"%char; "x"%char; "w"%char] heap_full).1.2
  = heap_full
  ∧ ((_main_loop 4 grid4 (λ _, 0) 0 ["a"%char; "x"%char; "w"%char]
        heap_full).1.1 = Quit
     ∧ Exists (λ b, View.key_action b = Some "quit"%string)
         ["a"%char; "x"%char; "w"%char]
     ∨ (_main_loop 4 grid4 (λ _, 0) 0 ["a"%char; "x"%char; "w"%char]
          heap_full).1.1 = AwaitingKey
       ∧ Forall (λ b, View.key_action b ≠ Some "quit"%string)
           ["a"%char; "x"%char; "w"%char]).
Proof.
  apply (stuck_game_only_quits grid4 (λ _, 0) heap_full).
  - intros []; eexists; (split; [reflexivity|]); vm_compute; reflexivity.
  - vm_compute. reflexivity.
  - simpl. lia.
Defined.

End GameProps.
